(** * Foodie: the simulated order tracker of [js/notifications.js]

    A shallow embedding of the order-status notifier: the persisted
    collection under the local-storage key [foodie:orders], the module
    state ([currentOrderId], [orderStatusTimeouts]), the browser's timer
    queue and clock, and the four operations [saveOrderStatus],
    [getOrderStatus], [startOrderTracking] and [checkExistingOrders].

    Conventions of the model.
    - Times are epoch milliseconds, as [Z].  JavaScript numbers are exact
      on integers below 2^53, far above any [Date.now()], so no rounding
      is modelled.
    - A task (a call from the page, or one timer callback) runs at one
      instant: [Date.now()] is constant inside it.  Time passes between
      tasks only, and a timer fires exactly when it is due.
    - JSON text is represented by what [JSON.parse] makes of it: the
      array of records it encodes, or a syntax error.
    - Thrown exceptions carry the state reached at the [throw].
    - The notification permission is an input: the tracker never calls
      [requestNotificationPermission].
    - The trace is instrumentation.  [GetItem], [SetItem], [Notified] and
      [Fired] record calls of browser primitives; [Saved] and [Tracking]
      mark the completion of [saveOrderStatus] and the entry of
      [startOrderTracking]. *)

From Stdlib Require Import ZArith String Ascii List Lia.
From stdpp Require Import base list sets strings.

Set Warnings "-clear-no-such-hyp".

Local Open Scope string_scope.
Local Open Scope list_scope.
Local Open Scope Z_scope.

(** ** Constants *)

Module ORDER_STATUSES.
Definition PLACED : string := "Order Placed".
Definition PREPARING : string := "Preparing".
Definition READY : string := "Ready for Pickup".
Definition ON_WAY : string := "On the Way".
Definition DELIVERED : string := "Delivered".
End ORDER_STATUSES.

Module ORDER_TIMINGS.
Definition PREPARING : Z := 10000.
Definition READY : Z := 20000.
Definition ON_WAY : Z := 30000.
Definition DELIVERED : Z := 45000.
End ORDER_TIMINGS.

(** ** Data *)

(** The object literal [orderData] of [saveOrderStatus]. *)
Record Order := {
  id : string;
  status : string;
  timestamp : Z;
  lastUpdate : Z
}.

#[global] Instance Order_eq_dec : EqDecision Order.
Proof. solve_decision. Defined.

(** What [localStorage.getItem('foodie:orders')] can return. *)
Inductive Slot :=
| NoItem                          (* null: the key is absent *)
| EmptyText                       (* the empty string, falsy like null *)
| Json (orders : list Order)      (* text that parses to this array *)
| Malformed.                      (* any other text JSON.parse rejects *)

(** [Notification] support and permission of the window. *)
Inductive Permission := Unsupported | Default | Granted | Denied.

#[global] Instance Permission_eq_dec : EqDecision Permission.
Proof. solve_decision. Defined.

(** The four closures that [startOrderTracking] hands to [setTimeout],
    in source order. *)
Inductive Step := ToPreparing | ToReady | ToOnWay | ToDelivered.

#[global] Instance Step_eq_dec : EqDecision Step.
Proof. solve_decision. Defined.

(** Timer callbacks, defunctionalised: a status transition closed over
    its [orderId], or the auto-close of the notification numbered [n]. *)
Inductive Callback :=
| Advance (orderId : string) (step : Step)
| CloseNotification (n : nat).

#[global] Instance Callback_eq_dec : EqDecision Callback.
Proof. solve_decision. Defined.

Record Timer := {
  tid : nat;
  due : Z;
  callback : Callback
}.

Inductive exn := SyntaxError | QuotaExceededError.

(** Observable events, in chronological order. *)
Inductive Event :=
| GetItem                                 (* localStorage.getItem *)
| SetItem (orders : list Order)           (* localStorage.setItem succeeded *)
| Saved (orderData : Order)               (* saveOrderStatus completed *)
| Notified (title body icon : string)     (* new Notification(...) *)
| Tracking (orderId : string)             (* startOrderTracking entered *)
| Fired (cb : Callback)                   (* the event loop ran a timer *)
| Uncaught (e : exn).                     (* a callback threw *)

Record World := {
  clock : Z;                               (* Date.now() *)
  slot : Slot;                             (* localStorage['foodie:orders'] *)
  quota : list Order -> bool;              (* does setItem accept this value *)
  permission : Permission;
  currentOrderId : option string;
  orderStatusTimeouts : list nat;
  timers : list Timer;                     (* pending, in registration order *)
  nextTimer : nat;
  shown : nat;                             (* notifications created so far *)
  trace : list Event
}.

Definition set_clock (t : Z) (w : World) : World :=
  {| clock := t; slot := slot w; quota := quota w; permission := permission w;
     currentOrderId := currentOrderId w;
     orderStatusTimeouts := orderStatusTimeouts w; timers := timers w;
     nextTimer := nextTimer w; shown := shown w; trace := trace w |}.

Definition set_slot (s : Slot) (w : World) : World :=
  {| clock := clock w; slot := s; quota := quota w; permission := permission w;
     currentOrderId := currentOrderId w;
     orderStatusTimeouts := orderStatusTimeouts w; timers := timers w;
     nextTimer := nextTimer w; shown := shown w; trace := trace w |}.

Definition set_currentOrderId (c : option string) (w : World) : World :=
  {| clock := clock w; slot := slot w; quota := quota w;
     permission := permission w; currentOrderId := c;
     orderStatusTimeouts := orderStatusTimeouts w; timers := timers w;
     nextTimer := nextTimer w; shown := shown w; trace := trace w |}.

Definition set_orderStatusTimeouts (l : list nat) (w : World) : World :=
  {| clock := clock w; slot := slot w; quota := quota w;
     permission := permission w; currentOrderId := currentOrderId w;
     orderStatusTimeouts := l; timers := timers w;
     nextTimer := nextTimer w; shown := shown w; trace := trace w |}.

Definition set_timers (l : list Timer) (w : World) : World :=
  {| clock := clock w; slot := slot w; quota := quota w;
     permission := permission w; currentOrderId := currentOrderId w;
     orderStatusTimeouts := orderStatusTimeouts w; timers := l;
     nextTimer := nextTimer w; shown := shown w; trace := trace w |}.

Definition set_nextTimer (n : nat) (w : World) : World :=
  {| clock := clock w; slot := slot w; quota := quota w;
     permission := permission w; currentOrderId := currentOrderId w;
     orderStatusTimeouts := orderStatusTimeouts w; timers := timers w;
     nextTimer := n; shown := shown w; trace := trace w |}.

Definition set_shown (n : nat) (w : World) : World :=
  {| clock := clock w; slot := slot w; quota := quota w;
     permission := permission w; currentOrderId := currentOrderId w;
     orderStatusTimeouts := orderStatusTimeouts w; timers := timers w;
     nextTimer := nextTimer w; shown := n; trace := trace w |}.

Definition log (e : Event) (w : World) : World :=
  {| clock := clock w; slot := slot w; quota := quota w;
     permission := permission w; currentOrderId := currentOrderId w;
     orderStatusTimeouts := orderStatusTimeouts w; timers := timers w;
     nextTimer := nextTimer w; shown := shown w; trace := trace w ++ [e] |}.

(** ** The monad of tasks: state and exceptions *)

Inductive outcome (A : Type) :=
| Returned (a : A) (w : World)
| Thrown (e : exn) (w : World).
Arguments Returned {A} a w.
Arguments Thrown {A} e w.

Definition M (A : Type) : Type := World -> outcome A.

Definition ret {A} (a : A) : M A := fun w => Returned a w.

Definition bind {A B} (m : M A) (k : A -> M B) : M B :=
  fun w => match m w with
           | Returned a w' => k a w'
           | Thrown e w' => Thrown e w'
           end.

Definition throw {A} (e : exn) : M A := fun w => Thrown e w.
Definition gets {A} (f : World -> A) : M A := fun w => Returned (f w) w.
Definition modify (f : World -> World) : M unit := fun w => Returned tt (f w).

Notation "x <- m ;; k" := (bind m (fun x => k))
  (at level 100, m at next level, right associativity).
Notation "m ;; k" := (bind m (fun _ => k))
  (at level 100, right associativity).

(** The state an outcome leaves behind, whether it returned or threw. *)
Definition after {A} (o : outcome A) : World :=
  match o with Returned _ w => w | Thrown _ w => w end.

Fixpoint forEach {A} (l : list A) (f : A -> M unit) : M unit :=
  match l with
  | [] => ret tt
  | x :: l' => f x ;; forEach l' f
  end.

(** ** Browser primitives *)

Definition Date_now : M Z := gets clock.

Definition getItem : M Slot :=
  fun w => Returned (slot w) (log GetItem w).

Definition setItem (orders : list Order) : M unit :=
  fun w => if quota w orders
           then Returned tt (log (SetItem orders) (set_slot (Json orders) w))
           else Thrown QuotaExceededError w.

(** [JSON.parse].  Every caller applies it to [v || '[]'], which is
    never null nor empty. *)
Definition JSON_parse (text : Slot) : M (list Order) :=
  match text with
  | Json orders => ret orders
  | NoItem | EmptyText | Malformed => throw SyntaxError
  end.

(** [v || '[]']: null and the empty string are falsy. *)
Definition or_empty_array (v : Slot) : Slot :=
  match v with
  | NoItem | EmptyText => Json []
  | _ => v
  end.

Definition setTimeout (cb : Callback) (delay : Z) : M nat :=
  fun w =>
    let t := {| tid := nextTimer w; due := clock w + delay; callback := cb |} in
    Returned (nextTimer w)
             (set_nextTimer (S (nextTimer w)) (set_timers (timers w ++ [t]) w)).

Definition clearTimeout (i : nat) : M unit :=
  modify (fun w => set_timers (filter (λ t, tid t ≠ i) (timers w)) w).

(** ** notifications.js *)

Definition default_icon : string := "../imgs/favicon.png".

(** [showOrderNotification]: returns the new notification, or null. *)
Definition showOrderNotification (title body icon : string) : M (option nat) :=
  fun w =>
    if decide (permission w = Granted) then
      let n := shown w in
      (_ <- setTimeout (CloseNotification n) 5000 ;; ret (Some n))
        (log (Notified title body icon) (set_shown (S n) w))
    else Returned None w.

(** [orders.findIndex(o => o.id === orderId)], with -1 as [None]. *)
Definition findIndex (orderId : string) (orders : list Order) : option nat :=
  fst <$> list_find (λ o, id o = orderId) orders.

(** [orders.find(o => o.id === orderId)], with undefined as [None]. *)
Definition find (orderId : string) (orders : list Order) : option Order :=
  snd <$> list_find (λ o, id o = orderId) orders.

Definition saveOrderStatus (orderId status : string) (timestamp : Z) : M unit :=
  v <- getItem ;;
  orders <- JSON_parse (or_empty_array v) ;;
  let existingOrderIndex := findIndex orderId orders in
  now <- Date_now ;;
  let orderData :=
    {| id := orderId; status := status; timestamp := timestamp;
       lastUpdate := now |} in
  let orders' :=
    match existingOrderIndex with
    | Some i => <[i := orderData]> orders
    | None => orders ++ [orderData]
    end in
  setItem orders' ;;
  modify (log (Saved orderData)).

Definition getOrderStatus (orderId : string) : M (option Order) :=
  v <- getItem ;;
  orders <- JSON_parse (or_empty_array v) ;;
  ret (find orderId orders).

(** The status, delay and notification text of each scheduled closure. *)
Definition step_status (s : Step) : string :=
  match s with
  | ToPreparing => ORDER_STATUSES.PREPARING
  | ToReady => ORDER_STATUSES.READY
  | ToOnWay => ORDER_STATUSES.ON_WAY
  | ToDelivered => ORDER_STATUSES.DELIVERED
  end.

Definition step_delay (s : Step) : Z :=
  match s with
  | ToPreparing => ORDER_TIMINGS.PREPARING
  | ToReady => ORDER_TIMINGS.READY
  | ToOnWay => ORDER_TIMINGS.ON_WAY
  | ToDelivered => ORDER_TIMINGS.DELIVERED
  end.

Definition step_title (s : Step) : string :=
  match s with
  | ToPreparing => "Order Update 🍳"
  | ToReady => "Order Ready! 📦"
  | ToOnWay => "Order On The Way! 🚚"
  | ToDelivered => "Order Delivered! ✅"
  end.

Definition step_body (s : Step) (orderId : string) : string :=
  match s with
  | ToPreparing =>
      "Your order " +:+ orderId +:+
      " is now being prepared. Our chefs are working their magic!"
  | ToReady =>
      "Your order " +:+ orderId +:+
      " is ready for pickup. Our delivery partner will be with you soon."
  | ToOnWay =>
      "Great news! Your order " +:+ orderId +:+
      " is on the way. Track your delivery in real-time."
  | ToDelivered =>
      "Your order " +:+ orderId +:+
      " has been delivered successfully. Enjoy your meal!"
  end.

Definition placed_title : string := "Order Confirmed! 🎉".

Definition placed_body (orderId : string) : string :=
  "Your order " +:+ orderId +:+
  " has been placed successfully. We'll start preparing it soon.".

(** The body of a scheduled closure. *)
Definition advance (orderId : string) (s : Step) : M unit :=
  now <- Date_now ;;
  saveOrderStatus orderId (step_status s) now ;;
  _ <- showOrderNotification (step_title s) (step_body s orderId) default_icon ;;
  ret tt.

(** [orderStatusTimeouts.push(setTimeout(closure, delay))] *)
Definition schedule (orderId : string) (s : Step) : M unit :=
  i <- setTimeout (Advance orderId s) (step_delay s) ;;
  modify (fun w => set_orderStatusTimeouts (orderStatusTimeouts w ++ [i]) w).

Definition startOrderTracking (orderId : string) : M unit :=
  modify (log (Tracking orderId)) ;;
  modify (set_currentOrderId (Some orderId)) ;;
  startTime <- Date_now ;;
  pending <- gets orderStatusTimeouts ;;
  forEach pending clearTimeout ;;
  modify (set_orderStatusTimeouts []) ;;
  saveOrderStatus orderId ORDER_STATUSES.PLACED startTime ;;
  _ <- showOrderNotification placed_title (placed_body orderId) default_icon ;;
  schedule orderId ToPreparing ;;
  schedule orderId ToReady ;;
  schedule orderId ToOnWay ;;
  schedule orderId ToDelivered.

(** The filter of [checkExistingOrders]. *)
Definition is_active (now : Z) (order : Order) : Prop :=
  now - lastUpdate order < ORDER_TIMINGS.DELIVERED
  ∧ status order ≠ ORDER_STATUSES.DELIVERED.

#[global] Instance is_active_dec now order : Decision (is_active now order).
Proof. unfold is_active. apply _. Defined.

(** [Array.prototype.sort] with a comparator: a stable sort, elements
    that compare equal keep their order. *)
Fixpoint sort_insert (cmp : Order -> Order -> Z) (x : Order) (l : list Order)
  : list Order :=
  match l with
  | [] => [x]
  | y :: l' =>
      if decide (cmp x y <= 0) then x :: y :: l'
      else y :: sort_insert cmp x l'
  end.

Definition sort (cmp : Order -> Order -> Z) (l : list Order) : list Order :=
  foldr (sort_insert cmp) [] l.

(** The branch of [checkExistingOrders] taken for [latestOrder]. *)
Definition resume (now : Z) (latestOrder : Order) : M unit :=
  let timeElapsed := now - timestamp latestOrder in
  if decide (timeElapsed < ORDER_TIMINGS.PREPARING) then
    startOrderTracking (id latestOrder)
  else if decide (timeElapsed < ORDER_TIMINGS.READY) then
    saveOrderStatus (id latestOrder) ORDER_STATUSES.PREPARING
                    (timestamp latestOrder + ORDER_TIMINGS.PREPARING) ;;
    startOrderTracking (id latestOrder)
  else if decide (timeElapsed < ORDER_TIMINGS.ON_WAY) then
    saveOrderStatus (id latestOrder) ORDER_STATUSES.READY
                    (timestamp latestOrder + ORDER_TIMINGS.READY) ;;
    startOrderTracking (id latestOrder)
  else if decide (timeElapsed < ORDER_TIMINGS.DELIVERED) then
    saveOrderStatus (id latestOrder) ORDER_STATUSES.ON_WAY
                    (timestamp latestOrder + ORDER_TIMINGS.ON_WAY) ;;
    startOrderTracking (id latestOrder)
  else ret tt.

(** [activeOrders.length > 0] holds exactly when the sorted array has a
    first element.  The source calls [Date.now()] in the filter and
    again for [timeElapsed]; inside one task they all return [now]. *)
Definition checkExistingOrders : M unit :=
  v <- getItem ;;
  orders <- JSON_parse (or_empty_array v) ;;
  now <- Date_now ;;
  let activeOrders := filter (is_active now) orders in
  match sort (λ a b, timestamp b - timestamp a) activeOrders with
  | latestOrder :: _ => resume now latestOrder
  | [] => ret tt
  end.

(** ** The event loop *)

Definition run_callback (cb : Callback) : M unit :=
  match cb with
  | Advance orderId s => advance orderId s
  | CloseNotification _ => ret tt     (* notification.close() *)
  end.

(** The pending timer that is due first; among equal due times the one
    registered first. *)
Fixpoint earliest (t : Timer) (l : list Timer) : Timer :=
  match l with
  | [] => t
  | t' :: l' => earliest (if decide (due t' < due t) then t' else t) l'
  end.

Definition next_timer (w : World) : option Timer :=
  match timers w with
  | [] => None
  | t :: l => Some (earliest t l)
  end.

(** Run one timer: the clock reaches its due time, the timer leaves the
    queue, its callback runs; an exception it throws is reported and
    the loop goes on. *)
Definition fire (t : Timer) (w : World) : World :=
  let w1 :=
    log (Fired (callback t))
      (set_clock (Z.max (clock w) (due t))
         (set_timers (filter (λ t', tid t' ≠ tid t) (timers w)) w)) in
  match run_callback (callback t) w1 with
  | Returned _ w2 => w2
  | Thrown e w2 => log (Uncaught e) w2
  end.

Definition idle (T : Z) (w : World) : World :=
  set_clock (Z.max (clock w) T) w.

Fixpoint run_until (fuel : nat) (T : Z) (w : World) : World :=
  match fuel with
  | O => w
  | S n =>
      match next_timer w with
      | Some t => if decide (due t <= T) then run_until n T (fire t w)
                  else idle T w
      | None => idle T w
      end
  end.

(** A transition may raise one notification, hence one auto-close timer. *)
Definition callback_weight (cb : Callback) : nat :=
  match cb with
  | Advance _ _ => 2
  | CloseNotification _ => 1
  end.

Fixpoint weight (l : list Timer) : nat :=
  match l with
  | [] => 0
  | t :: l' => callback_weight (callback t) + weight l'
  end.

(** Let time pass until [T]: every timer due by then fires, in order. *)
Definition elapse (T : Z) (w : World) : World :=
  run_until (S (weight (timers w))) T w.

(** The page just loaded: module state at its initial values. *)
Definition page_load (now : Z) (s : Slot) (q : list Order -> bool)
    (p : Permission) : World :=
  {| clock := now; slot := s; quota := q; permission := p;
     currentOrderId := None; orderStatusTimeouts := []; timers := [];
     nextTimer := 1; shown := 0; trace := [] |}.

(** ** Auxiliary definitions for the statements *)

(** The array a read works on: [JSON.parse(v || '[]')], when it parses. *)
Definition stored (s : Slot) : option (list Order) :=
  match s with
  | NoItem | EmptyText => Some []
  | Json orders => Some orders
  | Malformed => None
  end.

(** The array [saveOrderStatus] writes back. *)
Definition upsert (d : Order) (orders : list Order) : list Order :=
  match findIndex (id d) orders with
  | Some i => <[i := d]> orders
  | None => orders ++ [d]
  end.

(** The record [saveOrderStatus] builds. *)
Definition order (orderId st : string) (ts now : Z) : Order :=
  {| id := orderId; status := st; timestamp := ts; lastUpdate := now |}.

(** Storage that accepts every write. *)
Definition unlimited (w : World) : Prop := ∀ v, quota w v = true.

(** The state after a read of the storage key. *)
Definition read (w : World) : World :=
  {| clock := clock w; slot := slot w; quota := quota w;
     permission := permission w; currentOrderId := currentOrderId w;
     orderStatusTimeouts := orderStatusTimeouts w; timers := timers w;
     nextTimer := nextTimer w; shown := shown w;
     trace := trace w ++ [GetItem] |}.

(** The state after a successful [saveOrderStatus] that read [orders]
    and wrote [d]. *)
Definition saved (d : Order) (orders : list Order) (w : World) : World :=
  {| clock := clock w; slot := Json (upsert d orders); quota := quota w;
     permission := permission w; currentOrderId := currentOrderId w;
     orderStatusTimeouts := orderStatusTimeouts w; timers := timers w;
     nextTimer := nextTimer w; shown := shown w;
     trace := trace w ++ [GetItem; SetItem (upsert d orders); Saved d] |}.

(** What [showOrderNotification] adds when permission is granted: the
    auto-close timer and the event. *)
Definition closer (w : World) : list Timer :=
  if bool_decide (permission w = Granted)
  then [ {| tid := nextTimer w; due := clock w + 5000;
            callback := CloseNotification (shown w) |} ]
  else [].

Definition notice (title body icon : string) (w : World) : list Event :=
  if bool_decide (permission w = Granted)
  then [Notified title body icon] else [].

(** The next free timer handle after a [showOrderNotification]. *)
Definition handle_after_notice (w : World) : nat :=
  if bool_decide (permission w = Granted)
  then S (nextTimer w) else nextTimer w.

(** The state after [showOrderNotification title body icon]. *)
Definition announced (title body icon : string) (w : World) : World :=
  {| clock := clock w; slot := slot w; quota := quota w;
     permission := permission w; currentOrderId := currentOrderId w;
     orderStatusTimeouts := orderStatusTimeouts w;
     timers := timers w ++ closer w;
     nextTimer := handle_after_notice w;
     shown := if bool_decide (permission w = Granted)
              then S (shown w) else shown w;
     trace := trace w ++ notice title body icon w |}.

(** The four timers [startOrderTracking] registers at time [now], when
    the next free handle is [k]. *)
Definition ladder (orderId : string) (now : Z) (k : nat) : list Timer :=
  [ {| tid := k; due := now + ORDER_TIMINGS.PREPARING;
       callback := Advance orderId ToPreparing |};
    {| tid := S k; due := now + ORDER_TIMINGS.READY;
       callback := Advance orderId ToReady |};
    {| tid := S (S k); due := now + ORDER_TIMINGS.ON_WAY;
       callback := Advance orderId ToOnWay |};
    {| tid := S (S (S k)); due := now + ORDER_TIMINGS.DELIVERED;
       callback := Advance orderId ToDelivered |} ].

(** [startOrderTracking] up to its first storage access: the id is
    recorded and every handle in [orderStatusTimeouts] is cleared. *)
Definition entered (orderId : string) (w : World) : World :=
  {| clock := clock w; slot := slot w; quota := quota w;
     permission := permission w; currentOrderId := Some orderId;
     orderStatusTimeouts := [];
     timers := filter (λ t, tid t ∉ orderStatusTimeouts w) (timers w);
     nextTimer := nextTimer w; shown := shown w;
     trace := trace w ++ [Tracking orderId] |}.

(** The state after a [startOrderTracking] that read [orders] and whose
    write was accepted. *)
Definition started (orderId : string) (orders : list Order) (w : World)
  : World :=
  let d := order orderId ORDER_STATUSES.PLACED (clock w) (clock w) in
  let k := handle_after_notice w in
  {| clock := clock w; slot := Json (upsert d orders); quota := quota w;
     permission := permission w; currentOrderId := Some orderId;
     orderStatusTimeouts := [k; S k; S (S k); S (S (S k))];
     timers :=
       (filter (λ t, tid t ∉ orderStatusTimeouts w) (timers w) ++ closer w)
       ++ ladder orderId (clock w) k;
     nextTimer := S (S (S (S k)));
     shown := if bool_decide (permission w = Granted)
              then S (shown w) else shown w;
     trace :=
       (trace w
        ++ [Tracking orderId; GetItem; SetItem (upsert d orders); Saved d])
       ++ notice placed_title (placed_body orderId) default_icon w |}.

(** The state in which the callback of [t] starts to run. *)
Definition dequeued (t : Timer) (w : World) : World :=
  {| clock := Z.max (clock w) (due t); slot := slot w; quota := quota w;
     permission := permission w; currentOrderId := currentOrderId w;
     orderStatusTimeouts := orderStatusTimeouts w;
     timers := filter (λ t', tid t' ≠ tid t) (timers w);
     nextTimer := nextTimer w; shown := shown w;
     trace := trace w ++ [Fired (callback t)] |}.

(** The state after the transition timer [t] fired, read [orders] and
    had its write accepted. *)
Definition advanced (t : Timer) (orderId : string) (s : Step)
    (orders : list Order) (w : World) : World :=
  let now := Z.max (clock w) (due t) in
  let d := order orderId (step_status s) now now in
  {| clock := now; slot := Json (upsert d orders); quota := quota w;
     permission := permission w; currentOrderId := currentOrderId w;
     orderStatusTimeouts := orderStatusTimeouts w;
     timers :=
       filter (λ t', tid t' ≠ tid t) (timers w)
       ++ (if bool_decide (permission w = Granted)
           then [ {| tid := nextTimer w; due := now + 5000;
                     callback := CloseNotification (shown w) |} ]
           else []);
     nextTimer := handle_after_notice w;
     shown := if bool_decide (permission w = Granted)
              then S (shown w) else shown w;
     trace :=
       (trace w
        ++ [Fired (callback t); GetItem; SetItem (upsert d orders); Saved d])
       ++ notice (step_title s) (step_body s orderId) default_icon w |}.

(** The state after the transition timer [t] fired and its callback
    threw [e] at its storage access. *)
Definition stumbled (t : Timer) (e : exn) (w : World) : World :=
  {| clock := Z.max (clock w) (due t); slot := slot w; quota := quota w;
     permission := permission w; currentOrderId := currentOrderId w;
     orderStatusTimeouts := orderStatusTimeouts w;
     timers := filter (λ t', tid t' ≠ tid t) (timers w);
     nextTimer := nextTimer w; shown := shown w;
     trace := trace w ++ [Fired (callback t); GetItem; Uncaught e] |}.

(** ** Views of the state used by the temporal statements *)

(** Pending status transitions, as opposed to notification auto-closes. *)
Definition is_step (t : Timer) : Prop :=
  match callback t with
  | Advance _ _ => True
  | CloseNotification _ => False
  end.

#[global] Instance is_step_dec t : Decision (is_step t).
Proof. unfold is_step. destruct (callback t); apply _. Defined.

Definition steps (l : list Timer) : list Timer := filter is_step l.

(** The records [saveOrderStatus] has written for [orderId], oldest
    first. *)
Definition saves_of (orderId : string) (tr : list Event) : list Order :=
  omap (λ e, match e with
             | Saved d => if decide (id d = orderId) then Some d else None
             | _ => None
             end) tr.

(** The status transitions the event loop has run, oldest first. *)
Definition fired_steps (tr : list Event) : list Callback :=
  omap (λ e, match e with
             | Fired (Advance i s) => Some (Advance i s)
             | _ => None
             end) tr.

(** States the program can be in between two tasks: no pending timer is
    overdue, timer handles are distinct and below the next free one,
    and every pending transition has its handle in
    [orderStatusTimeouts]. *)
Definition wf_parts (now : Z) (pending : list Timer) (next : nat)
    (handles : list nat) : Prop :=
  (∀ t, t ∈ pending → now ≤ due t) ∧
  (∀ t, t ∈ pending → (tid t < next)%nat) ∧
  NoDup (tid <$> pending) ∧
  (∀ t, t ∈ pending → is_step t → tid t ∈ handles).

Definition wf (w : World) : Prop :=
  wf_parts (clock w) (timers w) (nextTimer w) (orderStatusTimeouts w).

(** ** Sequences of operations *)

(** What the page can do with the component, and time passing. *)
Inductive Op :=
| StartTracking (orderId : string)
| PersistStatus (orderId status : string) (timestamp : Z)
| GetStatus (orderId : string)
| ResumeOnLoad
| Wait (T : Z).

(** An operation that throws leaves the state it reached; the page
    goes on from there. *)
Definition perform (op : Op) (w : World) : World :=
  match op with
  | StartTracking orderId => after (startOrderTracking orderId w)
  | PersistStatus orderId st ts => after (saveOrderStatus orderId st ts w)
  | GetStatus orderId => after (getOrderStatus orderId w)
  | ResumeOnLoad => after (checkExistingOrders w)
  | Wait T => elapse T w
  end.

Definition perform_all (ops : list Op) (w : World) : World :=
  foldl (λ w op, perform op w) w ops.

(** At most one record per id in the persisted collection. *)
Definition distinct_ids (s : Slot) : Prop :=
  match s with
  | Json orders => NoDup (id <$> orders)
  | NoItem | EmptyText | Malformed => True
  end.

(** ** What an event, a timer or a write is about *)

(** The events that are about the order [x]: a record saved under that
    id, tracking started for it, one of its transitions run, or a
    notification with one of the five texts for that id. *)
Definition concerns (x : string) (e : Event) : Prop :=
  match e with
  | Saved d => id d = x
  | Tracking y => y = x
  | Fired (Advance y _) => y = x
  | Notified title body _ =>
      (title = placed_title ∧ body = placed_body x)
      ∨ ∃ s, title = step_title s ∧ body = step_body s x
  | _ => False
  end.

(** From [w] to [w'] everything that happened was for the order [x]:
    the new events, the new transition timers, and the records
    replaced. *)
Definition only_for (x : string) (w w' : World) : Prop :=
  (∃ ev, trace w' = trace w ++ ev ∧ ∀ e y, e ∈ ev → concerns y e → y = x) ∧
  (∀ t y s, t ∈ timers w' → callback t = Advance y s → y = x ∨ t ∈ timers w) ∧
  (∀ orders, stored (slot w) = Some orders →
     ∃ orders', stored (slot w') = Some orders' ∧
                ∀ o, o ∈ orders → id o ≠ x → o ∈ orders').

(** ** The loop seen through its transitions *)

(** Auto-closes of notifications: loop events no statement is about. *)
Definition is_close (e : Event) : Prop :=
  match e with
  | Fired (CloseNotification _) => True
  | _ => False
  end.

#[global] Instance is_close_dec e : Decision (is_close e).
Proof. destruct e as [| | | | |[]|]; apply _. Defined.

(** The trace without the auto-closes. *)
Definition journal (tr : list Event) : list Event :=
  filter (λ e, ¬ is_close e) tr.

(** Two states that differ only in the clock, the auto-close timers
    and the auto-closes already run. *)
Definition same_core (w v : World) : Prop :=
  slot w = slot v ∧ quota w = quota v ∧ permission w = permission v ∧
  currentOrderId w = currentOrderId v ∧
  orderStatusTimeouts w = orderStatusTimeouts v ∧
  steps (timers w) = steps (timers v) ∧
  journal (trace w) = journal (trace v).

(** Running the timers of [l] one after the other. *)
Definition fire_all (l : list Timer) (w : World) : World :=
  foldl (λ w t, fire t w) w l.

(** Timers listed by strictly increasing due time. *)
Fixpoint increasing (l : list Timer) : Prop :=
  match l with
  | [] => True
  | t :: l' => (∀ t', t' ∈ l' → due t < due t') ∧ increasing l'
  end.

(** ** Sample states for the worked instances *)

(** At 1000000 this order is 12 s old and was last written 5 s ago. *)
Definition sample_order : Order :=
  {| id := "A7"; status := ORDER_STATUSES.PLACED;
     timestamp := 988000; lastUpdate := 995000 |}.

Definition other_order : Order :=
  {| id := "B2"; status := ORDER_STATUSES.ON_WAY;
     timestamp := 900000; lastUpdate := 930000 |}.

Definition sample_world : World :=
  page_load 1000000 (Json [other_order; sample_order]) (λ _, true) Granted.

Definition malformed_world : World :=
  page_load 1000000 Malformed (λ _, true) Granted.


Definition blank_world : World :=
  page_load 1000000 NoItem (λ _, true) Granted.


(** Last written 50 s before 1000000. *)
Definition stale_order : Order :=
  {| id := "C3"; status := ORDER_STATUSES.PREPARING;
     timestamp := 940000; lastUpdate := 950000 |}.

Definition reload_world : World :=
  page_load 1000000 (Json [stale_order; sample_order]) (λ _, true) Granted.

Definition resume_world : World :=
  page_load 1000000 (Json [sample_order]) (λ _, true) Granted.

(** ** Tactics *)

Ltac timings :=
  unfold ORDER_TIMINGS.PREPARING, ORDER_TIMINGS.READY, ORDER_TIMINGS.ON_WAY,
    ORDER_TIMINGS.DELIVERED in *.

(** Reduction of the monadic code on a state given by its fields. *)
Ltac run_world :=
  cbv beta iota zeta delta
    [bind ret throw gets modify after Date_now getItem setItem JSON_parse
     or_empty_array setTimeout clearTimeout showOrderNotification
     saveOrderStatus getOrderStatus advance schedule run_callback
     set_clock set_slot set_currentOrderId set_orderStatusTimeouts
     set_timers set_nextTimer set_shown log
     clock slot quota permission currentOrderId orderStatusTimeouts
     timers nextTimer shown trace
     read saved announced closer notice handle_after_notice entered started
     dequeued advanced stumbled idle stored order].


(** * Further definitions *)

(** ** Events that change what the user or the storage sees *)

Definition is_effect (e : Event) : Prop :=
  match e with
  | SetItem _ | Saved _ | Notified _ _ _ => True
  | _ => False
  end.

#[global] Instance is_effect_dec e : Decision (is_effect e).
Proof. destruct e; apply _. Defined.

Definition effects (tr : list Event) : list Event := filter is_effect tr.

(** From [w] to [w'] no record was lost: every id stored before is
    stored after, and the collection did not shrink. *)
Definition keeps_records (w w' : World) : Prop :=
  ∀ orders, stored (slot w) = Some orders →
    ∃ orders', stored (slot w') = Some orders' ∧
               (∀ x, x ∈ id <$> orders → x ∈ id <$> orders') ∧
               (length orders ≤ length orders')%nat.

(** Storage with room for two records only. *)
Definition tight_world : World :=
  page_load 1000000 (Json [other_order; sample_order])
            (λ v, bool_decide (length v ≤ 2)%nat) Granted.

(** ** One session at a time *)

(** The pending transitions are what is left of one ladder, and that
    ladder belongs to the order in [currentOrderId]. *)
Definition one_session (w : World) : Prop :=
  ∃ x now k,
    steps (timers w) `suffix_of` ladder x now k ∧
    (steps (timers w) ≠ [] → currentOrderId w = Some x).

(** ** Notifications and what was saved *)

(** The title and body are the texts the tracker uses for the status
    and id of [d]. *)
Definition announces (d : Order) (title body : string) : Prop :=
  (status d = ORDER_STATUSES.PLACED
   ∧ title = placed_title ∧ body = placed_body (id d))
  ∨ ∃ s, status d = step_status s
         ∧ title = step_title s ∧ body = step_body s (id d).

(** Every notification in the trace comes right after the save of the
    status it announces. *)
Definition notices_backed (tr : list Event) : Prop :=
  ∀ i title body icon,
    tr !! i = Some (Notified title body icon) →
    ∃ j d, i = S j ∧ tr !! j = Some (Saved d) ∧ announces d title body.

(** ** Timestamps *)

(** No stored record is dated in the future, and none claims a status
    that started after its last write. *)
Definition timely_records (w : World) : Prop :=
  ∀ orders r, stored (slot w) = Some orders → r ∈ orders →
    timestamp r ≤ lastUpdate r ∧ lastUpdate r ≤ clock w.

(** The one operation whose timestamp the caller chooses. *)
Definition is_persist (op : Op) : Prop :=
  match op with
  | PersistStatus _ _ _ => True
  | _ => False
  end.

(** Two records placed in the same millisecond. *)
Definition twin_first : Order :=
  {| id := "T1"; status := ORDER_STATUSES.PLACED;
     timestamp := 995000; lastUpdate := 995000 |}.

Definition twin_second : Order :=
  {| id := "T2"; status := ORDER_STATUSES.PLACED;
     timestamp := 995000; lastUpdate := 995000 |}.

Definition twin_world : World :=
  page_load 1000000 (Json [twin_first; twin_second]) (λ _, true) Granted.

(** The record [checkExistingOrders] writes before it restarts an order
    whose latest status began [elapsed] ms ago: none in the first
    window, otherwise the status of the window with its nominal start
    time. *)
Definition backdated_record (latestOrder : Order) (now : Z)
  : list Order :=
  let elapsed := now - timestamp latestOrder in
  if decide (elapsed < 10000) then []
  else if decide (elapsed < 20000) then
    [ {| id := id latestOrder; status := ORDER_STATUSES.PREPARING;
         timestamp := timestamp latestOrder + 10000; lastUpdate := now |} ]
  else if decide (elapsed < 30000) then
    [ {| id := id latestOrder; status := ORDER_STATUSES.READY;
         timestamp := timestamp latestOrder + 20000; lastUpdate := now |} ]
  else
    [ {| id := id latestOrder; status := ORDER_STATUSES.ON_WAY;
         timestamp := timestamp latestOrder + 30000; lastUpdate := now |} ].

(** [latestOrder] is the one most recent active record of [orders]. *)
Definition most_recent_active (now : Z) (orders : list Order)
    (latestOrder : Order) : Prop :=
  latestOrder ∈ orders ∧ is_active now latestOrder ∧
  ∀ o, o ∈ orders → is_active now o → o ≠ latestOrder →
       timestamp o < timestamp latestOrder.

(** An order that completed a moment ago, beside one in progress. *)
Definition done_order : Order :=
  {| id := "D4"; status := ORDER_STATUSES.DELIVERED;
     timestamp := 999000; lastUpdate := 999000 |}.

Definition done_world : World :=
  page_load 1000000 (Json [done_order; sample_order]) (λ _, true) Granted.

(** A record written a moment ago whose status began a minute ago. *)
Definition late_order : Order :=
  {| id := "L5"; status := ORDER_STATUSES.ON_WAY;
     timestamp := 950000; lastUpdate := 990000 |}.

Definition late_world : World :=
  page_load 1000000 (Json [late_order]) (λ _, true) Granted.

(** A notification was shown. *)
Definition is_notice (e : Event) : Prop :=
  match e with Notified _ _ _ => True | _ => False end.

#[global] Instance is_notice_dec e : Decision (is_notice e).
Proof. destruct e; apply _. Defined.

(** Nothing of [showOrderNotification] is visible in [w]: no
    notification was constructed and no auto-close is pending. *)
Definition silent (w : World) : Prop :=
  permission w ≠ Granted ∧
  (∀ e, e ∈ trace w → ¬ is_notice e) ∧
  (∀ t, t ∈ timers w → is_step t) ∧
  shown w = 0%nat.

(** The bookkeeping of auto-close timers: handles kept in
    [orderStatusTimeouts] are old and belong to status transitions
    only; a pending auto-close is for a notification already shown and
    is due within 5 s; every notification shown has been closed or has
    its auto-close pending. *)
Definition closers_tracked (w : World) : Prop :=
  (∀ h, h ∈ orderStatusTimeouts w → (h < nextTimer w)%nat) ∧
  (∀ t, t ∈ timers w → tid t ∈ orderStatusTimeouts w → is_step t) ∧
  (∀ t n, t ∈ timers w → callback t = CloseNotification n →
          (n < shown w)%nat ∧ due t ≤ clock w + 5000) ∧
  (∀ n, (n < shown w)%nat →
        Fired (CloseNotification n) ∈ trace w
        ∨ ∃ t, t ∈ timers w ∧ callback t = CloseNotification n).

(** ** Tactics for the invariants *)

(** No event of a given block is a notification. *)
Ltac quiet :=
  let e := fresh "e" in
  let He := fresh "He" in
  intros e He;
  repeat (apply elem_of_cons in He as [->|He]; [by intros []|]);
  by apply elem_of_nil in He.

(** A timer that is pending afterwards was pending before. *)
Ltac kept :=
  let t := fresh "t" in
  let Ht := fresh "Ht" in
  intros t Ht; left;
  first [ exact Ht | by apply list_elem_of_filter in Ht as [_ Ht] ].

(** ** Asking for permission *)




(** * The partner registration page *)

(** The second script of the file: the submit handler of
    [partnerRegisterForm] and the theme switch. *)

Module PartnerForm.

(** ** Regular expressions

    The fragment [mobileRegex] is written in: a character range and a
    fixed repetition, anchored at both ends by [test]. *)
Inductive Regex :=
| Range (lo hi : Ascii.ascii)
| Times (n : nat) (r : Regex).

Definition in_range (lo hi c : Ascii.ascii) : bool :=
  (Ascii.nat_of_ascii lo <=? Ascii.nat_of_ascii c)%nat
  && (Ascii.nat_of_ascii c <=? Ascii.nat_of_ascii hi)%nat.

Fixpoint times (n : nat) (f : string → option string) (s : string)
  : option string :=
  match n with
  | O => Some s
  | S k => match f s with
           | Some rest => times k f rest
           | None => None
           end
  end.

(** The rest of [s] after a match of [r] at its start. *)
Fixpoint consume (r : Regex) (s : string) : option string :=
  match r with
  | Range lo hi =>
      match s with
      | String c rest => if in_range lo hi c then Some rest else None
      | EmptyString => None
      end
  | Times n r' => times n (consume r') s
  end.

(** [/^r$/.test(s)] *)
Definition test (r : Regex) (s : string) : bool :=
  match consume r s with
  | Some EmptyString => true
  | _ => false
  end.

(** [/^[0-9]{10}$/] *)
Definition mobileRegex : Regex := Times 10 (Range "0"%char "9"%char).

(** ** The form *)

Record Form := {
  partnerName : string;
  partnerCity : string;
  partnerMobile : string;
}.

(** The values of the three inputs, the values [reset()] restores, and
    the alerts shown so far, oldest first. *)
Record Page := {
  fields : Form;
  initial : Form;
  alerts : list string;
}.

Definition alert (msg : string) (p : Page) : Page :=
  {| fields := fields p; initial := initial p; alerts := alerts p ++ [msg] |}.

Definition reset (p : Page) : Page :=
  {| fields := initial p; initial := initial p; alerts := alerts p |}.

(** [!s] for a string [s]. *)
Definition falsy (s : string) : bool :=
  match s with EmptyString => true | String _ _ => false end.

Definition required_message : string :=
  "Please fill in all required fields.".

Definition mobile_message : string :=
  "Please enter a valid 10-digit mobile number.".

Definition thanks_message (name city mobile : string) : string :=
  "Thank you, " +:+ name +:+ "! Your registration for " +:+ city
  +:+ " with mobile " +:+ mobile
  +:+ " has been received. An OTP will be sent shortly.".

(** The submit listener.  The first component is
    [e.defaultPrevented] when the listener returns. *)
Definition submit (p : Page) : bool * Page :=
  let name := partnerName (fields p) in
  let city := partnerCity (fields p) in
  let mobile := partnerMobile (fields p) in
  if falsy name || falsy city || falsy mobile then
    (true, alert required_message p)
  else if negb (test mobileRegex mobile) then
    (true, alert mobile_message p)
  else
    (true, reset (alert (thanks_message name city mobile) p)).

(** Ten characters, each one of 0 to 9. *)
Definition ten_digits (s : string) : Prop :=
  String.length s = 10%nat ∧
  Forall (λ c, (48 ≤ Ascii.nat_of_ascii c ≤ 57)%nat) (list_ascii_of_string s).

Definition acceptable (f : Form) : Prop :=
  partnerName f ≠ "" ∧ partnerCity f ≠ "" ∧ ten_digits (partnerMobile f).

Definition sample_page : Page :=
  {| fields := {| partnerName := "Asha"; partnerCity := "Pune";
                  partnerMobile := "9876543210" |};
     initial := {| partnerName := ""; partnerCity := "";
                   partnerMobile := "" |};
     alerts := [] |}.

End PartnerForm.

Module Theme.

(** ** Class lists

    A [DOMTokenList] is an ordered set of tokens. *)
Definition ClassList := list string.

Definition add (token : string) (l : ClassList) : ClassList :=
  if decide (token ∈ l) then l else l ++ [token].

Definition remove (token : string) (l : ClassList) : ClassList :=
  filter (λ c, c ≠ token) l.

(** The first of [token] and [newToken] becomes [newToken], every other
    instance of either goes. *)
Fixpoint replace_first (token newToken : string) (l : ClassList)
  : ClassList :=
  match l with
  | [] => []
  | c :: l' =>
      if decide (c = token ∨ c = newToken)
      then newToken :: filter (λ c', c' ≠ token ∧ c' ≠ newToken) l'
      else c :: replace_first token newToken l'
  end.

(** [classList.replace(token, newToken)]: nothing happens when [token]
    is not in the list. *)
Definition replace (token newToken : string) (l : ClassList) : ClassList :=
  if decide (token ∈ l) then replace_first token newToken l else l.

(** ** The page *)

(** An element of class [theme-toggle]: the class list of its [<i>]
    ([None] when it has none), its own class list, and the text of its
    [<span>] ([None] when it has none). *)
Record Toggle := {
  icon : option ClassList;
  classes : ClassList;
  label : option string;
}.

(** Callbacks of the 600 ms timers. *)
Inductive Timeout :=
| RemoveRotateIcon (toggle : nat)
| RemoveThemeTransition.

Record Page := {
  data_theme : option string;    (* the attribute of the html element *)
  html_classes : ClassList;
  theme_item : option string;    (* localStorage 'theme' *)
  storage_full : bool;           (* setItem throws *)
  toggles : list Toggle;
  timeouts : list Timeout;       (* registered, oldest first *)
}.

Inductive Error := TypeError | QuotaExceededError.

Inductive Outcome :=
| Done (p : Page)
| Threw (e : Error) (p : Page).

Definition after (o : Outcome) : Page :=
  match o with Done p => p | Threw _ p => p end.

Definition light_label : string := "Light Mode ☀".
Definition dark_label : string := "Dark Mode 🌙".

(** The body of the [forEach] callback of [updateThemeIcon], up to the
    timer: [None] when [icon] is null, in which case the first
    statement throws and the toggle is untouched. *)
Definition update_toggle (theme : string) (t : Toggle) : option Toggle :=
  match icon t with
  | None => None
  | Some ic =>
      Some (if decide (theme = "dark") then
              {| icon := Some (add "rotate-icon"
                                 (replace "fa-moon" "fa-sun" ic));
                 classes := add "dark" (classes t);
                 label := match label t with
                          | Some _ => Some light_label
                          | None => None
                          end |}
            else
              {| icon := Some (add "rotate-icon"
                                 (replace "fa-sun" "fa-moon" ic));
                 classes := remove "dark" (classes t);
                 label := match label t with
                          | Some _ => Some dark_label
                          | None => None
                          end |})
  end.

(** [themeToggles.forEach] from the toggle of index [i] on: the
    toggles afterwards, the timers registered, and whether the loop
    threw. *)
Fixpoint update_from (theme : string) (i : nat) (l : list Toggle)
  : list Toggle * list Timeout * bool :=
  match l with
  | [] => ([], [], false)
  | t :: l' =>
      match update_toggle theme t with
      | None => (t :: l', [], true)
      | Some t' =>
          let '(l'', tm, threw) := update_from theme (S i) l' in
          (t' :: l'', RemoveRotateIcon i :: tm, threw)
      end
  end.

Definition updateThemeIcon (theme : string) (p : Page) : Outcome :=
  let '(l, tm, threw) := update_from theme 0 (toggles p) in
  let p' := {| data_theme := data_theme p; html_classes := html_classes p;
               theme_item := theme_item p; storage_full := storage_full p;
               toggles := l; timeouts := timeouts p ++ tm |} in
  if threw then Threw TypeError p' else Done p'.

Definition toggleTheme (p : Page) : Outcome :=
  let newTheme :=
    if decide (data_theme p = Some "dark") then "light" else "dark" in
  let p1 := {| data_theme := Some newTheme;
               html_classes := add "theme-transition" (html_classes p);
               theme_item := theme_item p; storage_full := storage_full p;
               toggles := toggles p; timeouts := timeouts p |} in
  if storage_full p then Threw QuotaExceededError p1
  else
    let p2 := {| data_theme := data_theme p1;
                 html_classes := html_classes p1;
                 theme_item := Some newTheme;
                 storage_full := storage_full p1;
                 toggles := toggles p1; timeouts := timeouts p1 |} in
    match updateThemeIcon newTheme p2 with
    | Threw e p3 => Threw e p3
    | Done p3 =>
        Done {| data_theme := data_theme p3; html_classes := html_classes p3;
                theme_item := theme_item p3; storage_full := storage_full p3;
                toggles := toggles p3;
                timeouts := timeouts p3 ++ [RemoveThemeTransition] |}
    end.

(** [localStorage.getItem('theme') || 'light'] *)
Definition savedTheme (p : Page) : string :=
  match theme_item p with
  | Some (String c s) => String c s
  | Some EmptyString | None => "light"
  end.

Definition initTheme (p : Page) : Outcome :=
  updateThemeIcon (savedTheme p)
    {| data_theme := Some (savedTheme p); html_classes := html_classes p;
       theme_item := theme_item p; storage_full := storage_full p;
       toggles := toggles p; timeouts := timeouts p |}.

(** ** What a toggle displays *)

(** The toggle shows the state for [theme]: the class [dark] and the
    label follow it, and the icon does not carry the glyph of the
    other state. *)
Definition displays (theme : string) (t : Toggle) : Prop :=
  ("dark" ∈ classes t ↔ theme = "dark") ∧
  (∀ text, label t = Some text →
           text = if decide (theme = "dark") then light_label
                  else dark_label) ∧
  (∀ ic, icon t = Some ic →
         (if decide (theme = "dark") then "fa-moon" else "fa-sun") ∉ ic).

Definition sample_toggle : Toggle :=
  {| icon := Some ["fas"; "fa-moon"]; classes := ["theme-toggle"];
     label := Some dark_label |}.

Definition sample_page : Page :=
  {| data_theme := Some "light"; html_classes := [];
     theme_item := None; storage_full := false;
     toggles := [sample_toggle]; timeouts := [] |}.

(** A toggle without an [<i>] element. *)
Definition bare_toggle : Toggle :=
  {| icon := None; classes := ["theme-toggle"]; label := None |}.

Definition broken_page : Page :=
  {| data_theme := Some "dark"; html_classes := [];
     theme_item := Some "dark"; storage_full := false;
     toggles := [sample_toggle; bare_toggle]; timeouts := [] |}.

Definition full_page : Page :=
  {| data_theme := Some "light"; html_classes := [];
     theme_item := None; storage_full := true;
     toggles := [sample_toggle]; timeouts := [] |}.

End Theme.
(** * Properties *)

(** ** The persisted collection *)

Section Collection.
Implicit Types (d o : Order) (os : list Order) (x : string).

Lemma find_cons x o os :
  find x (o :: os) = if decide (id o = x) then Some o else find x os.
Proof.
  unfold find. cbn. destruct (decide (id o = x)); [done|].
  by destruct (list_find _ os) as [[??]|].
Qed.

Lemma findIndex_cons x o os :
  findIndex x (o :: os) =
  if decide (id o = x) then Some 0%nat else S <$> findIndex x os.
Proof.
  unfold findIndex. cbn. destruct (decide (id o = x)); [done|].
  by destruct (list_find _ os) as [[??]|].
Qed.

Lemma upsert_nil d : upsert d [] = [d].
Proof. done. Qed.

Lemma upsert_cons d o os :
  upsert d (o :: os) =
  if decide (id o = id d) then d :: os else o :: upsert d os.
Proof.
  unfold upsert. rewrite findIndex_cons.
  destruct (decide (id o = id d)); [done|].
  by destruct (findIndex (id d) os).
Qed.

Lemma find_upsert d os : find (id d) (upsert d os) = Some d.
Proof.
  induction os as [|o os IH].
  - rewrite upsert_nil, find_cons. by rewrite decide_True.
  - rewrite upsert_cons. destruct (decide (id o = id d)).
    + rewrite find_cons. by rewrite decide_True.
    + rewrite find_cons. by rewrite decide_False.
Qed.

Lemma find_upsert_ne x d os : x ≠ id d → find x (upsert d os) = find x os.
Proof.
  intros Hx. induction os as [|o os IH].
  - rewrite upsert_nil, find_cons. by rewrite decide_False.
  - rewrite upsert_cons. destruct (decide (id o = id d)) as [E|E].
    + rewrite !find_cons, !decide_False by congruence. done.
    + rewrite !find_cons, IH. done.
Qed.

Lemma filter_upsert_ne d os :
  filter (λ o, id o ≠ id d) (upsert d os) = filter (λ o, id o ≠ id d) os.
Proof.
  induction os as [|o os IH].
  - rewrite upsert_nil. by rewrite filter_cons_False by naive_solver.
  - rewrite upsert_cons. destruct (decide (id o = id d)) as [E|E].
    + by rewrite !filter_cons_False by naive_solver.
    + by rewrite !filter_cons_True, IH by done.
Qed.

Lemma length_upsert d os : (length os ≤ length (upsert d os))%nat.
Proof.
  induction os as [|o os IH].
  - cbn. lia.
  - rewrite upsert_cons. destruct (decide _); cbn; lia.
Qed.

Lemma lookup_upsert_ne d os i o :
  os !! i = Some o → id o ≠ id d → upsert d os !! i = Some o.
Proof.
  revert i. induction os as [|o' os IH]; intros i Hi Hne; [done|].
  rewrite upsert_cons. destruct i as [|i]; cbn in Hi.
  - injection Hi as ->. by rewrite decide_False.
  - destruct (decide _); cbn; auto.
Qed.

Lemma elem_of_upsert d os o :
  o ∈ upsert d os → o = d ∨ o ∈ os.
Proof.
  induction os as [|o' os IH].
  - rewrite upsert_nil. set_solver.
  - rewrite upsert_cons. destruct (decide _); set_solver.
Qed.

Lemma elem_of_upsert_ne d os o :
  o ∈ os → id o ≠ id d → o ∈ upsert d os.
Proof.
  intros [i Hi]%list_elem_of_lookup Hne.
  apply list_elem_of_lookup. exists i. by apply lookup_upsert_ne.
Qed.

Lemma ids_upsert d os :
  id <$> upsert d os =
  if decide (id d ∈ id <$> os) then id <$> os else (id <$> os) ++ [id d].
Proof.
  induction os as [|o os IH].
  - rewrite upsert_nil. cbn. rewrite decide_False; [done|]. set_solver.
  - rewrite upsert_cons. destruct (decide (id o = id d)) as [E|E].
    + cbn. rewrite decide_True by set_solver. by rewrite E.
    + cbn. rewrite IH. destruct (decide (id d ∈ id <$> os)).
      * by rewrite decide_True by set_solver.
      * rewrite decide_False; [done|]. set_solver.
Qed.

Lemma NoDup_ids_upsert d os :
  NoDup (id <$> os) → NoDup (id <$> upsert d os).
Proof.
  intros Hnd. rewrite ids_upsert. destruct (decide _); [done|].
  apply NoDup_app. repeat split; [done| |apply NoDup_singleton].
  set_solver.
Qed.

(** The two branches of the upsert, as the source writes them. *)
Lemma upsert_replace d os i o :
  os !! i = Some o → id o = id d →
  (∀ j o', (j < i)%nat → os !! j = Some o' → id o' ≠ id d) →
  upsert d os = <[i := d]> os.
Proof.
  intros Hi Ho Hlt. unfold upsert, findIndex.
  assert (list_find (λ o, id o = id d) os = Some (i, o)) as ->; [|done].
  apply list_find_Some. naive_solver.
Qed.

Lemma upsert_append d os :
  (∀ o, o ∈ os → id o ≠ id d) → upsert d os = os ++ [d].
Proof.
  intros Hno. unfold upsert, findIndex.
  assert (list_find (λ o, id o = id d) os = None) as ->; [|done].
  apply list_find_None, Forall_forall. done.
Qed.
End Collection.

(** ** Closed forms of the operations *)

Lemma after_bind {A B} (R : World → Prop) (m : M A) (k : A → M B) w :
  R (after (m w)) →
  (∀ a w', R w' → R (after (k a w'))) →
  R (after (bind m k w)).
Proof.
  intros Hm Hk. unfold bind. destruct (m w) as [a w'|e w']; [|done].
  by apply Hk.
Qed.

Lemma filter_all {A} (P : A → Prop) `{∀ x, Decision (P x)} (l : list A) :
  (∀ x, x ∈ l → P x) → filter P l = l.
Proof.
  induction l as [|x l IH]; intros HP; [done|].
  rewrite filter_cons_True by set_solver. f_equal. apply IH. set_solver.
Qed.

Lemma filter_none {A} (P : A → Prop) `{∀ x, Decision (P x)} (l : list A) :
  (∀ x, x ∈ l → ¬ P x) → filter P l = [].
Proof.
  induction l as [|x l IH]; intros HP; [done|].
  rewrite filter_cons_False by set_solver. apply IH. set_solver.
Qed.

Lemma saveOrderStatus_eq orderId st ts w :
  saveOrderStatus orderId st ts w =
  match stored (slot w) with
  | None => Thrown SyntaxError (read w)
  | Some orders =>
      let d := order orderId st ts (clock w) in
      if quota w (upsert d orders) then Returned tt (saved d orders w)
      else Thrown QuotaExceededError (read w)
  end.
Proof.
  destruct w as [c sl q p cur hs ts' nt sh tr]. unfold upsert, order.
  cbn [id].
  destruct sl; run_world; try reflexivity;
    match goal with |- context [q ?v] => destruct (q v) end;
    run_world; rewrite <- ?(assoc_L (++)); reflexivity.
Qed.

Lemma getOrderStatus_eq orderId w :
  getOrderStatus orderId w =
  match stored (slot w) with
  | None => Thrown SyntaxError (read w)
  | Some orders => Returned (find orderId orders) (read w)
  end.
Proof.
  destruct w as [c sl q p cur hs ts' nt sh tr].
  destruct sl; run_world; reflexivity.
Qed.

Lemma checkExistingOrders_eq w :
  checkExistingOrders w =
  match stored (slot w) with
  | None => Thrown SyntaxError (read w)
  | Some orders =>
      match sort (λ a b, timestamp b - timestamp a)
                 (filter (is_active (clock w)) orders) with
      | latestOrder :: _ => resume (clock w) latestOrder (read w)
      | [] => Returned tt (read w)
      end
  end.
Proof.
  destruct w as [c sl q p cur hs ts' nt sh tr]. unfold checkExistingOrders.
  destruct sl; run_world; try reflexivity;
    match goal with |- context [sort ?f ?l] => destruct (sort f l) end;
    reflexivity.
Qed.

Lemma forEach_clearTimeout l w :
  forEach l clearTimeout w =
  Returned tt (set_timers (filter (λ t, tid t ∉ l) (timers w)) w).
Proof.
  revert w. induction l as [|i l IH]; intros w.
  - destruct w as [c sl q p cur hs ts' nt sh tr]. run_world. cbn [forEach].
    run_world. do 2 f_equal. symmetry. apply filter_all. set_solver.
  - cbn [forEach]. unfold bind at 1, clearTimeout at 1, modify at 1.
    rewrite IH. destruct w as [c sl q p cur hs ts' nt sh tr]. run_world.
    do 2 f_equal. rewrite list_filter_filter. apply list_filter_iff.
    set_solver.
Qed.


(** The three ways [startOrderTracking] can end. *)
Lemma startOrderTracking_cases orderId w :
  startOrderTracking orderId w =
  match stored (slot w) with
  | None => Thrown SyntaxError (read (entered orderId w))
  | Some orders =>
      if quota w (upsert (order orderId ORDER_STATUSES.PLACED (clock w)
                            (clock w)) orders)
      then Returned tt (started orderId orders w)
      else Thrown QuotaExceededError (read (entered orderId w))
  end.
Proof.
  unfold startOrderTracking.
  unfold bind at 1 2 3 4 5, modify at 1 2 3, Date_now, gets.
  rewrite forEach_clearTimeout.
  destruct w as [c sl q p cur hs ts' nt sh tr].
  unfold upsert, order, ladder. cbn [id].
  destruct sl as [| |orders|]; run_world; try reflexivity;
    (match goal with |- context [q ?v] => destruct (q v) end;
     [|reflexivity]); run_world;
    (destruct (decide (p = Granted)) as [->|Hp];
     [|rewrite !bool_decide_eq_false_2 by done]);
    cbn [bool_decide decide_rel Permission_eq_dec]; run_world;
    rewrite <- ?(assoc_L (++)); rewrite ?app_nil_r; reflexivity.
Qed.

Lemma fire_close t n w :
  callback t = CloseNotification n → fire t w = dequeued t w.
Proof.
  intros E. unfold fire. rewrite E.
  destruct w as [c sl q p cur hs ts' nt sh tr]. run_world. by rewrite E.
Qed.

(** The three ways a transition timer can fire. *)
Lemma fire_step t orderId s w :
  callback t = Advance orderId s →
  fire t w =
  match stored (slot w) with
  | None => stumbled t SyntaxError w
  | Some orders =>
      let now := Z.max (clock w) (due t) in
      if quota w (upsert (order orderId (step_status s) now now) orders)
      then advanced t orderId s orders w
      else stumbled t QuotaExceededError w
  end.
Proof.
  intros E. unfold fire. rewrite E.
  destruct w as [c sl q p cur hs ts' nt sh tr]. unfold upsert, order.
  cbn [id].
  destruct sl as [| |orders|]; run_world;
    rewrite <- ?(assoc_L (++)), ?E; try reflexivity;
    (match goal with |- context [q ?v] => destruct (q v) end;
     run_world; rewrite <- ?(assoc_L (++)), ?E; [|reflexivity]);
    (destruct (decide (p = Granted)) as [->|Hp];
     [|rewrite !bool_decide_eq_false_2 by done]);
    cbn [bool_decide decide_rel Permission_eq_dec]; run_world;
    rewrite <- ?(assoc_L (++)); rewrite ?app_nil_r; reflexivity.
Qed.

(** ** [saveOrderStatus], [getOrderStatus] and storage failures *)

(** C7: [saveOrderStatus] replaces the first record with that id, found
    by a linear scan, or appends a new record when there is none; the
    record written carries the caller's [timestamp] unchanged and the
    clock at write time as [lastUpdate]. *)
Theorem saveOrderStatus_upsert w orderId st ts orders :
  stored (slot w) = Some orders →
  unlimited w →
  let orderData :=
    {| id := orderId; status := st; timestamp := ts;
       lastUpdate := clock w |} in
  ∃ w' orders',
    saveOrderStatus orderId st ts w = Returned tt w' ∧
    slot w' = Json orders' ∧
    (∀ i o, orders !! i = Some o → id o = orderId →
       (∀ j o', (j < i)%nat → orders !! j = Some o' → id o' ≠ orderId) →
       orders' = <[i := orderData]> orders ∧ orders' !! i = Some orderData) ∧
    ((∀ o, o ∈ orders → id o ≠ orderId) → orders' = orders ++ [orderData]).
Proof.
  intros Hs Hq d. exists (saved d orders w), (upsert d orders).
  rewrite saveOrderStatus_eq, Hs. cbv zeta. fold d. rewrite Hq.
  split; [done|]. split; [done|]. split.
  - intros i o Hi Ho Hfirst.
    rewrite (upsert_replace d orders i o) by done. split; [done|].
    apply list_lookup_insert_eq. by eapply lookup_lt_Some.
  - apply (upsert_append d orders).
Qed.

Lemma saveOrderStatus_upsert_witness :
  ∃ w' orders',
    saveOrderStatus "A7" ORDER_STATUSES.READY 1234 sample_world
      = Returned tt w' ∧
    slot w' = Json orders' ∧
    orders' !! 1%nat = Some {| id := "A7"; status := ORDER_STATUSES.READY;
                               timestamp := 1234; lastUpdate := 1000000 |}.
Proof.
  destruct (saveOrderStatus_upsert sample_world "A7" ORDER_STATUSES.READY 1234
              [other_order; sample_order] eq_refl (λ _, eq_refl))
    as (w' & orders' & Hrun & Hslot & Hrepl & _).
  exists w', orders'. split; [exact Hrun|]. split; [exact Hslot|].
  refine (proj2 (Hrepl 1%nat sample_order eq_refl eq_refl _)).
  intros [|j] o' Hj Ho'; [|lia].
  injection Ho' as <-. discriminate.
Defined.

(** C9: [saveOrderStatus] leaves every record with another id as it
    was and where it was: the records with other ids form the same
    sequence before and after, each stays at its index, and the
    collection never shrinks.  This holds whether the write is accepted
    or refused. *)
Theorem saveOrderStatus_frame w orderId st ts orders :
  stored (slot w) = Some orders →
  ∃ orders',
    stored (slot (after (saveOrderStatus orderId st ts w))) = Some orders' ∧
    filter (λ o, id o ≠ orderId) orders' = filter (λ o, id o ≠ orderId) orders ∧
    (∀ i o, orders !! i = Some o → id o ≠ orderId → orders' !! i = Some o) ∧
    (length orders ≤ length orders')%nat ∧
    (∀ x, x ≠ orderId → find x orders' = find x orders).
Proof.
  intros Hs. rewrite saveOrderStatus_eq, Hs. cbv zeta.
  set (d := order orderId st ts (clock w)).
  destruct (quota w (upsert d orders)).
  - exists (upsert d orders). split; [done|]. split; [|split; [|split]].
    + apply (filter_upsert_ne d).
    + intros i o. apply (lookup_upsert_ne d).
    + apply length_upsert.
    + intros x. apply (find_upsert_ne x d).
  - exists orders. split; [exact Hs|]. done.
Qed.

Lemma saveOrderStatus_frame_witness :
  ∃ orders',
    stored (slot (after (saveOrderStatus "A7" ORDER_STATUSES.READY 1234
                           sample_world))) = Some orders' ∧
    orders' !! 0%nat = Some other_order.
Proof.
  destruct (saveOrderStatus_frame sample_world "A7" ORDER_STATUSES.READY 1234
              [other_order; sample_order] eq_refl)
    as (orders' & Hs & _ & Hkeep & _).
  exists orders'. split; [exact Hs|].
  apply Hkeep; [reflexivity|discriminate].
Defined.

(** C10: with the storage key absent every read works on the empty
    array.  [getOrderStatus] returns undefined for every id;
    [checkExistingOrders] returns having done nothing but the one read
    (no tracking, no write, no notification); and an accepted
    [saveOrderStatus] leaves a collection of exactly one record. *)
Theorem absent_key_reads_empty w :
  slot w = NoItem →
  (∀ orderId, getOrderStatus orderId w = Returned None (read w)) ∧
  checkExistingOrders w = Returned tt (read w) ∧
  (∀ orderId st ts,
     let orderData :=
       {| id := orderId; status := st; timestamp := ts;
          lastUpdate := clock w |} in
     quota w [orderData] = true →
     ∃ w', saveOrderStatus orderId st ts w = Returned tt w' ∧
           slot w' = Json [orderData]).
Proof.
  intros Hs. split; [|split].
  - intros orderId. by rewrite getOrderStatus_eq, Hs.
  - by rewrite checkExistingOrders_eq, Hs.
  - intros orderId st ts d Hq. rewrite saveOrderStatus_eq, Hs.
    cbv zeta iota beta delta [stored].
    change (upsert (order orderId st ts (clock w)) []) with [d].
    rewrite Hq. by eexists.
Qed.

Lemma absent_key_reads_empty_witness :
  getOrderStatus "A7" blank_world = Returned None (read blank_world) ∧
  checkExistingOrders blank_world = Returned tt (read blank_world).
Proof.
  destruct (absent_key_reads_empty blank_world eq_refl) as (Hget & Hres & _).
  split; [exact (Hget "A7")|exact Hres].
Defined.




(** C5: when storage can be read and accepts the write,
    [startOrderTracking orderId] returns, and a [getOrderStatus orderId]
    right after it returns the record of that id with status
    'Order Placed' and the start time as [timestamp].  No condition on
    [orderId] is needed, so this holds for every non-empty id. *)
Theorem placed_after_start w orderId orders :
  stored (slot w) = Some orders →
  unlimited w →
  ∃ w1 r,
    startOrderTracking orderId w = Returned tt w1 ∧
    getOrderStatus orderId w1 = Returned (Some r) (read w1) ∧
    id r = orderId ∧
    status r = ORDER_STATUSES.PLACED ∧
    timestamp r = clock w.
Proof.
  intros Hs Hq. rewrite startOrderTracking_cases, Hs, Hq.
  set (d := order orderId ORDER_STATUSES.PLACED (clock w) (clock w)).
  exists (started orderId orders w), d. split; [done|].
  rewrite getOrderStatus_eq.
  change (slot (started orderId orders w)) with (Json (upsert d orders)).
  cbn [stored]. change orderId with (id d) at 1. by rewrite find_upsert.
Qed.

Lemma placed_after_start_witness :
  ∃ w1 r,
    startOrderTracking "A7" sample_world = Returned tt w1 ∧
    getOrderStatus "A7" w1 = Returned (Some r) (read w1) ∧
    id r = "A7" ∧
    status r = ORDER_STATUSES.PLACED ∧
    timestamp r = 1000000.
Proof.
  exact (placed_after_start sample_world "A7" [other_order; sample_order]
           eq_refl (λ _, eq_refl)).
Defined.

(** ** The event loop *)

Lemma earliest_elem t l : earliest t l ∈ t :: l.
Proof.
  revert t. induction l as [|t' l IH]; intros t; cbn; [set_solver|].
  specialize (IH (if decide (due t' < due t) then t' else t)).
  destruct (decide _); set_solver.
Qed.

Lemma earliest_le_head t l : due (earliest t l) ≤ due t.
Proof.
  revert t. induction l as [|t1 l IH]; intros t; cbn; [lia|].
  destruct (decide (due t1 < due t)); [|done].
  specialize (IH t1). lia.
Qed.

Lemma earliest_le t l t' : t' ∈ t :: l → due (earliest t l) ≤ due t'.
Proof.
  intros [->|Hin]%elem_of_cons; [apply earliest_le_head|].
  revert t. induction l as [|t1 l IH]; intros t; [by apply elem_of_nil in Hin|].
  cbn. apply elem_of_cons in Hin as [->|Hin]; [|by apply IH].
  pose proof (earliest_le_head (if decide (due t1 < due t) then t1 else t) l).
  destruct (decide (due t1 < due t)); lia.
Qed.

Lemma next_timer_Some w t :
  next_timer w = Some t →
  t ∈ timers w ∧ ∀ t', t' ∈ timers w → due t ≤ due t'.
Proof.
  unfold next_timer. destruct (timers w) as [|t0 l]; [done|].
  intros [= <-]. split; [apply earliest_elem|apply earliest_le].
Qed.

Lemma next_timer_None w : next_timer w = None → timers w = [].
Proof. unfold next_timer. by destruct (timers w). Qed.

(** Every firing makes the queue lighter, so the fuel of [elapse] is
    never used up. *)
Lemma weight_app l k : weight (l ++ k) = (weight l + weight k)%nat.
Proof.
  induction l as [|t l IH]; [done|]. cbn. rewrite IH. lia.
Qed.

Lemma weight_remove t l :
  t ∈ l →
  (weight (filter (λ t', tid t' ≠ tid t) l) + callback_weight (callback t)
   ≤ weight l)%nat.
Proof.
  assert (∀ k, (weight (filter (λ t', tid t' ≠ tid t) k) ≤ weight k)%nat)
    as Hle.
  { induction k as [|t' k IH]; [done|]. rewrite filter_cons.
    destruct (decide _); cbn; lia. }
  induction l as [|t' l IH]; [by intros ?%elem_of_nil|].
  intros [->|Hin]%elem_of_cons.
  - rewrite filter_cons_False by naive_solver. specialize (Hle l).
    cbn. lia.
  - specialize (IH Hin). rewrite filter_cons.
    destruct (decide _); cbn; lia.
Qed.

(** The queue after a firing: the timer is gone, and at most one
    auto-close timer is new, which only a transition can add. *)
Lemma fire_timers t w :
  ∃ extra,
    timers (fire t w) = filter (λ t', tid t' ≠ tid t) (timers w) ++ extra ∧
    (extra = [] ∨
     is_step t ∧
     extra = [ {| tid := nextTimer w; due := Z.max (clock w) (due t) + 5000;
                  callback := CloseNotification (shown w) |} ]).
Proof.
  destruct (callback t) as [orderId s|n] eqn:E.
  - rewrite (fire_step t orderId s) by done. cbv zeta.
    destruct (stored (slot w)) as [orders|];
      [|exists []; split; [by rewrite app_nil_r|by left]].
    destruct (quota w _);
      [|exists []; split; [by rewrite app_nil_r|by left]].
    cbn [advanced timers]. eexists. split; [done|].
    destruct (bool_decide _); [right|by left].
    split; [|done]. unfold is_step. by rewrite E.
  - rewrite (fire_close t n) by done.
    exists []. split; [by rewrite app_nil_r|by left].
Qed.

Lemma fire_lighter t w :
  t ∈ timers w → (weight (timers (fire t w)) < weight (timers w))%nat.
Proof.
  intros Hin. destruct (fire_timers t w) as (extra & -> & Hextra).
  rewrite weight_app. pose proof (weight_remove t _ Hin) as Hrm.
  destruct Hextra as [->|(Hstep & ->)].
  - cbn. destruct (callback t); cbn in Hrm; lia.
  - unfold is_step in Hstep. destruct (callback t); [|done]. cbn in *. lia.
Qed.

(** Invariants of the loop. *)
Lemma run_until_ind (R : World → Prop) T :
  (∀ w t, R w → next_timer w = Some t → due t ≤ T → R (fire t w)) →
  (∀ w, R w → (∀ t, t ∈ timers w → T < due t) → R (idle T w)) →
  ∀ n w, (weight (timers w) < n)%nat → R w → R (run_until n T w).
Proof.
  intros Hfire Hidle n. induction n as [|n IH]; intros w Hn Hw; [lia|].
  cbn [run_until]. destruct (next_timer w) as [t|] eqn:E.
  - pose proof (next_timer_Some w t E) as [Hin Hmin].
    destruct (decide (due t <= T)).
    + apply IH; [|by eapply Hfire].
      pose proof (fire_lighter t w Hin). lia.
    + apply Hidle; [done|]. intros t' Ht'. specialize (Hmin t' Ht'). lia.
  - apply Hidle; [done|]. apply next_timer_None in E. rewrite E.
    by intros ? ?%elem_of_nil.
Qed.

Lemma elapse_ind (R : World → Prop) T w :
  (∀ w t, R w → next_timer w = Some t → due t ≤ T → R (fire t w)) →
  (∀ w, R w → (∀ t, t ∈ timers w → T < due t) → R (idle T w)) →
  R w → R (elapse T w).
Proof. intros Hfire Hidle. apply run_until_ind; [done|done|lia]. Qed.

(** After [elapse T] no pending timer is due by [T], and the clock has
    reached [T]: the loop ran to its end. *)
Lemma run_until_settled T n w :
  (weight (timers w) < n)%nat →
  (∀ t, t ∈ timers (run_until n T w) → T < due t) ∧
  T ≤ clock (run_until n T w).
Proof.
  revert w. induction n as [|n IH]; intros w Hn; [lia|].
  cbn [run_until]. destruct (next_timer w) as [t|] eqn:E.
  - apply next_timer_Some in E as [Hin Hmin].
    destruct (decide (due t <= T)).
    + apply IH. pose proof (fire_lighter t w Hin). lia.
    + split; [|cbn; lia]. intros t' Ht'. cbn in Ht'.
      specialize (Hmin t' Ht'). lia.
  - apply next_timer_None in E. split; [|cbn; lia].
    cbn. rewrite E. by intros ? ?%elem_of_nil.
Qed.

Lemma elapse_settled T w :
  (∀ t, t ∈ timers (elapse T w) → T < due t) ∧ T ≤ clock (elapse T w).
Proof. apply run_until_settled. lia. Qed.

(** ** Well-formed states *)

Lemma wf_page_load now s q p : wf (page_load now s q p).
Proof.
  unfold wf, wf_parts. cbn. repeat split; try by intros ? ?%elem_of_nil.
  apply NoDup_nil_2.
Qed.

Lemma wf_parts_add now pending next handles d cb :
  wf_parts now pending next handles →
  now ≤ d →
  wf_parts now (pending ++ [ {| tid := next; due := d; callback := cb |} ])
           (S next)
           (match cb with
            | Advance _ _ => handles ++ [next]
            | CloseNotification _ => handles
            end).
Proof.
  intros (Hdue & Hlt & Hnd & Hst) Hd. repeat split.
  - intros t [Ht| ->%list_elem_of_singleton]%elem_of_app; [auto|done].
  - intros t [Ht| ->%list_elem_of_singleton]%elem_of_app; cbn; [|lia].
    specialize (Hlt t Ht). lia.
  - rewrite fmap_app. apply NoDup_app.
    repeat split; [done| |apply NoDup_singleton].
    intros i (t & -> & Ht)%list_elem_of_fmap Hi%list_elem_of_singleton.
    cbn in Hi. specialize (Hlt t Ht). lia.
  - intros t [Ht| ->%list_elem_of_singleton]%elem_of_app Hs.
    + specialize (Hst t Ht Hs). destruct cb; set_solver.
    + unfold is_step in Hs. cbn in *. destruct cb; set_solver.
Qed.

Lemma NoDup_tid_filter (P : Timer → Prop) `{∀ t, Decision (P t)} l :
  NoDup (tid <$> l) → NoDup (tid <$> filter P l).
Proof.
  induction l as [|t l IH]; [done|].
  rewrite fmap_cons. intros [Hnot Hnd]%NoDup_cons.
  rewrite filter_cons. destruct (decide _); [|auto].
  rewrite fmap_cons. apply NoDup_cons. split; [|auto].
  intros (t' & E & [_ Ht']%list_elem_of_filter)%list_elem_of_fmap.
  apply Hnot, list_elem_of_fmap. eauto.
Qed.

Lemma wf_parts_clear now pending next handles :
  wf_parts now pending next handles →
  wf_parts now (filter (λ t, tid t ∉ handles) pending) next [].
Proof.
  intros (Hdue & Hlt & Hnd & Hst). repeat split.
  - intros t [_ Ht]%list_elem_of_filter. auto.
  - intros t [_ Ht]%list_elem_of_filter. auto.
  - by apply NoDup_tid_filter.
  - intros t [Hout Ht]%list_elem_of_filter Hs. by specialize (Hst t Ht Hs).
Qed.

Lemma wf_parts_remove now pending next handles t :
  wf_parts now pending next handles →
  t ∈ pending →
  (∀ t', t' ∈ pending → due t ≤ due t') →
  wf_parts (Z.max now (due t)) (filter (λ t', tid t' ≠ tid t) pending)
           next handles.
Proof.
  intros (Hdue & Hlt & Hnd & Hst) Hin Hmin. repeat split.
  - intros t' [_ Ht']%list_elem_of_filter.
    specialize (Hdue t' Ht'). specialize (Hmin t' Ht'). lia.
  - intros t' [_ Ht']%list_elem_of_filter. auto.
  - by apply NoDup_tid_filter.
  - intros t' [_ Ht']%list_elem_of_filter Hs. auto.
Qed.

Lemma wf_parts_idle now pending next handles T :
  wf_parts now pending next handles →
  (∀ t, t ∈ pending → T < due t) →
  wf_parts (Z.max now T) pending next handles.
Proof.
  intros (Hdue & Hlt & Hnd & Hst) Hlate. repeat split; try done.
  intros t Ht. specialize (Hdue t Ht). specialize (Hlate t Ht). lia.
Qed.

(** Adding what [showOrderNotification] adds. *)
Lemma wf_parts_notice now pending next handles (granted : bool) n d :
  wf_parts now pending next handles →
  now ≤ d →
  wf_parts now
    (pending ++ (if granted
                 then [ {| tid := next; due := d;
                           callback := CloseNotification n |} ]
                 else []))
    (if granted then S next else next) handles.
Proof.
  intros Hw Hd. destruct granted; [|by rewrite app_nil_r].
  by apply (wf_parts_add _ _ _ _ d (CloseNotification n)) in Hw.
Qed.

Lemma wf_started orderId orders w : wf w → wf (started orderId orders w).
Proof.
  intros Hw%wf_parts_clear.
  apply (wf_parts_notice _ _ _ _ (bool_decide (permission w = Granted))
           (shown w) (clock w + 5000)) in Hw; [|lia].
  unfold wf, started, ladder, closer, handle_after_notice.
  cbn [clock timers nextTimer orderStatusTimeouts].
  set (k := if bool_decide (permission w = Granted)
            then S (nextTimer w) else nextTimer w) in *.
  apply (wf_parts_add _ _ _ _ (clock w + ORDER_TIMINGS.PREPARING)
           (Advance orderId ToPreparing)) in Hw; [|timings; lia].
  apply (wf_parts_add _ _ _ _ (clock w + ORDER_TIMINGS.READY)
           (Advance orderId ToReady)) in Hw; [|timings; lia].
  apply (wf_parts_add _ _ _ _ (clock w + ORDER_TIMINGS.ON_WAY)
           (Advance orderId ToOnWay)) in Hw; [|timings; lia].
  apply (wf_parts_add _ _ _ _ (clock w + ORDER_TIMINGS.DELIVERED)
           (Advance orderId ToDelivered)) in Hw; [|timings; lia].
  rewrite <- !(assoc_L (++)) in Hw. rewrite <- !(assoc_L (++)). exact Hw.
Qed.

Lemma wf_startOrderTracking orderId w :
  wf w → wf (after (startOrderTracking orderId w)).
Proof.
  intros Hw. rewrite startOrderTracking_cases.
  destruct (stored (slot w)) as [orders|];
    [|by apply wf_parts_clear in Hw].
  destruct (quota w _); [|by apply wf_parts_clear in Hw].
  by apply wf_started.
Qed.

Lemma wf_fire t w : wf w → next_timer w = Some t → wf (fire t w).
Proof.
  intros Hw [Hin Hmin]%next_timer_Some.
  apply (wf_parts_remove _ _ _ _ t) in Hw; [|done..].
  destruct (callback t) as [orderId s|n] eqn:E.
  - rewrite (fire_step t orderId s) by done. cbv zeta.
    destruct (stored (slot w)) as [orders|]; [|done].
    destruct (quota w _); [|done].
    apply (wf_parts_notice _ _ _ _ (bool_decide (permission w = Granted))
             (shown w) (Z.max (clock w) (due t) + 5000)) in Hw; [done|lia].
  - by rewrite (fire_close t n).
Qed.

Lemma wf_elapse T w : wf w → wf (elapse T w).
Proof.
  apply elapse_ind.
  - intros w' t Hw' Ht _. by apply wf_fire.
  - intros w' Hw' Hlate. by apply wf_parts_idle.
Qed.

Lemma wf_saveOrderStatus orderId st ts w :
  wf w → wf (after (saveOrderStatus orderId st ts w)).
Proof.
  intros Hw. rewrite saveOrderStatus_eq.
  destruct (stored (slot w)); [|done]. cbv zeta. by destruct (quota w _).
Qed.

Lemma wf_checkExistingOrders w : wf w → wf (after (checkExistingOrders w)).
Proof.
  intros Hw. rewrite checkExistingOrders_eq.
  destruct (stored (slot w)); [|done].
  destruct (sort _ _) as [|latestOrder ?]; [done|].
  assert (wf (read w)) as Hr by done. revert Hr. generalize (read w).
  intros w' Hw'. unfold resume.
  repeat (destruct (decide _);
          [first [ by apply wf_startOrderTracking
                 | apply (after_bind wf);
                   [by apply wf_saveOrderStatus
                   |intros _ w''; apply wf_startOrderTracking] ] |]).
  done.
Qed.

Lemma wf_perform op w : wf w → wf (perform op w).
Proof.
  intros Hw. destruct op as [orderId|orderId st ts|orderId| |T]; cbn [perform].
  - by apply wf_startOrderTracking.
  - by apply wf_saveOrderStatus.
  - rewrite getOrderStatus_eq. by destruct (stored (slot w)).
  - by apply wf_checkExistingOrders.
  - by apply wf_elapse.
Qed.

(** Every state the page reaches from a fresh load is well formed. *)
Lemma wf_reachable ops now s q p :
  wf (perform_all ops (page_load now s q p)).
Proof.
  generalize (wf_page_load now s q p). generalize (page_load now s q p).
  induction ops as [|op ops IH]; intros w Hw; [done|].
  cbn [perform_all foldl]. apply IH. by apply wf_perform.
Qed.

(** ** The collection keeps one record per id *)

Lemma distinct_ids_stored s orders :
  distinct_ids s → stored s = Some orders → NoDup (id <$> orders).
Proof.
  destruct s; cbn; intros Hd [= <-]; try done; apply NoDup_nil_2.
Qed.

Lemma distinct_saveOrderStatus orderId st ts w :
  distinct_ids (slot w) →
  distinct_ids (slot (after (saveOrderStatus orderId st ts w))).
Proof.
  intros Hd. rewrite saveOrderStatus_eq.
  destruct (stored (slot w)) as [orders|] eqn:Hs; [|done]. cbv zeta.
  destruct (quota w _); [|done].
  apply NoDup_ids_upsert. by apply (distinct_ids_stored (slot w)).
Qed.

Lemma distinct_startOrderTracking orderId w :
  distinct_ids (slot w) →
  distinct_ids (slot (after (startOrderTracking orderId w))).
Proof.
  intros Hd. rewrite startOrderTracking_cases.
  destruct (stored (slot w)) as [orders|] eqn:Hs; [|done].
  destruct (quota w _); [|done].
  apply NoDup_ids_upsert. by apply (distinct_ids_stored (slot w)).
Qed.

Lemma distinct_resume now latestOrder w :
  distinct_ids (slot w) →
  distinct_ids (slot (after (resume now latestOrder w))).
Proof.
  intros Hd. unfold resume.
  repeat (destruct (decide _);
          [first [ by apply distinct_startOrderTracking
                 | apply (after_bind (λ w, distinct_ids (slot w)));
                   [by apply distinct_saveOrderStatus
                   |intros _ w'; apply distinct_startOrderTracking] ] |]).
  done.
Qed.

Lemma distinct_checkExistingOrders w :
  distinct_ids (slot w) →
  distinct_ids (slot (after (checkExistingOrders w))).
Proof.
  intros Hd. rewrite checkExistingOrders_eq.
  destruct (stored (slot w)) as [orders|]; [|done].
  destruct (sort _ _) as [|latestOrder ?]; [done|].
  by apply distinct_resume.
Qed.

Lemma distinct_fire t w :
  distinct_ids (slot w) → distinct_ids (slot (fire t w)).
Proof.
  intros Hd. destruct (callback t) as [orderId s|n] eqn:E.
  - rewrite (fire_step t orderId s) by done. cbv zeta.
    destruct (stored (slot w)) as [orders|] eqn:Hs; [|done].
    destruct (quota w _); [|done].
    apply NoDup_ids_upsert. by apply (distinct_ids_stored (slot w)).
  - by rewrite (fire_close t n).
Qed.

Lemma distinct_perform op w :
  distinct_ids (slot w) → distinct_ids (slot (perform op w)).
Proof.
  intros Hd. destruct op as [orderId|orderId st ts|orderId| |T]; cbn [perform].
  - by apply distinct_startOrderTracking.
  - by apply distinct_saveOrderStatus.
  - rewrite getOrderStatus_eq. by destruct (stored (slot w)).
  - by apply distinct_checkExistingOrders.
  - apply (elapse_ind (λ w, distinct_ids (slot w))); [|done..].
    intros w' t Hw' _ _. by apply distinct_fire.
Qed.

(** C3: starting from a collection with pairwise distinct ids, any
    sequence of start tracking, persist status, get status and resume
    on load, with any amount of time (and so any scheduled transition)
    in between, leaves a collection with pairwise distinct ids. *)
Theorem ids_stay_distinct ops w :
  distinct_ids (slot w) → distinct_ids (slot (perform_all ops w)).
Proof.
  revert w. induction ops as [|op ops IH]; intros w Hd; [done|].
  cbn [perform_all foldl]. apply IH. by apply distinct_perform.
Qed.

Lemma ids_stay_distinct_witness :
  distinct_ids
    (slot (perform_all
             [StartTracking "A7"; Wait 1012000; ResumeOnLoad;
              PersistStatus "B2" ORDER_STATUSES.READY 5; GetStatus "A7";
              Wait 2000000]
             sample_world)).
Proof.
  apply ids_stay_distinct. change (NoDup ["B2"; "A7"]).
  apply (bool_decide_unpack _). vm_compute. exact I.
Defined.

(** ** What [checkExistingOrders] leaves alone *)

Lemma length_app (x s : string) :
  String.length (x +:+ s) = (String.length x + String.length s)%nat.
Proof.
  induction x as [|a x IH]; [done|].
  change (String a x +:+ s) with (String a (x +:+ s)).
  cbn [String.length]. by rewrite IH.
Qed.

Lemma app_inj_r (s x y : string) : x +:+ s = y +:+ s → x = y.
Proof.
  assert (∀ a z, s ≠ String a (z +:+ s)) as Hne.
  { intros a z E. apply (f_equal String.length) in E.
    cbn [String.length] in E. rewrite length_app in E. lia. }
  revert y. induction x as [|a x IH]; intros [|b y] E.
  - done.
  - by apply Hne in E.
  - symmetry in E. by apply Hne in E.
  - change (String a (x +:+ s) = String b (y +:+ s)) in E.
    injection E as -> E. f_equal. by apply IH.
Qed.

Lemma placed_body_inj x y : placed_body x = placed_body y → x = y.
Proof.
  unfold placed_body. intros E%(inj (String.app _)). by apply app_inj_r in E.
Qed.

Lemma step_body_inj s x y : step_body s x = step_body s y → x = y.
Proof.
  destruct s; unfold step_body; intros E%(inj (String.app _));
    by apply app_inj_r in E.
Qed.

Lemma step_title_inj s s' : step_title s = step_title s' → s = s'.
Proof. destruct s, s'; done. Qed.

Lemma step_title_placed s : step_title s ≠ placed_title.
Proof. by destruct s. Qed.

Lemma concerns_notice_placed x y icon e :
  e ∈ notice placed_title (placed_body x) icon y → ∀ z, concerns z e → z = x.
Proof.
  unfold notice. destruct (bool_decide _); [|by intros ?%elem_of_nil].
  intros ->%list_elem_of_singleton z [[_ E]|(s & E & _)].
  - by apply placed_body_inj in E.
  - symmetry in E. by apply step_title_placed in E.
Qed.

Lemma concerns_notice_step s x y icon e :
  e ∈ notice (step_title s) (step_body s x) icon y →
  ∀ z, concerns z e → z = x.
Proof.
  unfold notice. destruct (bool_decide _); [|by intros ?%elem_of_nil].
  intros ->%list_elem_of_singleton z [[E _]|(s' & ->%step_title_inj & E)].
  - by apply step_title_placed in E.
  - symmetry. by apply step_body_inj in E.
Qed.

Lemma only_for_trans x w1 w2 w3 :
  only_for x w1 w2 → only_for x w2 w3 → only_for x w1 w3.
Proof.
  intros ((ev1 & E1 & H1) & T1 & S1) ((ev2 & E2 & H2) & T2 & S2).
  split; [|split].
  - exists (ev1 ++ ev2). split.
    + by rewrite E2, E1, (assoc_L (++)).
    + intros e y [?|?]%elem_of_app; eauto.
  - intros t y s Ht Hcb. destruct (T2 t y s Ht Hcb) as [?|Ht2]; eauto.
  - intros orders Hs. destruct (S1 orders Hs) as (o2 & Hs2 & Hk2).
    destruct (S2 o2 Hs2) as (o3 & Hs3 & Hk3). eauto.
Qed.

Lemma only_for_read x w : only_for x w (read w).
Proof.
  split; [|split].
  - exists [GetItem]. split; [done|].
    by intros e y ->%list_elem_of_singleton.
  - intros t y s Ht _. by right.
  - intros orders Hs. eauto.
Qed.

Lemma only_for_saveOrderStatus x st ts w :
  only_for x w (after (saveOrderStatus x st ts w)).
Proof.
  rewrite saveOrderStatus_eq.
  destruct (stored (slot w)) as [orders|] eqn:Hs; [|apply only_for_read].
  cbv zeta. destruct (quota w _); [|apply only_for_read].
  set (d := order x st ts (clock w)). split; [|split].
  - eexists. split; [done|].
    intros e y He Hc. repeat apply elem_of_cons in He as [->|He];
      try done. by apply elem_of_nil in He.
  - intros t y s Ht _. by right.
  - intros orders' Hs'. rewrite Hs in Hs'. injection Hs' as <-.
    exists (upsert d orders). split; [done|].
    intros o Ho Hne. by apply elem_of_upsert_ne.
Qed.

Lemma only_for_entered x w : only_for x w (read (entered x w)).
Proof.
  split; [|split].
  - exists [Tracking x; GetItem]. split.
    + cbn [read entered trace]. by rewrite <- (assoc_L (++)).
    + intros e y He Hc. repeat apply elem_of_cons in He as [->|He];
        try done. by apply elem_of_nil in He.
  - intros t y s [_ Ht]%list_elem_of_filter _. by right.
  - intros orders Hs. eauto.
Qed.

Lemma only_for_startOrderTracking x w :
  only_for x w (after (startOrderTracking x w)).
Proof.
  rewrite startOrderTracking_cases.
  destruct (stored (slot w)) as [orders|] eqn:Hs; [|apply only_for_entered].
  destruct (quota w _); [|apply only_for_entered].
  set (d := order x ORDER_STATUSES.PLACED (clock w) (clock w)).
  split; [|split].
  - eexists. split; [cbn [after started trace]; by rewrite <- (assoc_L (++))|].
    intros e y [He|He]%elem_of_app Hc.
    + repeat apply elem_of_cons in He as [->|He]; try done.
      by apply elem_of_nil in He.
    + by eapply concerns_notice_placed.
  - intros t y s Ht Hcb. cbn [after started timers] in Ht.
    apply elem_of_app in Ht as [[Ht|Ht]%elem_of_app|Ht].
    + apply list_elem_of_filter in Ht as [_ Ht]. by right.
    + unfold closer in Ht. destruct (bool_decide _);
        [|by apply elem_of_nil in Ht].
      apply list_elem_of_singleton in Ht as ->. done.
    + left. unfold ladder in Ht.
      repeat apply elem_of_cons in Ht as [->|Ht];
        try (by injection Hcb as -> _). by apply elem_of_nil in Ht.
  - intros orders' Hs'. rewrite Hs in Hs'. injection Hs' as <-.
    exists (upsert d orders). split; [done|].
    intros o Ho Hne. by apply elem_of_upsert_ne.
Qed.

Lemma only_for_resume now latestOrder w :
  only_for (id latestOrder) w (after (resume now latestOrder w)).
Proof.
  unfold resume.
  repeat (destruct (decide _);
          [first [ by apply only_for_startOrderTracking
                 | apply (after_bind (only_for (id latestOrder) w));
                   [by apply only_for_saveOrderStatus
                   |intros _ w' Hw'; eapply only_for_trans; [exact Hw'|];
                    apply only_for_startOrderTracking] ] |]).
  split; [|split].
  - exists []. split; [by rewrite app_nil_r|]. by intros e y ?%elem_of_nil.
  - intros t y s Ht _. by right.
  - intros orders Hs. eauto.
Qed.

Lemma elem_of_sort_insert cmp x l y :
  y ∈ sort_insert cmp x l → y = x ∨ y ∈ l.
Proof.
  induction l as [|z l IH]; cbn; [set_solver|].
  destruct (decide _); set_solver.
Qed.

Lemma elem_of_sort cmp l y : y ∈ sort cmp l → y ∈ l.
Proof.
  induction l as [|x l IH]; [done|].
  unfold sort. cbn. intros [->|Hy]%elem_of_sort_insert; set_solver.
Qed.

Lemma sort_nil_inv cmp l : sort cmp l = [] → l = [].
Proof.
  destruct l as [|x l]; [done|]. unfold sort. cbn.
  destruct (foldr _ _ l); cbn; [done|]. by destruct (decide _).
Qed.

(** C1: a record that is not Delivered and whose [lastUpdate] lies 45
    seconds or more back is ignored by [checkExistingOrders].  In a
    collection with one record per id, whatever the call does it does
    for another id: no event it adds is about the stale record's id
    (no tracking started, no record saved, no notification text for
    it), no transition timer is added for it, and the record is still
    in the collection afterwards.  When every record is stale or
    Delivered the call does nothing but its one read. *)
Theorem stale_record_ignored w orders r :
  stored (slot w) = Some orders →
  NoDup (id <$> orders) →
  r ∈ orders →
  status r ≠ ORDER_STATUSES.DELIVERED →
  45000 ≤ clock w - lastUpdate r →
  let w' := after (checkExistingOrders w) in
  (∃ ev orders',
     trace w' = trace w ++ ev ∧
     (∀ e, e ∈ ev → ¬ concerns (id r) e) ∧
     (∀ t s, t ∈ timers w' → callback t = Advance (id r) s → t ∈ timers w) ∧
     stored (slot w') = Some orders' ∧
     r ∈ orders') ∧
  ((∀ o, o ∈ orders → ¬ is_active (clock w) o) →
   checkExistingOrders w = Returned tt (read w)).
Proof.
  intros Hs Hnd Hr Hst Hold w'.
  assert (¬ is_active (clock w) r) as Hstale.
  { intros [Hlt _]. timings. lia. }
  assert (∃ x, x ≠ id r ∧ only_for x w w') as (x & Hx & Hfor).
  { subst w'. rewrite checkExistingOrders_eq, Hs.
    destruct (sort _ _) as [|latestOrder rest] eqn:Hsort.
    - exists ("!" +:+ id r). split; [|apply only_for_read].
      intros E. apply (f_equal String.length) in E.
      rewrite length_app in E. cbn in E. lia.
    - exists (id latestOrder). split.
      + assert (latestOrder ∈ filter (is_active (clock w)) orders) as Hin.
        { eapply elem_of_sort. rewrite Hsort. apply list_elem_of_here. }
        apply list_elem_of_filter in Hin as [Hact Hin].
        intros E. assert (latestOrder = r) as ->; [|done].
        apply list_elem_of_lookup in Hin as [i Hi].
        apply list_elem_of_lookup in Hr as [j Hj].
        assert (i = j) as ->; [|congruence].
        apply (NoDup_lookup _ i j (id r) Hnd);
          rewrite list_lookup_fmap; [rewrite Hi|rewrite Hj]; cbn; congruence.
      + eapply only_for_trans; [apply only_for_read|].
        apply only_for_resume. }
  split.
  - destruct Hfor as ((ev & Etr & Hev) & Htm & Hst').
    destruct (Hst' orders Hs) as (orders' & Hs' & Hkeep).
    exists ev, orders'. split; [done|]. split; [|split; [|split]].
    + intros e He Hc. apply Hx. symmetry. by eapply Hev.
    + intros t s Ht Hcb. destruct (Htm t (id r) s Ht Hcb); [|done].
      by destruct Hx.
    + done.
    + apply Hkeep; [done|]. congruence.
  - intros Hnone. rewrite checkExistingOrders_eq, Hs.
    by rewrite (filter_none (is_active (clock w)) orders Hnone).
Qed.

Lemma stale_record_ignored_witness :
  ∃ ev orders',
    trace (after (checkExistingOrders reload_world))
      = trace reload_world ++ ev ∧
    (∀ e, e ∈ ev → ¬ concerns "C3" e) ∧
    stored (slot (after (checkExistingOrders reload_world))) = Some orders' ∧
    stale_order ∈ orders'.
Proof.
  assert (NoDup (id <$> [stale_order; sample_order])) as Hnd.
  { apply (bool_decide_unpack _). vm_compute. exact I. }
  assert (45000 ≤ clock reload_world - lastUpdate stale_order) as Hold.
  { vm_compute. discriminate. }
  destruct (stale_record_ignored reload_world [stale_order; sample_order]
              stale_order eq_refl Hnd (list_elem_of_here _ _)
              ltac:(discriminate) Hold)
    as [(ev & orders' & Htr & Hev & _ & Hs & Hin) _].
  exists ev, orders'. split; [exact Htr|]. split; [exact Hev|].
  split; [exact Hs|exact Hin].
Defined.

(** ** Resuming inside the Preparing window *)

Lemma steps_app l k : steps (l ++ k) = steps l ++ steps k.
Proof. apply filter_app. Qed.

Lemma steps_closer w : steps (closer w) = [].
Proof. unfold closer. by destruct (bool_decide _). Qed.

Lemma steps_ladder x now k : steps (ladder x now k) = ladder x now k.
Proof. done. Qed.

(** In a well-formed state [startOrderTracking] cancels every pending
    transition. *)
Lemma steps_cleared w :
  wf w → steps (filter (λ t, tid t ∉ orderStatusTimeouts w) (timers w)) = [].
Proof.
  intros (_ & _ & _ & Hst). apply filter_none.
  intros t [Hout Ht]%list_elem_of_filter Hs. by apply Hout, Hst.
Qed.

Lemma steps_started x orders w :
  wf w →
  steps (timers (started x orders w))
  = ladder x (clock w) (handle_after_notice w).
Proof.
  intros Hw. cbn [started timers].
  by rewrite !steps_app, steps_cleared, steps_closer, steps_ladder.
Qed.

Lemma upsert_same d o : id o = id d → upsert d [o] = [d].
Proof. intros E. rewrite upsert_cons. by rewrite decide_True. Qed.

(** C2: with exactly one persisted record, not Delivered, last written
    less than 45 s ago and whose [timestamp] lies between 10 s and 20 s
    back (12 s and 5 s in the example), [checkExistingOrders] first
    saves 'Preparing' with the backdated timestamp
    [timestamp + 10000], then starts tracking the same id, which saves
    'Order Placed' at the current time and schedules all four
    transitions at their full delays from now. *)
Theorem resume_backdates_then_restarts w r :
  wf w →
  unlimited w →
  slot w = Json [r] →
  status r ≠ ORDER_STATUSES.DELIVERED →
  clock w - lastUpdate r < 45000 →
  10000 ≤ clock w - timestamp r < 20000 →
  let backdated :=
    {| id := id r; status := ORDER_STATUSES.PREPARING;
       timestamp := timestamp r + 10000; lastUpdate := clock w |} in
  let placed :=
    {| id := id r; status := ORDER_STATUSES.PLACED;
       timestamp := clock w; lastUpdate := clock w |} in
  ∃ w',
    checkExistingOrders w = Returned tt w' ∧
    trace w' =
      trace w
      ++ [GetItem;
          GetItem; SetItem [backdated]; Saved backdated;
          Tracking (id r);
          GetItem; SetItem [placed]; Saved placed]
      ++ notice placed_title (placed_body (id r)) default_icon w ∧
    slot w' = Json [placed] ∧
    currentOrderId w' = Some (id r) ∧
    (λ t, (due t, callback t)) <$> steps (timers w') =
      [ (clock w + 10000, Advance (id r) ToPreparing);
        (clock w + 20000, Advance (id r) ToReady);
        (clock w + 30000, Advance (id r) ToOnWay);
        (clock w + 45000, Advance (id r) ToDelivered) ].
Proof.
  intros Hw Hq Hs Hst Hfresh [Hlo Hhi] d1 d0.
  assert (wf (saved d1 [r] (read w))) as Hw1 by exact Hw.
  exists (started (id r) [d1] (saved d1 [r] (read w))).
  split; [|split; [|split; [|split]]].
  - rewrite checkExistingOrders_eq, Hs. cbn [stored].
    rewrite filter_cons_True by (split; [timings; lia|done]).
    rewrite filter_nil. cbn [sort foldr sort_insert].
    unfold resume. timings.
    rewrite decide_False, decide_True by lia.
    unfold bind. rewrite saveOrderStatus_eq.
    change (stored (slot (read w))) with (stored (slot w)). rewrite Hs.
    cbn [stored]. cbv zeta.
    change (order (id r) ORDER_STATUSES.PREPARING (timestamp r + 10000)
              (clock (read w))) with d1.
    change (quota (read w)) with (quota w). rewrite Hq.
    rewrite startOrderTracking_cases.
    change (stored (slot (saved d1 [r] (read w))))
      with (Some (upsert d1 [r])).
    rewrite (upsert_same d1 r) by done. cbv beta iota.
    change (quota (saved d1 [r] (read w))) with (quota w). by rewrite Hq.
  - cbn [started saved read trace].
    change (order (id r) ORDER_STATUSES.PLACED (clock (saved d1 [r] (read w)))
              (clock (saved d1 [r] (read w)))) with d0.
    change (notice placed_title (placed_body (id r)) default_icon
              (saved d1 [r] (read w)))
      with (notice placed_title (placed_body (id r)) default_icon w).
    rewrite (upsert_same d1 r), (upsert_same d0 d1) by done.
    by rewrite <- !(assoc_L (++)).
  - cbn [started slot].
    change (order (id r) ORDER_STATUSES.PLACED (clock (saved d1 [r] (read w)))
              (clock (saved d1 [r] (read w)))) with d0.
    by rewrite (upsert_same d0 d1).
  - done.
  - by rewrite steps_started.
Qed.

Lemma resume_backdates_then_restarts_witness :
  ∃ w',
    checkExistingOrders resume_world = Returned tt w' ∧
    slot w' = Json [ {| id := "A7"; status := ORDER_STATUSES.PLACED;
                        timestamp := 1000000; lastUpdate := 1000000 |} ] ∧
    (λ t, (due t, callback t)) <$> steps (timers w') =
      [ (1010000, Advance "A7" ToPreparing);
        (1020000, Advance "A7" ToReady);
        (1030000, Advance "A7" ToOnWay);
        (1045000, Advance "A7" ToDelivered) ].
Proof.
  destruct (resume_backdates_then_restarts resume_world sample_order
              (wf_page_load _ _ _ _) (λ _, eq_refl) eq_refl
              ltac:(discriminate) ltac:(vm_compute; reflexivity)
              ltac:(split; vm_compute; [discriminate|reflexivity]))
    as (w' & Hrun & _ & Hslot & _ & Hsteps).
  exists w'. split; [exact Hrun|]. split; [exact Hslot|exact Hsteps].
Defined.

(** ** The loop seen through its transitions *)

Lemma journal_app tr1 tr2 : journal (tr1 ++ tr2) = journal tr1 ++ journal tr2.
Proof. apply filter_app. Qed.

Lemma saves_of_app x tr1 tr2 :
  saves_of x (tr1 ++ tr2) = saves_of x tr1 ++ saves_of x tr2.
Proof. apply omap_app. Qed.

Lemma fired_steps_app tr1 tr2 :
  fired_steps (tr1 ++ tr2) = fired_steps tr1 ++ fired_steps tr2.
Proof. apply omap_app. Qed.

Lemma saves_of_journal x tr : saves_of x (journal tr) = saves_of x tr.
Proof.
  induction tr as [|e tr IH]; [done|].
  change (e :: tr) with ([e] ++ tr).
  rewrite journal_app, !saves_of_app, IH. f_equal.
  by destruct e as [| | | | |[]|].
Qed.

Lemma fired_steps_journal tr : fired_steps (journal tr) = fired_steps tr.
Proof.
  induction tr as [|e tr IH]; [done|].
  change (e :: tr) with ([e] ++ tr).
  rewrite journal_app, !fired_steps_app, IH. f_equal.
  by destruct e as [| | | | |[]|].
Qed.

Lemma journal_notice title body icon w :
  journal (notice title body icon w) = notice title body icon w.
Proof. unfold notice. by destruct (bool_decide _). Qed.

Lemma same_core_refl w : same_core w w.
Proof. by repeat split. Qed.

Lemma same_core_trans w1 w2 w3 :
  same_core w1 w2 → same_core w2 w3 → same_core w1 w3.
Proof.
  intros (?&?&?&?&?&?&?) (?&?&?&?&?&?&?).
  repeat split; by etrans.
Qed.

Lemma same_core_idle T w : same_core (idle T w) w.
Proof. by repeat split. Qed.

(** Handles identify pending timers. *)
Lemma tid_inj l t t' :
  NoDup (tid <$> l) → t ∈ l → t' ∈ l → tid t' = tid t → t' = t.
Proof.
  intros Hnd [i Hi]%list_elem_of_lookup [j Hj]%list_elem_of_lookup E.
  assert (j = i) as ->; [|congruence].
  apply (NoDup_lookup _ j i (tid t) Hnd);
    rewrite list_lookup_fmap; [rewrite Hj|rewrite Hi]; cbn; congruence.
Qed.

Lemma steps_filter_tid l t :
  steps (filter (λ t', tid t' ≠ tid t) l)
  = filter (λ t', tid t' ≠ tid t) (steps l).
Proof.
  unfold steps. rewrite !list_filter_filter. apply list_filter_iff. tauto.
Qed.

(** Running an auto-close changes nothing a statement is about. *)
Lemma fire_close_core t n w :
  wf w → t ∈ timers w → callback t = CloseNotification n →
  same_core (fire t w) w ∧ steps (timers (fire t w)) = steps (timers w).
Proof.
  intros (_ & _ & Hnd & _) Hin E. rewrite (fire_close t n) by done.
  assert (steps (timers (dequeued t w)) = steps (timers w)) as Hsteps.
  { cbn [dequeued timers]. rewrite steps_filter_tid. apply filter_all.
    intros t' [Hs Ht']%list_elem_of_filter Htid.
    apply (tid_inj _ t t' Hnd Hin Ht') in Htid as ->.
    unfold is_step in Hs. by rewrite E in Hs. }
  split; [|done]. repeat split; try done.
  cbn [dequeued trace]. rewrite journal_app, E. cbn. by rewrite app_nil_r.
Qed.

Lemma steps_fire t w :
  steps (timers (fire t w))
  = filter (λ t', tid t' ≠ tid t) (steps (timers w)).
Proof.
  destruct (fire_timers t w) as (extra & -> & [->|[_ ->]]);
    rewrite steps_app, steps_filter_tid; cbn; by rewrite app_nil_r.
Qed.

Lemma clock_fire t w : clock (fire t w) = Z.max (clock w) (due t).
Proof.
  destruct (callback t) as [i s|n] eqn:E.
  - rewrite (fire_step t i s) by done. cbv zeta.
    destruct (stored (slot w)); [|done]. by destruct (quota w _).
  - by rewrite (fire_close t n).
Qed.

(** Running a transition from two states with the same core, neither
    of them past its due time, gives two states with the same core. *)
Lemma fire_step_core t w v :
  is_step t → same_core w v → clock w ≤ due t → clock v ≤ due t →
  same_core (fire t w) (fire t v).
Proof.
  intros Hst (Hsl & Hq & Hp & Hcur & Hhs & Hsteps & Hj) Hw Hv.
  unfold is_step in Hst. destruct (callback t) as [i s|] eqn:E; [|done].
  assert (steps (timers (fire t w)) = steps (timers (fire t v))) as Hsteps'.
  { by rewrite !steps_fire, Hsteps. }
  rewrite !(fire_step t i s) in * by done. cbv zeta in *.
  rewrite <- Hsl, <- Hq in *. rewrite !Z.max_r in * by lia.
  destruct (stored (slot w)) as [orders|].
  - destruct (quota w _).
    + repeat split; try done.
      * cbn [advanced slot]. by rewrite !Z.max_r by lia.
      * cbn [advanced trace]. rewrite !journal_app, !journal_notice, Hj.
        rewrite !Z.max_r by lia. unfold notice. by rewrite Hp.
    + repeat split; try done.
      cbn [stumbled trace]. by rewrite !journal_app, Hj.
  - repeat split; try done.
    cbn [stumbled trace]. by rewrite !journal_app, Hj.
Qed.

(** The transition the loop picks is the first pending one. *)
Lemma next_step_is_head w t :
  next_timer w = Some t → is_step t → increasing (steps (timers w)) →
  ∃ rest, steps (timers w) = t :: rest.
Proof.
  intros [Hin Hmin]%next_timer_Some Hst Hinc.
  assert (t ∈ steps (timers w)) as Ht by by apply list_elem_of_filter.
  destruct (steps (timers w)) as [|h rest] eqn:E;
    [by apply elem_of_nil in Ht|].
  exists rest. f_equal.
  apply elem_of_cons in Ht as [->|Ht]; [done|].
  destruct Hinc as [Hlt _]. specialize (Hlt t Ht).
  assert (h ∈ timers w) as Hh.
  { assert (h ∈ steps (timers w)) as Hh by (rewrite E; apply list_elem_of_here).
    by apply list_elem_of_filter in Hh as [_ Hh]. }
  specialize (Hmin h Hh). lia.
Qed.

Lemma steps_after_head w t rest :
  wf w → steps (timers w) = t :: rest → steps (timers (fire t w)) = rest.
Proof.
  intros (_ & _ & Hnd & _) E. rewrite steps_fire, E.
  apply (NoDup_tid_filter is_step) in Hnd. fold (steps (timers w)) in Hnd.
  rewrite E, fmap_cons in Hnd. apply NoDup_cons in Hnd as [Hnot _].
  rewrite filter_cons_False by naive_solver.
  apply filter_all. intros t' Ht' Htid. apply Hnot.
  apply list_elem_of_fmap. eauto.
Qed.

(** The loop and its transitions run one after the other end with the
    same core. *)
Lemma run_until_core T n w v :
  (weight (timers w) < n)%nat →
  wf w → increasing (steps (timers w)) →
  same_core w v → clock v ≤ clock w →
  same_core (run_until n T w)
            (fire_all (filter (λ t, due t ≤ T) (steps (timers w))) v).
Proof.
  revert w v. induction n as [|n IH]; intros w v Hn Hw Hinc Hc Hclk; [lia|].
  cbn [run_until]. destruct (next_timer w) as [t|] eqn:Hnext.
  - pose proof (next_timer_Some w t Hnext) as [Hin Hmin].
    destruct (decide (due t <= T)) as [Hdue|Hlate].
    + pose proof (fire_lighter t w Hin) as Hlt.
      pose proof (wf_fire t w Hw Hnext) as Hw'.
      destruct (decide (is_step t)) as [Hst|Hst].
      * destruct (next_step_is_head w t Hnext Hst Hinc) as [rest E].
        pose proof (steps_after_head w t rest Hw E) as E'.
        rewrite E, filter_cons_True by done. cbn [fire_all foldl].
        destruct Hw as (Hdues & _). specialize (Hdues t Hin).
        rewrite <- E'. apply IH; [lia|done| | |].
        -- rewrite E'. rewrite E in Hinc. by destruct Hinc.
        -- apply fire_step_core; [done|done|lia|lia].
        -- rewrite !clock_fire. lia.
      * unfold is_step in Hst. destruct (callback t) as [|m] eqn:Ecb;
          [by destruct Hst|].
        destruct (fire_close_core t m w Hw Hin Ecb) as [Hc' E'].
        rewrite <- E'. apply IH; [lia|done|by rewrite E'| |].
        -- by eapply same_core_trans.
        -- rewrite clock_fire. lia.
    + rewrite filter_none.
      * eapply same_core_trans; [apply same_core_idle|done].
      * intros t' [_ Ht']%list_elem_of_filter. specialize (Hmin t' Ht'). lia.
  - apply next_timer_None in Hnext. rewrite Hnext.
    eapply same_core_trans; [apply same_core_idle|done].
Qed.

Lemma elapse_core T w :
  wf w → increasing (steps (timers w)) →
  same_core (elapse T w)
            (fire_all (filter (λ t, due t ≤ T) (steps (timers w))) w).
Proof.
  intros Hw Hinc. apply run_until_core; [lia|done|done| |lia].
  apply same_core_refl.
Qed.

(** ** A full ladder *)

(** A transition that fires on readable storage that accepts writes. *)
Lemma fire_step_ok t i s orders w :
  callback t = Advance i s →
  stored (slot w) = Some orders →
  unlimited w →
  clock w ≤ due t →
  let d := order i (step_status s) (due t) (due t) in
  stored (slot (fire t w)) = Some (upsert d orders) ∧
  unlimited (fire t w) ∧
  clock (fire t w) = due t ∧
  (∀ x, saves_of x (trace (fire t w))
        = saves_of x (trace w) ++ (if decide (i = x) then [d] else [])).
Proof.
  intros E Hs Hq Hclk d. rewrite clock_fire, (fire_step t i s) by done.
  rewrite Hs. cbv zeta. rewrite Hq, !Z.max_r by lia. fold d.
  split; [|split; [|split]].
  - cbn [advanced slot stored]. by rewrite !Z.max_r by lia.
  - exact Hq.
  - done.
  - intros x. cbn [advanced trace]. rewrite !Z.max_r by lia. fold d.
    rewrite !saves_of_app. rewrite <- (app_nil_r (_ ++ (if decide _ then _ else _))).
    f_equal; [|unfold notice; by destruct (bool_decide _)].
    f_equal. cbn. by destruct (decide (i = x)).
Qed.

Lemma increasing_ladder x now k : increasing (ladder x now k).
Proof.
  unfold ladder. cbn [increasing]. timings.
  repeat split; intros t' Ht';
    repeat (apply elem_of_cons in Ht' as [->|Ht']; [cbn; lia|]);
    by apply elem_of_nil in Ht'.
Qed.

Lemma started_saves x orders w y :
  saves_of y (trace (started x orders w))
  = saves_of y (trace w)
    ++ (if decide (x = y)
        then [order x ORDER_STATUSES.PLACED (clock w) (clock w)] else []).
Proof.
  cbn [started trace]. rewrite !saves_of_app.
  rewrite <- (app_nil_r (_ ++ (if decide _ then _ else _))).
  f_equal; [|unfold notice; by destruct (bool_decide _)].
  f_equal. cbn. by destruct (decide (x = y)).
Qed.

(** C4: when storage can be read and accepts writes, a
    [startOrderTracking orderId] followed by 45 seconds (or more)
    without another call ends with [getOrderStatus orderId] returning a
    'Delivered' record, and exactly five records were saved for that
    id meanwhile, with timestamps 0, 10000, 20000, 30000 and 45000 ms
    after the start time. *)
Theorem full_ladder w orderId orders T :
  wf w →
  stored (slot w) = Some orders →
  unlimited w →
  clock w + 45000 ≤ T →
  ∃ w1 r,
    startOrderTracking orderId w = Returned tt w1 ∧
    let w2 := elapse T w1 in
    getOrderStatus orderId w2 = Returned (Some r) (read w2) ∧
    status r = ORDER_STATUSES.DELIVERED ∧
    saves_of orderId (trace w2) =
      saves_of orderId (trace w) ++
      [ {| id := orderId; status := ORDER_STATUSES.PLACED;
           timestamp := clock w; lastUpdate := clock w |};
        {| id := orderId; status := ORDER_STATUSES.PREPARING;
           timestamp := clock w + 10000; lastUpdate := clock w + 10000 |};
        {| id := orderId; status := ORDER_STATUSES.READY;
           timestamp := clock w + 20000; lastUpdate := clock w + 20000 |};
        {| id := orderId; status := ORDER_STATUSES.ON_WAY;
           timestamp := clock w + 30000; lastUpdate := clock w + 30000 |};
        {| id := orderId; status := ORDER_STATUSES.DELIVERED;
           timestamp := clock w + 45000; lastUpdate := clock w + 45000 |} ].
Proof.
  intros Hw Hs Hq HT.
  set (w1 := started orderId orders w).
  set (d0 := order orderId ORDER_STATUSES.PLACED (clock w) (clock w)).
  set (d4 := order orderId ORDER_STATUSES.DELIVERED (clock w + 45000)
               (clock w + 45000)).
  exists w1, d4. split; [by rewrite startOrderTracking_cases, Hs, Hq|].
  cbv zeta.
  pose proof (wf_started orderId orders w Hw) as Hw1. fold w1 in Hw1.
  pose proof (steps_started orderId orders w Hw) as Hsteps. fold w1 in Hsteps.
  pose proof (elapse_core T w1 Hw1) as Hcore. rewrite Hsteps in Hcore.
  specialize (Hcore (increasing_ladder _ _ _)).
  unfold ladder in Hcore.
  rewrite !filter_cons_True, filter_nil in Hcore by (cbn; timings; lia).
  cbn [fire_all foldl] in Hcore.
  set (k := handle_after_notice w) in *.
  set (t1 := {| tid := k; due := clock w + ORDER_TIMINGS.PREPARING;
                callback := Advance orderId ToPreparing |}) in *.
  set (t2 := {| tid := S k; due := clock w + ORDER_TIMINGS.READY;
                callback := Advance orderId ToReady |}) in *.
  set (t3 := {| tid := S (S k); due := clock w + ORDER_TIMINGS.ON_WAY;
                callback := Advance orderId ToOnWay |}) in *.
  set (t4 := {| tid := S (S (S k)); due := clock w + ORDER_TIMINGS.DELIVERED;
                callback := Advance orderId ToDelivered |}) in *.
  assert (stored (slot w1) = Some (upsert d0 orders)) as Hs1 by done.
  assert (unlimited w1) as Hq1 by exact Hq.
  assert (clock w1 = clock w) as Hc1 by done.
  destruct (fire_step_ok t1 orderId ToPreparing _ w1 eq_refl Hs1 Hq1)
    as (Hs2 & Hq2 & Hc2 & Hsv2); [rewrite Hc1; cbn; timings; lia|].
  destruct (fire_step_ok t2 orderId ToReady _ _ eq_refl Hs2 Hq2)
    as (Hs3 & Hq3 & Hc3 & Hsv3); [rewrite Hc2; cbn; timings; lia|].
  destruct (fire_step_ok t3 orderId ToOnWay _ _ eq_refl Hs3 Hq3)
    as (Hs4 & Hq4 & Hc4 & Hsv4); [rewrite Hc3; cbn; timings; lia|].
  destruct (fire_step_ok t4 orderId ToDelivered _ _ eq_refl Hs4 Hq4)
    as (Hs5 & _ & _ & Hsv5); [rewrite Hc4; cbn; timings; lia|].
  destruct Hcore as (Hslot & _ & _ & _ & _ & _ & Hj).
  split; [|split].
  - rewrite getOrderStatus_eq, Hslot, Hs5. do 2 f_equal.
    apply (find_upsert d4).
  - done.
  - rewrite <- saves_of_journal, Hj, saves_of_journal.
    rewrite Hsv5, Hsv4, Hsv3, Hsv2. unfold w1. rewrite started_saves.
    rewrite !decide_True by done. rewrite <- !(assoc_L (++)). done.
Qed.

Lemma full_ladder_witness :
  ∃ w1 r,
    startOrderTracking "A7" sample_world = Returned tt w1 ∧
    let w2 := elapse 1045000 w1 in
    getOrderStatus "A7" w2 = Returned (Some r) (read w2) ∧
    status r = ORDER_STATUSES.DELIVERED ∧
    (timestamp <$> saves_of "A7" (trace w2))
      = [1000000; 1010000; 1020000; 1030000; 1045000].
Proof.
  destruct (full_ladder sample_world "A7" [other_order; sample_order] 1045000
              (wf_page_load _ _ _ _) eq_refl (λ _, eq_refl)
              ltac:(vm_compute; discriminate))
    as (w1 & r & Hrun & Hget & Hst & Hsaves).
  exists w1, r. split; [exact Hrun|]. split; [exact Hget|].
  split; [exact Hst|].
  exact (f_equal (fmap timestamp) Hsaves).
Defined.

(** ** A second order cancels the first *)

Lemma fire_step_fired t i s w :
  callback t = Advance i s →
  fired_steps (trace (fire t w)) = fired_steps (trace w) ++ [Advance i s].
Proof.
  intros E. rewrite (fire_step t i s) by done. cbv zeta.
  assert (∀ title body icon,
            fired_steps (notice title body icon w) = []) as Hn.
  { intros. unfold notice. by destruct (bool_decide _). }
  destruct (stored (slot w)) as [orders|].
  - destruct (quota w _).
    + cbn [advanced trace]. rewrite !fired_steps_app, Hn, E.
      by rewrite app_nil_r.
    + cbn [stumbled trace]. by rewrite fired_steps_app, E.
  - cbn [stumbled trace]. by rewrite fired_steps_app, E.
Qed.

Lemma fire_step_frame t i s w x :
  callback t = Advance i s → x ≠ i →
  find x <$> stored (slot (fire t w)) = find x <$> stored (slot w).
Proof.
  intros E Hx. rewrite (fire_step t i s) by done. cbv zeta.
  destruct (stored (slot w)) as [orders|] eqn:Hs; [|by rewrite <- Hs].
  destruct (quota w _); [|by rewrite <- Hs].
  cbn [advanced slot stored fmap option_fmap option_map].
  f_equal. by apply find_upsert_ne.
Qed.

Lemma started_frame i orders w x :
  stored (slot w) = Some orders → x ≠ i →
  find x <$> stored (slot (started i orders w)) = find x <$> stored (slot w).
Proof.
  intros Hs Hx. rewrite Hs.
  cbn [started slot stored fmap option_fmap option_map].
  f_equal. by apply find_upsert_ne.
Qed.

Lemma started_fired i orders w :
  fired_steps (trace (started i orders w)) = fired_steps (trace w).
Proof.
  cbn [started trace]. rewrite !fired_steps_app.
  assert (fired_steps (notice placed_title (placed_body i) default_icon w)
          = []) as ->.
  { unfold notice. by destruct (bool_decide _). }
  cbn. by rewrite !app_nil_r.
Qed.

(** C6: a [startOrderTracking id2] that follows a
    [startOrderTracking id1] for another id, at any later moment,
    cancels what was left of the first ladder.  Right after the second
    call no transition of [id1] is pending; once its 45 seconds have
    passed, the transitions run since the second call are exactly the
    four of [id2], none is pending any more, and the record of [id1]
    is the one it had when the second call was made. *)
Theorem second_start_cancels_first w0 id1 id2 t T w3 :
  wf w0 →
  id1 ≠ id2 →
  let w1 := after (startOrderTracking id1 w0) in
  let w2 := elapse t w1 in
  startOrderTracking id2 w2 = Returned tt w3 →
  clock w2 + 45000 ≤ T →
  let w4 := elapse T w3 in
  (∀ tm s, tm ∈ timers w3 → callback tm ≠ Advance id1 s) ∧
  fired_steps (trace w4) =
    fired_steps (trace w2) ++
    [ Advance id2 ToPreparing; Advance id2 ToReady;
      Advance id2 ToOnWay; Advance id2 ToDelivered ] ∧
  steps (timers w4) = [] ∧
  find id1 <$> stored (slot w4) = find id1 <$> stored (slot w2).
Proof.
  intros Hw0 Hne w1 w2 Hrun HT w4.
  assert (wf w2) as Hw2.
  { apply wf_elapse. by apply wf_startOrderTracking. }
  clearbody w2. clear w1 Hw0.
  rewrite startOrderTracking_cases in Hrun.
  destruct (stored (slot w2)) as [orders|] eqn:Hs; [|done].
  destruct (quota w2 _); [|done]. injection Hrun as <-.
  set (w3 := started id2 orders w2) in *.
  pose proof (wf_started id2 orders w2 Hw2) as Hw3. fold w3 in Hw3.
  pose proof (steps_started id2 orders w2 Hw2) as Hsteps. fold w3 in Hsteps.
  pose proof (elapse_core T w3 Hw3) as Hcore. rewrite Hsteps in Hcore.
  specialize (Hcore (increasing_ladder _ _ _)).
  unfold ladder in Hcore.
  rewrite !filter_cons_True, filter_nil in Hcore by (cbn; timings; lia).
  cbn [fire_all foldl] in Hcore. fold w4 in Hcore.
  set (k := handle_after_notice w2) in *.
  set (t1 := {| tid := k; due := clock w2 + ORDER_TIMINGS.PREPARING;
                callback := Advance id2 ToPreparing |}) in *.
  set (t2 := {| tid := S k; due := clock w2 + ORDER_TIMINGS.READY;
                callback := Advance id2 ToReady |}) in *.
  set (t3 := {| tid := S (S k); due := clock w2 + ORDER_TIMINGS.ON_WAY;
                callback := Advance id2 ToOnWay |}) in *.
  set (t4 := {| tid := S (S (S k)); due := clock w2 + ORDER_TIMINGS.DELIVERED;
                callback := Advance id2 ToDelivered |}) in *.
  destruct Hcore as (Hslot & _ & _ & _ & _ & Hst & Hj).
  split; [|split; [|split]].
  - intros tm s Htm Hcb.
    assert (tm ∈ steps (timers w3)) as Hin.
    { apply list_elem_of_filter. split; [|done]. unfold is_step.
      by rewrite Hcb. }
    rewrite Hsteps in Hin. unfold ladder in Hin.
    repeat (apply elem_of_cons in Hin as [->|Hin];
            [by injection Hcb as <-|]).
    by apply elem_of_nil in Hin.
  - rewrite <- fired_steps_journal, Hj, fired_steps_journal.
    rewrite (fire_step_fired t4 id2 ToDelivered) by done.
    rewrite (fire_step_fired t3 id2 ToOnWay) by done.
    rewrite (fire_step_fired t2 id2 ToReady) by done.
    rewrite (fire_step_fired t1 id2 ToPreparing) by done.
    unfold w3. rewrite started_fired. by rewrite <- !(assoc_L (++)).
  - rewrite Hst, !steps_fire, Hsteps. unfold ladder. fold t1 t2 t3 t4.
    rewrite (filter_cons_False _ t1) by (cbn; lia).
    rewrite (filter_cons_True _ t2), (filter_cons_True _ t3),
      (filter_cons_True _ t4), filter_nil by (cbn; lia).
    rewrite (filter_cons_False _ t2) by (cbn; lia).
    rewrite (filter_cons_True _ t3), (filter_cons_True _ t4), filter_nil
      by (cbn; lia).
    rewrite (filter_cons_False _ t3) by (cbn; lia).
    rewrite (filter_cons_True _ t4), filter_nil by (cbn; lia).
    by rewrite (filter_cons_False _ t4) by (cbn; lia).
  - rewrite Hslot.
    rewrite (fire_step_frame t4 id2 ToDelivered) by done.
    rewrite (fire_step_frame t3 id2 ToOnWay) by done.
    rewrite (fire_step_frame t2 id2 ToReady) by done.
    rewrite (fire_step_frame t1 id2 ToPreparing) by done.
    unfold w3. rewrite (started_frame id2 orders w2 id1) by done.
    by rewrite Hs.
Qed.

Lemma second_start_cancels_first_witness :
  ∃ w3,
    startOrderTracking "B9"
      (elapse 1012000 (after (startOrderTracking "A7" sample_world)))
      = Returned tt w3 ∧
    fired_steps (trace (elapse 1060000 w3)) =
      fired_steps
        (trace (elapse 1012000 (after (startOrderTracking "A7" sample_world))))
      ++ [ Advance "B9" ToPreparing; Advance "B9" ToReady;
           Advance "B9" ToOnWay; Advance "B9" ToDelivered ].
Proof.
  exists (after (startOrderTracking "B9"
            (elapse 1012000 (after (startOrderTracking "A7" sample_world))))).
  assert (startOrderTracking "B9"
            (elapse 1012000 (after (startOrderTracking "A7" sample_world)))
          = Returned tt
              (after (startOrderTracking "B9"
                 (elapse 1012000
                    (after (startOrderTracking "A7" sample_world))))))
    as Hrun.
  { vm_compute. reflexivity. }
  assert (clock (elapse 1012000 (after (startOrderTracking "A7" sample_world)))
          + 45000 ≤ 1060000) as HT.
  { vm_compute. discriminate. }
  split; [exact Hrun|].
  pose proof (second_start_cancels_first sample_world "A7" "B9" 1012000
                1060000 _ (wf_page_load _ _ _ _) ltac:(discriminate) Hrun HT)
    as H.
  cbv zeta in H. exact (proj1 (proj2 H)).
Defined.

(** * Further properties *)

(** ** Saving and reading back *)

Lemma upsert_upsert d1 d2 orders :
  id d1 = id d2 → upsert d2 (upsert d1 orders) = upsert d2 orders.
Proof.
  intros E. induction orders as [|o orders IH].
  - rewrite !upsert_nil, upsert_cons. by rewrite decide_True.
  - rewrite !(upsert_cons _ o). destruct (decide (id o = id d1)) as [E1|E1].
    + rewrite decide_True by congruence. rewrite upsert_cons.
      by rewrite decide_True.
    + rewrite decide_False by congruence. rewrite upsert_cons.
      rewrite decide_False by congruence. by rewrite IH.
Qed.

Lemma length_upsert_eq d orders :
  length (upsert d orders) =
  if decide (id d ∈ id <$> orders) then length orders else S (length orders).
Proof.
  pose proof (f_equal length (ids_upsert d orders)) as E.
  rewrite length_fmap in E. rewrite E.
  destruct (decide _); [by rewrite length_fmap|].
  rewrite List.length_app, length_fmap. cbn. lia.
Qed.

(** X1: what an accepted [saveOrderStatus] wrote is what
    [getOrderStatus] reads back for that id: the same status and
    timestamp, with the clock of the write as [lastUpdate]; for every
    other id the read returns what was stored before the write. *)
Theorem get_after_save w orderId st ts orders :
  stored (slot w) = Some orders →
  unlimited w →
  ∃ w1,
    saveOrderStatus orderId st ts w = Returned tt w1 ∧
    getOrderStatus orderId w1 =
      Returned (Some {| id := orderId; status := st; timestamp := ts;
                        lastUpdate := clock w |}) (read w1) ∧
    ∀ x, x ≠ orderId →
      getOrderStatus x w1 = Returned (find x orders) (read w1).
Proof.
  intros Hs Hq. set (d := order orderId st ts (clock w)).
  exists (saved d orders w). rewrite saveOrderStatus_eq, Hs. cbv zeta.
  fold d. rewrite Hq. split; [done|].
  rewrite !getOrderStatus_eq.
  change (stored (slot (saved d orders w))) with (Some (upsert d orders)).
  split.
  - cbv beta iota. change orderId with (id d) at 1. by rewrite find_upsert.
  - intros x Hx. rewrite getOrderStatus_eq.
    change (stored (slot (saved d orders w))) with (Some (upsert d orders)).
    cbv beta iota. by rewrite (find_upsert_ne x d).
Qed.

Lemma get_after_save_witness :
  ∃ w1,
    saveOrderStatus "A7" ORDER_STATUSES.READY 1234 sample_world
      = Returned tt w1 ∧
    getOrderStatus "A7" w1 =
      Returned (Some {| id := "A7"; status := ORDER_STATUSES.READY;
                        timestamp := 1234; lastUpdate := 1000000 |})
               (read w1).
Proof.
  destruct (get_after_save sample_world "A7" ORDER_STATUSES.READY 1234
              [other_order; sample_order] eq_refl (λ _, eq_refl))
    as (w1 & Hrun & Hget & _).
  exists w1. split; [exact Hrun|exact Hget].
Defined.

(** X2: an accepted [saveOrderStatus] makes the collection one record
    longer when the id was not stored yet, and leaves its length as it
    was when the id was already there. *)
Theorem save_grows_by_at_most_one w orderId st ts orders :
  stored (slot w) = Some orders →
  unlimited w →
  ∃ w1 orders',
    saveOrderStatus orderId st ts w = Returned tt w1 ∧
    slot w1 = Json orders' ∧
    length orders' =
      if decide (orderId ∈ id <$> orders)
      then length orders else S (length orders).
Proof.
  intros Hs Hq. set (d := order orderId st ts (clock w)).
  exists (saved d orders w), (upsert d orders).
  rewrite saveOrderStatus_eq, Hs. cbv zeta. fold d. rewrite Hq.
  split; [done|]. split; [done|]. apply (length_upsert_eq d).
Qed.

Lemma save_grows_by_at_most_one_witness :
  ∃ w1 orders',
    saveOrderStatus "Z9" ORDER_STATUSES.READY 1234 sample_world
      = Returned tt w1 ∧
    slot w1 = Json orders' ∧
    length orders' = 3%nat.
Proof.
  exact (save_grows_by_at_most_one sample_world "Z9" ORDER_STATUSES.READY 1234
           [other_order; sample_order] eq_refl (λ _, eq_refl)).
Defined.

(** X3: the last write wins.  Two accepted [saveOrderStatus] calls for
    the same id leave the collection that the second call alone would
    have left; in particular saving the same status twice is the same
    as saving it once. *)
Theorem last_save_wins w orderId st1 ts1 st2 ts2 :
  stored (slot w) ≠ None →
  unlimited w →
  slot (after (saveOrderStatus orderId st2 ts2
                 (after (saveOrderStatus orderId st1 ts1 w))))
  = slot (after (saveOrderStatus orderId st2 ts2 w)).
Proof.
  intros Hs Hq. destruct (stored (slot w)) as [orders|] eqn:Hso; [|done].
  set (d1 := order orderId st1 ts1 (clock w)).
  set (d2 := order orderId st2 ts2 (clock w)).
  rewrite (saveOrderStatus_eq orderId st1), Hso. cbv zeta. fold d1.
  rewrite Hq. cbn [after]. rewrite !saveOrderStatus_eq.
  change (stored (slot (saved d1 orders w))) with (Some (upsert d1 orders)).
  rewrite Hso. cbv zeta beta iota.
  change (quota (saved d1 orders w)) with (quota w).
  change (clock (saved d1 orders w)) with (clock w). fold d2.
  rewrite !Hq. cbn [after saved slot]. by rewrite upsert_upsert.
Qed.

Lemma last_save_wins_witness :
  slot (after (saveOrderStatus "A7" ORDER_STATUSES.READY 7
                 (after (saveOrderStatus "A7" ORDER_STATUSES.PREPARING 5
                           sample_world))))
  = slot (after (saveOrderStatus "A7" ORDER_STATUSES.READY 7 sample_world)).
Proof.
  apply last_save_wins; [discriminate|exact (λ _, eq_refl)].
Defined.

(** ** Records are never removed *)

Lemma keeps_records_refl w : keeps_records w w.
Proof. intros orders Hs. exists orders. by repeat split. Qed.

Lemma keeps_records_trans w1 w2 w3 :
  keeps_records w1 w2 → keeps_records w2 w3 → keeps_records w1 w3.
Proof.
  intros H12 H23 orders Hs.
  destruct (H12 orders Hs) as (o2 & Hs2 & Hin2 & Hlen2).
  destruct (H23 o2 Hs2) as (o3 & Hs3 & Hin3 & Hlen3).
  exists o3. split; [done|]. split; [auto|lia].
Qed.

Lemma keeps_records_slot w w' : slot w' = slot w → keeps_records w w'.
Proof. intros E orders Hs. exists orders. rewrite E. by repeat split. Qed.

Lemma keeps_records_upsert w w' d orders :
  stored (slot w) = Some orders → slot w' = Json (upsert d orders) →
  keeps_records w w'.
Proof.
  intros Hs E orders' Hs'. rewrite Hs in Hs'. injection Hs' as <-.
  exists (upsert d orders). rewrite E. split; [done|]. split.
  - intros x Hx. rewrite ids_upsert. destruct (decide _); set_solver.
  - apply length_upsert.
Qed.

Lemma keeps_saveOrderStatus x st ts w :
  keeps_records w (after (saveOrderStatus x st ts w)).
Proof.
  rewrite saveOrderStatus_eq.
  destruct (stored (slot w)) as [orders|] eqn:Hs;
    [|by apply keeps_records_slot].
  cbv zeta. destruct (quota w _); [|by apply keeps_records_slot].
  by eapply keeps_records_upsert.
Qed.

Lemma keeps_startOrderTracking x w :
  keeps_records w (after (startOrderTracking x w)).
Proof.
  rewrite startOrderTracking_cases.
  destruct (stored (slot w)) as [orders|] eqn:Hs;
    [|by apply keeps_records_slot].
  destruct (quota w _); [|by apply keeps_records_slot].
  by eapply keeps_records_upsert.
Qed.

Lemma keeps_fire t w : keeps_records w (fire t w).
Proof.
  destruct (callback t) as [x s|n] eqn:E.
  - rewrite (fire_step t x s) by done. cbv zeta.
    destruct (stored (slot w)) as [orders|] eqn:Hs;
      [|by apply keeps_records_slot].
    destruct (quota w _); [|by apply keeps_records_slot].
    by eapply keeps_records_upsert.
  - rewrite (fire_close t n) by done. by apply keeps_records_slot.
Qed.

Lemma keeps_resume now latestOrder w :
  keeps_records w (after (resume now latestOrder w)).
Proof.
  unfold resume.
  repeat (destruct (decide _);
          [first [ by apply keeps_startOrderTracking
                 | apply (after_bind (keeps_records w));
                   [by apply keeps_saveOrderStatus
                   |intros _ w' Hw'; eapply keeps_records_trans; [exact Hw'|];
                    apply keeps_startOrderTracking] ] |]).
  apply keeps_records_refl.
Qed.

Lemma keeps_perform op w : keeps_records w (perform op w).
Proof.
  destruct op as [x|x st ts|x| |T]; cbn [perform].
  - apply keeps_startOrderTracking.
  - apply keeps_saveOrderStatus.
  - rewrite getOrderStatus_eq.
    by destruct (stored (slot w)); apply keeps_records_slot.
  - rewrite checkExistingOrders_eq.
    destruct (stored (slot w)) as [orders|] eqn:Hs;
      [|by apply keeps_records_slot].
    destruct (sort _ _) as [|latestOrder ?]; [by apply keeps_records_slot|].
    eapply keeps_records_trans; [|apply keeps_resume].
    by apply keeps_records_slot.
  - apply (elapse_ind (keeps_records w)).
    + intros w' t Hw' _ _. eapply keeps_records_trans; [exact Hw'|].
      apply keeps_fire.
    + intros w' Hw' _. eapply keeps_records_trans; [exact Hw'|].
      by apply keeps_records_slot.
    + apply keeps_records_refl.
Qed.

(** X4: the component never deletes a record.  Over any sequence of
    start tracking, persist status, get status, resume on load and
    waits, every id stored at the beginning is still stored at the end
    and the collection has not become shorter. *)
Theorem records_never_removed ops w orders :
  stored (slot w) = Some orders →
  ∃ orders',
    stored (slot (perform_all ops w)) = Some orders' ∧
    (∀ x, x ∈ id <$> orders → x ∈ id <$> orders') ∧
    (length orders ≤ length orders')%nat.
Proof.
  assert (keeps_records w (perform_all ops w)) as Hk; [|apply Hk].
  assert (∀ w0, keeps_records w0 w →
                keeps_records w0 (perform_all ops w)) as Hgen;
    [|apply Hgen, keeps_records_refl].
  revert w. induction ops as [|op ops IH]; intros w w0 H0; [done|].
  cbn [perform_all foldl]. apply IH.
  eapply keeps_records_trans; [exact H0|apply keeps_perform].
Qed.

Lemma records_never_removed_witness :
  ∃ orders',
    stored (slot (perform_all
                    [StartTracking "Z9"; Wait 1012000; ResumeOnLoad;
                     PersistStatus "B2" ORDER_STATUSES.READY 5;
                     Wait 2000000]
                    sample_world)) = Some orders' ∧
    "A7" ∈ id <$> orders'.
Proof.
  destruct (records_never_removed
              [StartTracking "Z9"; Wait 1012000; ResumeOnLoad;
               PersistStatus "B2" ORDER_STATUSES.READY 5; Wait 2000000]
              sample_world [other_order; sample_order] eq_refl)
    as (orders' & Hs & Hin & _).
  exists orders'. split; [exact Hs|].
  apply Hin. apply list_elem_of_further, list_elem_of_here.
Defined.

(** ** Stored text that [JSON.parse] rejects *)

Lemma effects_app tr1 tr2 : effects (tr1 ++ tr2) = effects tr1 ++ effects tr2.
Proof. apply filter_app. Qed.

Lemma malformed_fire t w :
  slot w = Malformed →
  slot (fire t w) = Malformed ∧ effects (trace (fire t w)) = effects (trace w).
Proof.
  intros Hs. destruct (callback t) as [x s|n] eqn:E.
  - rewrite (fire_step t x s) by done. rewrite Hs. split; [done|].
    cbn [stumbled trace stored]. rewrite effects_app, E. cbn.
    by rewrite app_nil_r.
  - rewrite (fire_close t n) by done. split; [done|].
    cbn [dequeued trace]. rewrite effects_app, E. cbn.
    by rewrite app_nil_r.
Qed.

Lemma malformed_perform op w :
  slot w = Malformed →
  slot (perform op w) = Malformed ∧
  effects (trace (perform op w)) = effects (trace w).
Proof.
  intros Hs. destruct op as [x|x st ts|x| |T]; cbn [perform].
  - rewrite startOrderTracking_cases, Hs. split; [done|].
    cbn [after read entered trace stored].
    rewrite !effects_app. cbn. by rewrite !app_nil_r.
  - rewrite saveOrderStatus_eq, Hs. split; [done|].
    cbn [after read trace stored]. rewrite effects_app. cbn.
    by rewrite app_nil_r.
  - rewrite getOrderStatus_eq, Hs. split; [done|].
    cbn [after read trace stored]. rewrite effects_app. cbn.
    by rewrite app_nil_r.
  - rewrite checkExistingOrders_eq, Hs. split; [done|].
    cbn [after read trace stored]. rewrite effects_app. cbn.
    by rewrite app_nil_r.
  - apply (elapse_ind
             (λ w', slot w' = Malformed ∧
                    effects (trace w') = effects (trace w))); [| |done].
    + intros w' t [Hs' He] _ _.
      destruct (malformed_fire t w' Hs') as [Hs'' He'']. split; [done|].
      by rewrite He''.
    + by intros w' [Hs' He] _.
Qed.

(** X5: a stored text that is not empty and that [JSON.parse] rejects
    is never repaired.  Over any sequence of operations and waits the
    value stays as it is, and nothing is written, saved or shown:
    every operation and every scheduled transition fails at its read.
    (The empty string is not such a text: [v || '[]'] reads it as the
    empty collection, and the next accepted save overwrites it.) *)
Theorem malformed_is_permanent ops w :
  slot w = Malformed →
  slot (perform_all ops w) = Malformed ∧
  effects (trace (perform_all ops w)) = effects (trace w).
Proof.
  revert w. induction ops as [|op ops IH]; intros w Hs; [done|].
  cbn [perform_all foldl].
  destruct (malformed_perform op w Hs) as [Hs' He'].
  destruct (IH _ Hs') as [Hs'' He'']. split; [done|]. by rewrite <- He'.
Qed.

Lemma malformed_is_permanent_witness :
  slot (perform_all
          [StartTracking "A7"; Wait 1050000; ResumeOnLoad;
           PersistStatus "B2" ORDER_STATUSES.READY 5]
          malformed_world) = Malformed.
Proof.
  exact (proj1 (malformed_is_permanent
                  [StartTracking "A7"; Wait 1050000; ResumeOnLoad;
                   PersistStatus "B2" ORDER_STATUSES.READY 5]
                  malformed_world eq_refl)).
Defined.

(** ** A start that fails *)

(** X6: a [startOrderTracking] that throws, because the stored value
    does not parse or the write is refused, has already cancelled the
    previous session: no transition is pending any more and none was
    scheduled, [currentOrderId] is the new id, and storage is as it
    was, with nothing saved or shown. *)
Theorem failed_start_still_cancels w orderId e w' :
  wf w →
  startOrderTracking orderId w = Thrown e w' →
  steps (timers w') = [] ∧
  orderStatusTimeouts w' = [] ∧
  currentOrderId w' = Some orderId ∧
  slot w' = slot w ∧
  effects (trace w') = effects (trace w).
Proof.
  intros Hw Hrun. rewrite startOrderTracking_cases in Hrun.
  assert (w' = read (entered orderId w)) as ->.
  { destruct (stored (slot w)); [|by injection Hrun].
    destruct (quota w _); [done|by injection Hrun]. }
  split; [|split; [|split; [|split]]]; try done.
  - cbn [read entered timers]. by apply steps_cleared.
  - cbn [read entered trace]. rewrite !effects_app. cbn.
    by rewrite !app_nil_r.
Qed.

Lemma failed_start_still_cancels_witness :
  ∃ e w',
    startOrderTracking "Z9" (after (startOrderTracking "A7" tight_world))
      = Thrown e w' ∧
    steps (timers w') = [] ∧
    currentOrderId w' = Some "Z9".
Proof.
  exists QuotaExceededError,
    (after (startOrderTracking "Z9"
              (after (startOrderTracking "A7" tight_world)))).
  assert (startOrderTracking "Z9" (after (startOrderTracking "A7" tight_world))
          = Thrown QuotaExceededError
              (after (startOrderTracking "Z9"
                        (after (startOrderTracking "A7" tight_world)))))
    as Hrun.
  { vm_compute. reflexivity. }
  split; [exact Hrun|].
  pose proof (failed_start_still_cancels _ "Z9" _ _
                (wf_startOrderTracking "A7" tight_world (wf_page_load _ _ _ _))
                Hrun) as H.
  split; [exact (proj1 H)|exact (proj1 (proj2 (proj2 H)))].
Defined.

(** ** One session at a time *)

Lemma increasing_suffix l1 l2 :
  l1 `suffix_of` l2 → increasing l2 → increasing l1.
Proof.
  intros [k ->]. induction k as [|t k IH]; [done|].
  cbn [app increasing]. intros [_ Hinc]. auto.
Qed.

Lemma currentOrderId_fire t w : currentOrderId (fire t w) = currentOrderId w.
Proof.
  destruct (callback t) as [x s|n] eqn:E.
  - rewrite (fire_step t x s) by done. cbv zeta.
    destruct (stored (slot w)); [|done]. by destruct (quota w _).
  - by rewrite (fire_close t n).
Qed.

Lemma one_session_same w w' :
  timers w' = timers w → currentOrderId w' = currentOrderId w →
  one_session w → one_session w'.
Proof. intros Et Ec. unfold one_session. by rewrite Et, Ec. Qed.

Lemma session_startOrderTracking x w :
  wf w → one_session (after (startOrderTracking x w)).
Proof.
  intros Hw. rewrite startOrderTracking_cases.
  assert (one_session (read (entered x w))) as Hfail.
  { exists x, 0, 0%nat. cbn [read entered timers].
    rewrite steps_cleared by done. split; [apply suffix_nil|done]. }
  destruct (stored (slot w)) as [orders|]; [|done].
  destruct (quota w _); [|done].
  exists x, (clock w), (handle_after_notice w). cbn [after].
  rewrite steps_started by done. done.
Qed.

Lemma session_fire t w :
  wf w → one_session w → next_timer w = Some t → one_session (fire t w).
Proof.
  intros Hw (x & now & k & Hsuf & Hcur) Hnext.
  pose proof (next_timer_Some w t Hnext) as [Hin _].
  exists x, now, k. rewrite currentOrderId_fire.
  destruct (decide (is_step t)) as [Hst|Hst].
  - assert (increasing (steps (timers w))) as Hinc.
    { eapply increasing_suffix; [done|apply increasing_ladder]. }
    destruct (next_step_is_head w t Hnext Hst Hinc) as [rest E].
    rewrite (steps_after_head w t rest Hw E). rewrite E in Hsuf, Hcur.
    split; [by eapply suffix_cons_l|]. intros _. by apply Hcur.
  - unfold is_step in Hst. destruct (callback t) as [|n] eqn:Ecb;
      [by destruct Hst|].
    destruct (fire_close_core t n w Hw Hin Ecb) as [_ ->]. done.
Qed.

Lemma session_perform op w :
  wf w ∧ one_session w → wf (perform op w) ∧ one_session (perform op w).
Proof.
  intros [Hw Hs]. split; [by apply wf_perform|].
  destruct op as [x|x st ts|x| |T]; cbn [perform].
  - by apply session_startOrderTracking.
  - rewrite saveOrderStatus_eq.
    destruct (stored (slot w)); [|done]. cbv zeta. by destruct (quota w _).
  - rewrite getOrderStatus_eq. by destruct (stored (slot w)).
  - rewrite checkExistingOrders_eq.
    destruct (stored (slot w)); [|done].
    destruct (sort _ _) as [|latestOrder ?]; [done|].
    assert (wf (read w) ∧ one_session (read w)) as Hr by done.
    revert Hr. generalize (read w). intros w' Hw'. unfold resume.
    assert (∀ y v, wf v ∧ one_session v →
              wf (after (startOrderTracking y v)) ∧
              one_session (after (startOrderTracking y v))) as Hstart.
    { intros y v [Hv _]. split; [by apply wf_startOrderTracking|].
      by apply session_startOrderTracking. }
    assert (∀ y st ts v, wf v ∧ one_session v →
              wf (after (saveOrderStatus y st ts v)) ∧
              one_session (after (saveOrderStatus y st ts v))) as Hsave.
    { intros y st ts v [Hv Hsv]. split; [by apply wf_saveOrderStatus|].
      rewrite saveOrderStatus_eq.
      destruct (stored (slot v)); [|done]. cbv zeta. by destruct (quota v _). }
    apply (proj2 (A := wf (after (resume (clock w) latestOrder w')))).
    unfold resume.
    repeat (destruct (decide _);
            [first [ by apply Hstart
                   | apply (after_bind (λ v, wf v ∧ one_session v));
                     [by apply Hsave|intros _ v Hv; by apply Hstart] ] |]).
    done.
  - apply (proj2 (A := wf (elapse T w))).
    apply (elapse_ind (λ v, wf v ∧ one_session v)); [| |done].
    + intros v t [Hv Hsv] Hnext _. split; [by apply wf_fire|].
      by apply session_fire.
    + intros v [Hv Hsv] Hlate. split; [by apply wf_parts_idle|done].
Qed.

Lemma suffix_length {A} (l1 l2 : list A) :
  l1 `suffix_of` l2 → (length l1 ≤ length l2)%nat.
Proof. intros [k ->]. rewrite List.length_app. lia. Qed.

(** X7: at most one tracking session is active.  In every state the
    page can reach from a fresh load, the pending status transitions
    are the remaining part of one ladder: at most four, all for the
    order in [currentOrderId], in the order Preparing, Ready, On the
    Way, Delivered. *)
Theorem one_session_at_a_time ops now s q p :
  let w := perform_all ops (page_load now s q p) in
  (length (steps (timers w)) ≤ 4)%nat ∧
  ∃ x start k,
    steps (timers w) `suffix_of` ladder x start k ∧
    (steps (timers w) ≠ [] → currentOrderId w = Some x).
Proof.
  assert (∀ w, wf w ∧ one_session w →
               wf (perform_all ops w) ∧ one_session (perform_all ops w))
    as Hgen.
  { induction ops as [|op ops IH]; intros w Hw; [done|].
    cbn [perform_all foldl]. by apply IH, session_perform. }
  destruct (Hgen (page_load now s q p)) as [_ (x & start & k & Hsuf & Hcur)].
  { split; [apply wf_page_load|]. exists "", 0, 0%nat.
    split; [apply suffix_nil|done]. }
  cbv zeta. split; [|by exists x, start, k].
  by apply suffix_length in Hsuf.
Qed.

Lemma one_session_at_a_time_witness :
  let w := perform_all [StartTracking "A7"; Wait 1012000; StartTracking "B2"]
             sample_world in
  (length (steps (timers w)) ≤ 4)%nat ∧
  ∃ x start k,
    steps (timers w) `suffix_of` ladder x start k ∧
    (steps (timers w) ≠ [] → currentOrderId w = Some x).
Proof.
  apply (one_session_at_a_time
           [StartTracking "A7"; Wait 1012000; StartTracking "B2"]
           1000000 (Json [other_order; sample_order]) (λ _, true) Granted).
Defined.

(** ** No notification without a save *)

Lemma notices_backed_nil : notices_backed [].
Proof. by intros i ????. Qed.

Lemma notices_backed_app tr ev :
  notices_backed tr → notices_backed ev → notices_backed (tr ++ ev).
Proof.
  intros Htr Hev i title body icon Hi.
  destruct (decide (i < length tr)%nat) as [Hlt|Hge].
  - rewrite lookup_app_l in Hi by done.
    destruct (Htr i title body icon Hi) as (j & d & -> & Hj & Ha).
    exists j, d. split; [done|]. split; [|done].
    rewrite lookup_app_l by lia. done.
  - rewrite lookup_app_r in Hi by lia.
    destruct (Hev _ title body icon Hi) as (j & d & Ei & Hj & Ha).
    exists (length tr + j)%nat, d. split; [lia|]. split; [|done].
    rewrite lookup_app_r by lia. rewrite <- Hj. f_equal. lia.
Qed.

(** A block of events without a notification. *)
Lemma notices_backed_quiet ev :
  (∀ e, e ∈ ev → ∀ title body icon, e ≠ Notified title body icon) →
  notices_backed ev.
Proof.
  intros Hq i title body icon Hi.
  apply list_elem_of_lookup_2 in Hi.
  destruct (Hq _ Hi title body icon eq_refl).
Qed.

(** A block that ends with a save and, if permitted, its notice. *)
Lemma notices_backed_saved pre d title body icon w :
  (∀ e, e ∈ pre → ∀ t b i, e ≠ Notified t b i) →
  announces d title body →
  notices_backed ((pre ++ [Saved d]) ++ notice title body icon w).
Proof.
  intros Hq Ha. unfold notice. destruct (bool_decide _).
  - intros i t b ic Hi.
    destruct (decide (i < length (pre ++ [Saved d]))%nat) as [Hlt|Hge].
    + rewrite lookup_app_l in Hi by done.
      apply list_elem_of_lookup_2 in Hi.
      apply elem_of_app in Hi as [Hi|Hi%list_elem_of_singleton];
        [destruct (Hq _ Hi t b ic eq_refl)|done].
    + rewrite lookup_app_r in Hi by lia.
      rewrite List.length_app in *. cbn [length] in *.
      destruct (i - (length pre + 1))%nat as [|n] eqn:En; [|done].
      injection Hi as <- <- <-. exists (length pre), d.
      split; [lia|]. split; [|done].
      rewrite lookup_app_l by (rewrite List.length_app; cbn; lia).
      by rewrite list_lookup_middle.
  - rewrite app_nil_r. apply notices_backed_quiet.
    intros e [He|He%list_elem_of_singleton]%elem_of_app; [by apply Hq|].
    by subst.
Qed.

Lemma backed_read w : notices_backed (trace w) → notices_backed (trace (read w)).
Proof.
  intros Hw. apply notices_backed_app; [done|].
  apply notices_backed_quiet. by intros e ->%list_elem_of_singleton.
Qed.

Lemma backed_saveOrderStatus x st ts w :
  notices_backed (trace w) →
  notices_backed (trace (after (saveOrderStatus x st ts w))).
Proof.
  intros Hw. rewrite saveOrderStatus_eq.
  destruct (stored (slot w)) as [orders|]; [|by apply backed_read].
  cbv zeta. destruct (quota w _); [|by apply backed_read].
  apply notices_backed_app; [done|]. apply notices_backed_quiet.
  intros e He. repeat (apply elem_of_cons in He as [->|He]; [done|]).
  by apply elem_of_nil in He.
Qed.

Lemma backed_startOrderTracking x w :
  notices_backed (trace w) →
  notices_backed (trace (after (startOrderTracking x w))).
Proof.
  intros Hw. rewrite startOrderTracking_cases.
  assert (notices_backed (trace (read (entered x w)))) as Hfail.
  { apply backed_read. apply notices_backed_app; [done|].
    apply notices_backed_quiet. by intros e ->%list_elem_of_singleton. }
  destruct (stored (slot w)) as [orders|]; [|done].
  destruct (quota w _); [|done].
  cbn [after started trace]. rewrite <- (assoc_L (++)).
  apply notices_backed_app; [done|].
  apply (notices_backed_saved [Tracking x; GetItem; SetItem _]).
  - intros e He. repeat (apply elem_of_cons in He as [->|He]; [done|]).
    by apply elem_of_nil in He.
  - by left.
Qed.

Lemma backed_fire t w :
  notices_backed (trace w) → notices_backed (trace (fire t w)).
Proof.
  intros Hw.
  assert (∀ e, notices_backed
                 (trace w ++ [Fired (callback t); GetItem; Uncaught e]))
    as Hfail.
  { intros e. apply notices_backed_app; [done|]. apply notices_backed_quiet.
    intros e' He. repeat (apply elem_of_cons in He as [->|He]; [done|]).
    by apply elem_of_nil in He. }
  destruct (callback t) as [x s|n] eqn:E.
  - rewrite (fire_step t x s) by done. cbv zeta.
    destruct (stored (slot w)) as [orders|];
      [|cbn [stumbled trace]; rewrite E; apply Hfail].
    destruct (quota w _); [|cbn [stumbled trace]; rewrite E; apply Hfail].
    cbn [advanced trace]. rewrite <- (assoc_L (++)).
    apply notices_backed_app; [done|].
    apply (notices_backed_saved [Fired (callback t); GetItem; SetItem _]).
    + intros e He. repeat (apply elem_of_cons in He as [->|He]; [done|]).
      by apply elem_of_nil in He.
    + right. by exists s.
  - rewrite (fire_close t n) by done. cbn [dequeued trace].
    apply notices_backed_app; [done|]. apply notices_backed_quiet.
    by intros e ->%list_elem_of_singleton.
Qed.

Lemma backed_perform op w :
  notices_backed (trace w) → notices_backed (trace (perform op w)).
Proof.
  intros Hw. destruct op as [x|x st ts|x| |T]; cbn [perform].
  - by apply backed_startOrderTracking.
  - by apply backed_saveOrderStatus.
  - rewrite getOrderStatus_eq.
    by destruct (stored (slot w)); apply backed_read.
  - rewrite checkExistingOrders_eq.
    destruct (stored (slot w)); [|by apply backed_read].
    destruct (sort _ _) as [|latestOrder ?]; [by apply backed_read|].
    apply backed_read in Hw. revert Hw. generalize (read w).
    intros w' Hw'. unfold resume.
    repeat (destruct (decide _);
            [first [ by apply backed_startOrderTracking
                   | apply (after_bind (λ v, notices_backed (trace v)));
                     [by apply backed_saveOrderStatus
                     |intros _ v; apply backed_startOrderTracking] ] |]).
    done.
  - apply (elapse_ind (λ v, notices_backed (trace v))); [| |done].
    + intros v t Hv _ _. by apply backed_fire.
    + by intros v Hv _.
Qed.

(** X8: the user is never told of a status that was not saved.  In
    every trace the page can produce from a fresh load, each
    notification comes immediately after the [saveOrderStatus] of the
    status and id that its title and body announce: a transition whose
    write fails shows nothing. *)
Theorem no_notification_without_save ops now s q p i title body icon :
  let tr := trace (perform_all ops (page_load now s q p)) in
  tr !! i = Some (Notified title body icon) →
  ∃ j d, i = S j ∧ tr !! j = Some (Saved d) ∧ announces d title body.
Proof.
  assert (∀ w, notices_backed (trace w) →
               notices_backed (trace (perform_all ops w))) as Hgen.
  { induction ops as [|op ops IH]; intros w Hw; [done|].
    cbn [perform_all foldl]. by apply IH, backed_perform. }
  apply (Hgen (page_load now s q p)). apply notices_backed_nil.
Qed.

Lemma no_notification_without_save_witness :
  ∃ j d,
    trace (perform_all [StartTracking "A7"] sample_world) !! j
      = Some (Saved d) ∧
    announces d placed_title (placed_body "A7").
Proof.
  destruct (no_notification_without_save [StartTracking "A7"] 1000000
              (Json [other_order; sample_order]) (λ _, true) Granted
              4 placed_title (placed_body "A7") default_icon eq_refl)
    as (j & d & _ & Hj & Ha).
  exists j, d. split; [exact Hj|exact Ha].
Defined.

(** ** Timestamps never lie in the future *)

Lemma timely_same w w' :
  slot w' = slot w → clock w ≤ clock w' →
  timely_records w → timely_records w'.
Proof.
  intros Es Ec Hw orders r Hs Hr. rewrite Es in Hs.
  destruct (Hw orders r Hs Hr). lia.
Qed.

Lemma timely_upsert w w' d orders :
  stored (slot w) = Some orders → slot w' = Json (upsert d orders) →
  clock w ≤ clock w' → timestamp d ≤ lastUpdate d → lastUpdate d ≤ clock w' →
  timely_records w → timely_records w'.
Proof.
  intros Hs Es Ec Hd1 Hd2 Hw orders' r Hs' Hr. rewrite Es in Hs'.
  injection Hs' as <-. apply elem_of_upsert in Hr as [->|Hr]; [done|].
  destruct (Hw orders r Hs Hr). lia.
Qed.

Lemma timely_saveOrderStatus x st ts w :
  ts ≤ clock w → timely_records w →
  timely_records (after (saveOrderStatus x st ts w)).
Proof.
  intros Hts Hw. rewrite saveOrderStatus_eq.
  destruct (stored (slot w)) as [orders|] eqn:Hs;
    [|by apply (timely_same w)].
  cbv zeta. destruct (quota w _); [|by apply (timely_same w)].
  by eapply (timely_upsert w _ (order x st ts (clock w))).
Qed.

Lemma timely_startOrderTracking x w :
  timely_records w → timely_records (after (startOrderTracking x w)).
Proof.
  intros Hw. rewrite startOrderTracking_cases.
  destruct (stored (slot w)) as [orders|] eqn:Hs;
    [|by apply (timely_same w)].
  destruct (quota w _); [|by apply (timely_same w)].
  by eapply (timely_upsert w _
               (order x ORDER_STATUSES.PLACED (clock w) (clock w))).
Qed.

Lemma timely_fire t w : timely_records w → timely_records (fire t w).
Proof.
  intros Hw. pose proof (clock_fire t w) as Hc.
  destruct (callback t) as [x s|n] eqn:E.
  - rewrite (fire_step t x s) in * by done. cbv zeta in *.
    destruct (stored (slot w)) as [orders|] eqn:Hs;
      [|apply (timely_same w); [done|lia|done]].
    destruct (quota w _); [|apply (timely_same w); [done|lia|done]].
    eapply (timely_upsert w _ _ orders); [done|done|lia| |done|done].
    cbn. lia.
  - rewrite (fire_close t n) in * by done.
    apply (timely_same w); [done|lia|done].
Qed.

Lemma timely_resume latestOrder w :
  timely_records w →
  timely_records (after (resume (clock w) latestOrder w)).
Proof.
  intros Hw. unfold resume. timings.
  repeat (destruct (decide _);
          [first [ by apply timely_startOrderTracking
                 | apply (after_bind timely_records);
                   [apply timely_saveOrderStatus; [lia|done]
                   |intros _ v; apply timely_startOrderTracking] ] |]).
  done.
Qed.

Lemma timely_perform op w :
  ¬ is_persist op → timely_records w → timely_records (perform op w).
Proof.
  intros Hop Hw. destruct op as [x|x st ts|x| |T]; cbn [perform].
  - by apply timely_startOrderTracking.
  - by destruct Hop.
  - rewrite getOrderStatus_eq.
    by destruct (stored (slot w)); apply (timely_same w).
  - rewrite checkExistingOrders_eq.
    destruct (stored (slot w)); [|by apply (timely_same w)].
    destruct (sort _ _) as [|latestOrder ?]; [by apply (timely_same w)|].
    apply (timely_resume latestOrder (read w)). by apply (timely_same w).
  - apply (elapse_ind timely_records); [| |done].
    + intros v t Hv _ _. by apply timely_fire.
    + intros v Hv _. apply (timely_same v); [done|cbn; lia|done].
Qed.

(** X9: the tracker never dates a record in the future.  If every
    stored record has [timestamp <= lastUpdate <= now], this still
    holds after any sequence of start tracking, get status, resume on
    load and waits, the backdated writes of resume on load included.
    (A direct persist status call is left out: there the caller
    chooses the timestamp.) *)
Theorem timestamps_never_in_future ops w :
  timely_records w →
  Forall (λ op, ¬ is_persist op) ops →
  timely_records (perform_all ops w).
Proof.
  intros Hw Hops. revert w Hw.
  induction Hops as [|op ops Hop _ IH]; intros w Hw; [done|].
  cbn [perform_all foldl]. by apply IH, timely_perform.
Qed.

Lemma timestamps_never_in_future_witness :
  timely_records
    (perform_all [StartTracking "A7"; Wait 1012000; ResumeOnLoad;
                  Wait 1030000; GetStatus "B2"] sample_world).
Proof.
  apply timestamps_never_in_future.
  - intros orders r [= <-] Hr.
    repeat (apply elem_of_cons in Hr as [->|Hr];
            [split; vm_compute; discriminate|]).
    by apply elem_of_nil in Hr.
  - repeat constructor; exact (λ H, H).
Defined.

(** ** Which order is resumed *)

(** The first element of the sorted array is the first record with the
    greatest timestamp. *)
Lemma sort_head_first_max l h rest :
  sort (λ a b : Order, timestamp b - timestamp a) l = h :: rest →
  ∃ l1 l2, l = l1 ++ h :: l2 ∧
           (∀ o, o ∈ l1 → timestamp o < timestamp h) ∧
           (∀ o, o ∈ l2 → timestamp o ≤ timestamp h).
Proof.
  revert h rest. induction l as [|x l IH]; intros h rest; [done|].
  unfold sort. cbn [foldr]. fold (sort (λ a b : Order, timestamp b - timestamp a) l).
  destruct (sort (λ a b : Order, timestamp b - timestamp a) l) as [|h' r'] eqn:E.
  - apply sort_nil_inv in E as ->. cbn. intros [= <- <-].
    exists [], []. split; [done|]. split; by intros o ?%elem_of_nil.
  - destruct (IH h' r' eq_refl) as (a & b & -> & Ha & Hb).
    cbn [sort_insert]. destruct (decide _) as [Hle|Hgt]; intros [= <- <-].
    + exists [], (a ++ h' :: b). split; [done|].
      split; [by intros o ?%elem_of_nil|].
      intros o [Ho|[->|Ho]%elem_of_cons]%elem_of_app.
      * specialize (Ha o Ho). lia.
      * lia.
      * specialize (Hb o Ho). lia.
    + exists (x :: a), b. split; [done|]. split; [|done].
      intros o [->|Ho]%elem_of_cons; [lia|auto].
Qed.

Lemma sort_first_max_head a o b :
  (∀ o', o' ∈ a → timestamp o' < timestamp o) →
  (∀ o', o' ∈ b → timestamp o' ≤ timestamp o) →
  ∃ rest, sort (λ a b : Order, timestamp b - timestamp a) (a ++ o :: b) = o :: rest.
Proof.
  intros Ha Hb. induction a as [|x a IH].
  - unfold sort. cbn [app foldr]. fold (sort (λ a b : Order, timestamp b - timestamp a) b).
    destruct (sort (λ a b : Order, timestamp b - timestamp a) b) as [|h r] eqn:E; [by eexists|].
    assert (h ∈ b) as Hh.
    { eapply elem_of_sort. rewrite E. apply list_elem_of_here. }
    specialize (Hb h Hh). cbn [sort_insert].
    rewrite decide_True by lia. by eexists.
  - destruct IH as [rest E]; [set_solver|].
    unfold sort. cbn [app foldr]. fold (sort (λ a b : Order, timestamp b - timestamp a) (a ++ o :: b)).
    rewrite E. cbn [sort_insert].
    assert (timestamp x < timestamp o) by set_solver.
    rewrite decide_False by lia. by eexists.
Qed.

Lemma filter_split_active now l1 o l2 :
  is_active now o →
  filter (is_active now) (l1 ++ o :: l2)
  = filter (is_active now) l1 ++ o :: filter (is_active now) l2.
Proof. intros Ho. by rewrite filter_app, filter_cons_True. Qed.

(** What [checkExistingOrders] does when the sorted array starts with
    [latestOrder]. *)
Lemma checkExistingOrders_latest w orders latestOrder rest :
  stored (slot w) = Some orders →
  sort (λ a b : Order, timestamp b - timestamp a) (filter (is_active (clock w)) orders)
  = latestOrder :: rest →
  checkExistingOrders w = resume (clock w) latestOrder (read w).
Proof. intros Hs E. by rewrite checkExistingOrders_eq, Hs, E. Qed.

(** X10: resume on load only ever starts tracking the most recent
    active order.  If the call starts tracking an id, that id belongs
    to a stored record that passes the activity filter and whose
    timestamp is at least that of every other active record. *)
Theorem resume_picks_most_recent w orders :
  stored (slot w) = Some orders →
  ∃ ev,
    trace (after (checkExistingOrders w)) = trace w ++ ev ∧
    ∀ x, Tracking x ∈ ev →
      ∃ o, o ∈ orders ∧ id o = x ∧ is_active (clock w) o ∧
           ∀ o', o' ∈ orders → is_active (clock w) o' →
                 timestamp o' ≤ timestamp o.
Proof.
  intros Hs.
  destruct (sort (λ a b : Order, timestamp b - timestamp a) (filter (is_active (clock w)) orders))
    as [|latestOrder rest] eqn:E.
  - rewrite checkExistingOrders_eq, Hs, E. exists [GetItem].
    split; [done|]. by intros x ?%list_elem_of_singleton.
  - rewrite (checkExistingOrders_latest w orders latestOrder rest) by done.
    destruct (only_for_trans _ _ _ _ (only_for_read (id latestOrder) w)
                (only_for_resume (clock w) latestOrder (read w)))
      as ((ev & Etr & Hev) & _ & _).
    exists ev. split; [done|]. intros x Hx.
    assert (x = id latestOrder) as -> by (by eapply (Hev (Tracking x))).
    destruct (sort_head_first_max _ _ _ E) as (l1 & l2 & El & H1 & H2).
    assert (latestOrder ∈ filter (is_active (clock w)) orders) as Hin.
    { rewrite El. set_solver. }
    apply list_elem_of_filter in Hin as [Hact Hin].
    exists latestOrder. split; [done|]. split; [done|]. split; [done|].
    intros o' Ho' Hact'.
    assert (o' ∈ filter (is_active (clock w)) orders) as Hf
      by by apply list_elem_of_filter.
    rewrite El in Hf.
    apply elem_of_app in Hf as [Hf|[->|Hf]%elem_of_cons].
    + specialize (H1 o' Hf). lia.
    + lia.
    + by apply H2.
Qed.

Lemma resume_picks_most_recent_witness :
  ∃ ev,
    trace (after (checkExistingOrders sample_world))
      = trace sample_world ++ ev ∧
    ∀ x, Tracking x ∈ ev →
      ∃ o, o ∈ [other_order; sample_order] ∧ id o = x ∧
           is_active 1000000 o.
Proof.
  destruct (resume_picks_most_recent sample_world
              [other_order; sample_order] eq_refl) as (ev & Htr & Hev).
  exists ev. split; [exact Htr|]. intros x Hx.
  destruct (Hev x Hx) as (o & Ho & Hid & Hact & _).
  exists o. split; [exact Ho|]. split; [exact Hid|exact Hact].
Defined.

(** X11: ties go to the record stored first.  When the first active
    record with the greatest timestamp is [o] (every active record
    before it is strictly older, none after it is newer), resume on
    load starts tracking no id but that of [o]. *)
Theorem resume_tie_goes_to_first w l1 o l2 :
  stored (slot w) = Some (l1 ++ o :: l2) →
  is_active (clock w) o →
  (∀ o', o' ∈ l1 → is_active (clock w) o' → timestamp o' < timestamp o) →
  (∀ o', o' ∈ l2 → is_active (clock w) o' → timestamp o' ≤ timestamp o) →
  ∃ ev,
    trace (after (checkExistingOrders w)) = trace w ++ ev ∧
    ∀ x, Tracking x ∈ ev → x = id o.
Proof.
  intros Hs Ho H1 H2.
  destruct (sort_first_max_head (filter (is_active (clock w)) l1) o
              (filter (is_active (clock w)) l2)) as [rest E].
  { intros o' [? ?]%list_elem_of_filter. auto. }
  { intros o' [? ?]%list_elem_of_filter. auto. }
  rewrite <- filter_split_active in E by done.
  rewrite (checkExistingOrders_latest w _ o rest) by done.
  destruct (only_for_trans _ _ _ _ (only_for_read (id o) w)
              (only_for_resume (clock w) o (read w)))
    as ((ev & Etr & Hev) & _ & _).
  exists ev. split; [done|]. intros x Hx. by eapply (Hev (Tracking x)).
Qed.

Lemma resume_tie_goes_to_first_witness :
  ∃ ev,
    trace (after (checkExistingOrders twin_world)) = trace twin_world ++ ev ∧
    ∀ x, Tracking x ∈ ev → x = id twin_first.
Proof.
  apply (resume_tie_goes_to_first twin_world [] twin_first [twin_second]).
  - reflexivity.
  - split; [vm_compute; reflexivity|vm_compute; discriminate].
  - intros o' Ho'. by apply elem_of_nil in Ho'.
  - intros o' Ho' _. apply list_elem_of_singleton in Ho'. subst o'.
    vm_compute. discriminate.
Defined.

(** ** Resuming in every window *)

Lemma most_recent_active_head now orders latestOrder :
  most_recent_active now orders latestOrder →
  ∃ rest,
    sort (λ a b : Order, timestamp b - timestamp a)
         (filter (is_active now) orders) = latestOrder :: rest.
Proof.
  intros (Hin & Hact & Hmax).
  apply list_elem_of_split_l in Hin as (l1 & l2 & -> & Hnot).
  rewrite filter_split_active by done.
  apply sort_first_max_head.
  - intros o [Ho Hin]%list_elem_of_filter. apply Hmax; [set_solver|done|].
    by intros ->.
  - intros o [Ho Hin]%list_elem_of_filter.
    destruct (decide (o = latestOrder)) as [->|Hne]; [lia|].
    apply Z.lt_le_incl, Hmax; [set_solver|done|done].
Qed.

Lemma save_then_start x st ts w orders :
  stored (slot w) = Some orders → unlimited w →
  (saveOrderStatus x st ts ;; startOrderTracking x) w
  = Returned tt (started x (upsert (order x st ts (clock w)) orders)
                   (saved (order x st ts (clock w)) orders w)).
Proof.
  intros Hs Hq. unfold bind. rewrite saveOrderStatus_eq, Hs. cbv zeta.
  rewrite Hq. rewrite startOrderTracking_cases.
  change (stored (slot (saved (order x st ts (clock w)) orders w)))
    with (Some (upsert (order x st ts (clock w)) orders)).
  cbv beta iota.
  change (quota (saved (order x st ts (clock w)) orders w)) with (quota w).
  by rewrite Hq.
Qed.

Lemma saves_of_saved x d orders w :
  id d = x →
  saves_of x (trace (saved d orders w)) = saves_of x (trace w) ++ [d].
Proof.
  intros E. cbn [saved trace]. rewrite saves_of_app. f_equal.
  cbn. by rewrite decide_True.
Qed.

Lemma saves_of_read x w : saves_of x (trace (read w)) = saves_of x (trace w).
Proof. cbn [read trace]. rewrite saves_of_app. apply app_nil_r. Qed.

(** The state after a backdated write followed by a restart. *)
Lemma restarted_after_write x d orders w :
  wf w → id d = x →
  let placed := order x ORDER_STATUSES.PLACED (clock w) (clock w) in
  let w' := started x (upsert d orders) (saved d orders w) in
  saves_of x (trace w') = saves_of x (trace w) ++ [d] ++ [placed] ∧
  stored (slot w') = Some (upsert placed (upsert d orders)) ∧
  currentOrderId w' = Some x ∧
  steps (timers w') = ladder x (clock w) (handle_after_notice w).
Proof.
  intros Hw E placed w'. split; [|split; [|split]].
  - subst w'. rewrite started_saves, saves_of_saved by done.
    rewrite decide_True by done. by rewrite <- (assoc_L (++)).
  - done.
  - done.
  - assert (wf (saved d orders w)) as Hw1 by exact Hw.
    subst w'. by rewrite steps_started.
Qed.

Lemma restarted_directly x orders w :
  wf w →
  let placed := order x ORDER_STATUSES.PLACED (clock w) (clock w) in
  let w' := started x orders (read w) in
  saves_of x (trace w') = saves_of x (trace w) ++ [placed] ∧
  stored (slot w') = Some (upsert placed orders) ∧
  currentOrderId w' = Some x ∧
  steps (timers w') = ladder x (clock w) (handle_after_notice w).
Proof.
  intros Hw placed w'. split; [|split; [|split]].
  - subst w'. rewrite started_saves. rewrite decide_True by done.
    cbn [read trace]. rewrite saves_of_app. cbn [saves_of omap].
    by rewrite app_nil_r.
  - done.
  - done.
  - assert (wf (read w)) as Hw1 by exact Hw.
    subst w'. by rewrite steps_started.
Qed.

(** X12: what resume on load does in each of the four windows.  For
    the one most recent active record, less than 45 s after its
    [timestamp]: in the first 10 s nothing is written before the
    restart; from 10 s, 20 s and 30 s on, 'Preparing', 'Ready for
    Pickup' and 'On the Way' is saved first with the nominal start
    [timestamp + 10000], [+ 20000], [+ 30000].  In every window the
    order is then restarted from the top: the record ends as
    'Order Placed' at the current time, the id becomes the current
    one, and all four transitions are pending at their full delays
    from now. *)
Theorem resume_restarts_in_every_window w orders latestOrder :
  wf w →
  unlimited w →
  stored (slot w) = Some orders →
  most_recent_active (clock w) orders latestOrder →
  clock w - timestamp latestOrder < 45000 →
  let placed :=
    {| id := id latestOrder; status := ORDER_STATUSES.PLACED;
       timestamp := clock w; lastUpdate := clock w |} in
  ∃ w',
    checkExistingOrders w = Returned tt w' ∧
    saves_of (id latestOrder) (trace w')
    = saves_of (id latestOrder) (trace w)
      ++ backdated_record latestOrder (clock w) ++ [placed] ∧
    getOrderStatus (id latestOrder) w' = Returned (Some placed) (read w') ∧
    currentOrderId w' = Some (id latestOrder) ∧
    (λ t, (due t, callback t)) <$> steps (timers w') =
      [ (clock w + 10000, Advance (id latestOrder) ToPreparing);
        (clock w + 20000, Advance (id latestOrder) ToReady);
        (clock w + 30000, Advance (id latestOrder) ToOnWay);
        (clock w + 45000, Advance (id latestOrder) ToDelivered) ].
Proof.
  intros Hw Hq Hs Hmost Hlt placed.
  destruct (most_recent_active_head _ _ _ Hmost) as [rest E].
  rewrite (checkExistingOrders_latest w orders latestOrder rest Hs E).
  assert (∀ w' os,
    stored (slot w') = Some (upsert placed os) →
    getOrderStatus (id latestOrder) w' = Returned (Some placed) (read w'))
    as Hget.
  { intros w' os Hs'. rewrite getOrderStatus_eq, Hs'.
    by rewrite (find_upsert placed). }
  assert (wf (read w)) as Hw1 by exact Hw.
  assert (unlimited (read w)) as Hq1 by exact Hq.
  assert (stored (slot (read w)) = Some orders) as Hs1 by exact Hs.
  assert (∀ st ts,
    let d := order (id latestOrder) st ts (clock w) in
    ∃ w',
      (saveOrderStatus (id latestOrder) st ts ;;
       startOrderTracking (id latestOrder)) (read w) = Returned tt w' ∧
      saves_of (id latestOrder) (trace w')
      = saves_of (id latestOrder) (trace w) ++ [d] ++ [placed] ∧
      getOrderStatus (id latestOrder) w' = Returned (Some placed) (read w') ∧
      currentOrderId w' = Some (id latestOrder) ∧
      (λ t, (due t, callback t)) <$> steps (timers w') =
        [ (clock w + 10000, Advance (id latestOrder) ToPreparing);
          (clock w + 20000, Advance (id latestOrder) ToReady);
          (clock w + 30000, Advance (id latestOrder) ToOnWay);
          (clock w + 45000, Advance (id latestOrder) ToDelivered) ]) as Hwin.
  { intros st ts d.
    rewrite (save_then_start _ _ _ _ orders Hs1 Hq1).
    destruct (restarted_after_write (id latestOrder) d orders (read w)
                Hw1 eq_refl) as (H1 & H2 & H3 & H4).
    rewrite saves_of_read in H1.
    exists (started (id latestOrder) (upsert d orders)
              (saved d orders (read w))).
    split; [reflexivity|]. split; [exact H1|].
    split; [by eapply Hget|]. split; [done|]. by rewrite H4. }
  unfold resume, backdated_record. timings.
  change (clock (read w)) with (clock w).
  repeat (destruct (decide _) as [?|?]); try lia.
  - rewrite startOrderTracking_cases, Hs1.
    change (quota (read w)) with (quota w). rewrite Hq.
    destruct (restarted_directly (id latestOrder) orders w Hw)
      as (H1 & H2 & H3 & H4).
    eexists. split; [done|]. split; [exact H1|]. split; [by eapply Hget|].
    split; [done|]. by rewrite H4.
  - by apply Hwin.
  - by apply Hwin.
  - by apply Hwin.
Qed.

Lemma resume_restarts_in_every_window_witness :
  ∃ w',
    checkExistingOrders sample_world = Returned tt w' ∧
    saves_of "A7" (trace w')
    = [ {| id := "A7"; status := ORDER_STATUSES.PREPARING;
           timestamp := 998000; lastUpdate := 1000000 |};
        {| id := "A7"; status := ORDER_STATUSES.PLACED;
           timestamp := 1000000; lastUpdate := 1000000 |} ] ∧
    currentOrderId w' = Some "A7".
Proof.
  assert (most_recent_active (clock sample_world)
            [other_order; sample_order] sample_order) as Hmost.
  { split; [right; left|split].
    - split; [vm_compute; reflexivity|vm_compute; discriminate].
    - intros o Ho Hact Hne. exfalso.
      apply elem_of_cons in Ho as [->|Ho].
      + destruct Hact as [Hlt _]. vm_compute in Hlt. discriminate.
      + apply list_elem_of_singleton in Ho. contradiction. }
  destruct (resume_restarts_in_every_window sample_world
              [other_order; sample_order] sample_order
              (wf_page_load _ _ _ _) (λ _, eq_refl) eq_refl Hmost
              ltac:(vm_compute; reflexivity))
    as (w' & Hrun & Hsaves & _ & Hcur & _).
  exists w'. split; [exact Hrun|]. split; [exact Hsaves|exact Hcur].
Defined.

(** X13: the last window has no else branch.  When the most recent
    active record's [timestamp] lies 45 s or more back (the record was
    written less than 45 s ago, so it passed the filter), resume on
    load does nothing but its one read: no write, no tracking, no
    timer, and the record stays short of 'Delivered'. *)
Theorem overdue_order_not_resumed w orders latestOrder :
  stored (slot w) = Some orders →
  most_recent_active (clock w) orders latestOrder →
  45000 ≤ clock w - timestamp latestOrder →
  checkExistingOrders w = Returned tt (read w).
Proof.
  intros Hs Hmost Hold.
  destruct (most_recent_active_head _ _ _ Hmost) as [rest E].
  rewrite (checkExistingOrders_latest w orders latestOrder rest Hs E).
  unfold resume. timings. change (clock (read w)) with (clock w).
  by rewrite !decide_False by lia.
Qed.

Lemma overdue_order_not_resumed_witness :
  checkExistingOrders late_world = Returned tt (read late_world).
Proof.
  apply (overdue_order_not_resumed late_world [late_order] late_order).
  - reflexivity.
  - split; [left|split].
    + split; [vm_compute; reflexivity|vm_compute; discriminate].
    + intros o Ho _ Hne. apply list_elem_of_singleton in Ho. contradiction.
  - vm_compute. discriminate.
Defined.

(** ** Completed orders *)

(** A record the activity filter rejects is left alone by
    [checkExistingOrders]. *)
Lemma filtered_record_untouched w orders r :
  stored (slot w) = Some orders →
  NoDup (id <$> orders) →
  r ∈ orders →
  ¬ is_active (clock w) r →
  ∃ x, x ≠ id r ∧ only_for x w (after (checkExistingOrders w)).
Proof.
  intros Hs Hnd Hr Hrej.
  rewrite checkExistingOrders_eq, Hs.
  destruct (sort _ _) as [|latestOrder rest] eqn:Hsort.
  - exists ("!" +:+ id r). split; [|apply only_for_read].
    intros E. apply (f_equal String.length) in E.
    rewrite length_app in E. cbn in E. lia.
  - exists (id latestOrder). split.
    + assert (latestOrder ∈ filter (is_active (clock w)) orders) as Hin.
      { eapply elem_of_sort. rewrite Hsort. apply list_elem_of_here. }
      apply list_elem_of_filter in Hin as [Hact Hin].
      intros E. assert (latestOrder = r) as ->; [|done].
      apply list_elem_of_lookup in Hin as [i Hi].
      apply list_elem_of_lookup in Hr as [j Hj].
      assert (i = j) as ->; [|congruence].
      apply (NoDup_lookup _ i j (id r) Hnd);
        rewrite list_lookup_fmap; [rewrite Hi|rewrite Hj]; cbn; congruence.
    + eapply only_for_trans; [apply only_for_read|].
      apply only_for_resume.
Qed.

(** X14: a delivered order is never resumed, however recently it was
    delivered.  In a collection with one record per id, whatever
    [checkExistingOrders] does it does for another id: no event it adds
    is about the delivered order (no tracking, no save, no
    notification text), no transition timer is added for it, and its
    record is still stored, still 'Delivered'. *)
Theorem delivered_order_never_resumed w orders r :
  stored (slot w) = Some orders →
  NoDup (id <$> orders) →
  r ∈ orders →
  status r = ORDER_STATUSES.DELIVERED →
  let w' := after (checkExistingOrders w) in
  ∃ ev orders',
    trace w' = trace w ++ ev ∧
    (∀ e, e ∈ ev → ¬ concerns (id r) e) ∧
    (∀ t s, t ∈ timers w' → callback t = Advance (id r) s → t ∈ timers w) ∧
    stored (slot w') = Some orders' ∧
    r ∈ orders'.
Proof.
  intros Hs Hnd Hr Hst w'.
  destruct (filtered_record_untouched w orders r Hs Hnd Hr)
    as (x & Hx & (ev & Etr & Hev) & Htm & Hst').
  { by intros [_ Hne]. }
  destruct (Hst' orders Hs) as (orders' & Hs' & Hkeep).
  assert (r ∈ orders') as Hin by (apply Hkeep; [done|congruence]).
  exists ev, orders'. split; [done|]. split; [|split; [|split]].
  - intros e He Hc. apply Hx. symmetry. by eapply Hev.
  - intros t s Ht Hcb. destruct (Htm t (id r) s Ht Hcb); [|done].
    by destruct Hx.
  - done.
  - done.
Qed.

Lemma delivered_order_never_resumed_witness :
  ∃ ev orders',
    trace (after (checkExistingOrders done_world)) = trace done_world ++ ev ∧
    (∀ e, e ∈ ev → ¬ concerns "D4" e) ∧
    stored (slot (after (checkExistingOrders done_world))) = Some orders' ∧
    done_order ∈ orders'.
Proof.
  assert (NoDup (id <$> [done_order; sample_order])) as Hnd.
  { apply (bool_decide_unpack _). vm_compute. exact I. }
  destruct (delivered_order_never_resumed done_world
              [done_order; sample_order] done_order eq_refl Hnd
              (list_elem_of_here _ _) eq_refl)
    as (ev & orders' & Htr & Hev & _ & Hs & Hin).
  exists ev, orders'. split; [exact Htr|]. split; [exact Hev|].
  split; [exact Hs|exact Hin].
Defined.

(** ** Invariants of every operation *)

(** A property kept by each elementary state change is kept by every
    operation of the page. *)
Lemma perform_invariant (R : World → Prop) :
  (∀ w, R w → R (read w)) →
  (∀ w d orders, R w → R (saved d orders w)) →
  (∀ w x, R w → R (entered x w)) →
  (∀ w x orders, R w → R (started x orders w)) →
  (∀ w t, R w → R (dequeued t w)) →
  (∀ w t x s orders, R w → callback t = Advance x s →
                     R (advanced t x s orders w)) →
  (∀ w t e, R w → R (stumbled t e w)) →
  (∀ w T, R w → R (idle T w)) →
  ∀ op w, R w → R (perform op w).
Proof.
  intros Hread Hsaved Hentered Hstarted Hdeq Hadv Hstum Hidle.
  assert (∀ x st ts w, R w → R (after (saveOrderStatus x st ts w))) as Hsave.
  { intros x st ts w Hw. rewrite saveOrderStatus_eq.
    destruct (stored (slot w)); [|by apply Hread]. cbv zeta.
    destruct (quota w _); [by apply Hsaved|by apply Hread]. }
  assert (∀ x w, R w → R (after (startOrderTracking x w))) as Hstart.
  { intros x w Hw. rewrite startOrderTracking_cases.
    destruct (stored (slot w)); [|by apply Hread, Hentered].
    destruct (quota w _); [by apply Hstarted|by apply Hread, Hentered]. }
  assert (∀ t w, R w → R (fire t w)) as Hfire.
  { intros t w Hw. destruct (callback t) as [x s|n] eqn:E.
    - rewrite (fire_step t x s) by done. cbv zeta.
      destruct (stored (slot w)); [|by apply Hstum].
      destruct (quota w _); [by apply Hadv|by apply Hstum].
    - rewrite (fire_close t n) by done. by apply Hdeq. }
  intros op w Hw. destruct op as [x|x st ts|x| |T]; cbn [perform].
  - by apply Hstart.
  - by apply Hsave.
  - rewrite getOrderStatus_eq. destruct (stored (slot w)); by apply Hread.
  - rewrite checkExistingOrders_eq.
    destruct (stored (slot w)); [|by apply Hread].
    destruct (sort _ _) as [|latestOrder ?]; [by apply Hread|].
    apply Hread in Hw. revert Hw. generalize (read w). intros w' Hw'.
    unfold resume.
    repeat (destruct (decide _);
            [first [ by apply Hstart
                   | apply (after_bind R);
                     [by apply Hsave|intros _ v Hv; by apply Hstart] ] |]).
    done.
  - apply (elapse_ind R); [| |done].
    + intros v t Hv _ _. by apply Hfire.
    + intros v Hv _. by apply Hidle.
Qed.

Lemma perform_all_invariant (R : World → Prop) :
  (∀ op w, R w → R (perform op w)) →
  ∀ ops w, R w → R (perform_all ops w).
Proof.
  intros Hstep ops. induction ops as [|op ops IH]; intros w Hw; [done|].
  cbn [perform_all foldl]. by apply IH, Hstep.
Qed.

(** ** Without permission *)

Lemma silent_grow w w' ev :
  permission w' = permission w →
  trace w' = trace w ++ ev →
  (∀ e, e ∈ ev → ¬ is_notice e) →
  (∀ t, t ∈ timers w' → t ∈ timers w ∨ is_step t) →
  shown w' = shown w →
  silent w → silent w'.
Proof.
  intros Ep Et Hev Htm Esh (Hp & Htr & Hts & Hsh).
  split; [by rewrite Ep|]. split; [|split; [|by rewrite Esh]].
  - intros e. rewrite Et. intros [He|He]%elem_of_app; [by apply Htr|].
    by apply Hev.
  - intros t Ht. destruct (Htm t Ht); [by apply Hts|done].
Qed.

Lemma silent_perform op w : silent w → silent (perform op w).
Proof.
  apply (perform_invariant silent); clear w.
  - intros w.
    eapply (silent_grow w);
      [done|cbn [read saved entered dequeued stumbled trace]; reflexivity
      |quiet|kept|done].
  - intros w d orders.
    eapply (silent_grow w);
      [done|cbn [read saved entered dequeued stumbled trace]; reflexivity
      |quiet|kept|done].
  - intros w x.
    eapply (silent_grow w);
      [done|cbn [read saved entered dequeued stumbled trace]; reflexivity
      |quiet|kept|done].
  - intros w x orders Hw. pose proof Hw as (Hp & _).
    revert Hw.
    eapply (silent_grow w); [done| | | |].
    + cbn [started trace]. unfold notice.
      rewrite bool_decide_eq_false_2 by done. rewrite app_nil_r.
      reflexivity.
    + quiet.
    + cbn [started timers]. unfold closer.
      rewrite bool_decide_eq_false_2 by done. rewrite app_nil_r.
      intros t [[_ Ht]%list_elem_of_filter|Ht]%elem_of_app; [by left|right].
      unfold ladder in Ht.
      repeat (apply elem_of_cons in Ht as [->|Ht]; [done|]).
      by apply elem_of_nil in Ht.
    + cbn [started shown]. by rewrite bool_decide_eq_false_2.
  - intros w t.
    eapply (silent_grow w);
      [done|cbn [read saved entered dequeued stumbled trace]; reflexivity
      |quiet|kept|done].
  - intros w t x s orders Hw Ecb. pose proof Hw as (Hp & _).
    revert Hw.
    eapply (silent_grow w); [done| | | |].
    + cbn [advanced trace]. unfold notice.
      rewrite bool_decide_eq_false_2 by done. rewrite app_nil_r.
      reflexivity.
    + quiet.
    + cbn [advanced timers].
      rewrite bool_decide_eq_false_2 by done. rewrite app_nil_r. kept.
    + cbn [advanced shown]. by rewrite bool_decide_eq_false_2.
  - intros w t e.
    eapply (silent_grow w);
      [done|cbn [read saved entered dequeued stumbled trace]; reflexivity
      |quiet|kept|done].
  - intros w T. destruct w as [c sl q p cur hs ts' nt sh tr].
    apply (silent_grow _ _ []); [done| |quiet|kept|done].
    cbn. by rewrite app_nil_r.
Qed.

(** X15: without permission the module is silent but keeps working.
    When [Notification.permission] is not 'granted' (or the API is
    missing), whatever the page does from a fresh load: no
    notification is ever constructed, no auto-close timer is ever
    pending (every pending timer is a status transition), and the
    count of shown notifications stays 0. *)
Theorem silent_without_permission ops now s q p :
  p ≠ Granted →
  let w := perform_all ops (page_load now s q p) in
  (∀ title body icon, Notified title body icon ∉ trace w) ∧
  (∀ t, t ∈ timers w → ∃ x s, callback t = Advance x s) ∧
  shown w = 0%nat.
Proof.
  intros Hp w.
  assert (silent w) as (_ & Htr & Hts & Hsh).
  { apply (perform_all_invariant silent); [apply silent_perform|].
    split; [done|]. split; [by intros e ?%elem_of_nil|].
    split; [by intros t ?%elem_of_nil|done]. }
  split; [|split; [|done]].
  - intros title body icon Hin. by apply (Htr _ Hin).
  - intros t Ht. specialize (Hts t Ht). unfold is_step in Hts.
    destruct (callback t) as [x st|n]; [by exists x, st|done].
Qed.

Lemma silent_without_permission_witness :
  let w := perform_all [StartTracking "A7"; Wait 1060000]
             (page_load 1000000 NoItem (λ _, true) Denied) in
  (∀ title body icon, Notified title body icon ∉ trace w) ∧
  (∀ t, t ∈ timers w → ∃ x s, callback t = Advance x s) ∧
  shown w = 0%nat.
Proof.
  apply (silent_without_permission [StartTracking "A7"; Wait 1060000]
           1000000 NoItem (λ _, true) Denied).
  discriminate.
Defined.

(** ** Invariants that need well-formed timers *)

Section Rules.

Variable R : World → Prop.
Hypothesis R_read : ∀ w, R w → R (read w).
Hypothesis R_saved : ∀ w d orders, R w → R (saved d orders w).
Hypothesis R_entered : ∀ w x, wf w → R w → R (entered x w).
Hypothesis R_started : ∀ w x orders, wf w → R w → R (started x orders w).
Hypothesis R_dequeued :
  ∀ w t n, wf w → R w → t ∈ timers w →
           callback t = CloseNotification n → R (dequeued t w).
Hypothesis R_advanced :
  ∀ w t x s orders, wf w → R w → t ∈ timers w →
                    callback t = Advance x s → R (advanced t x s orders w).
Hypothesis R_stumbled :
  ∀ w t x s e, wf w → R w → t ∈ timers w →
               callback t = Advance x s → R (stumbled t e w).
Hypothesis R_idle : ∀ w T, wf w → R w → R (idle T w).

Lemma rule_saveOrderStatus x st ts w :
  R w → R (after (saveOrderStatus x st ts w)).
Proof.
  intros Hw. rewrite saveOrderStatus_eq.
  destruct (stored (slot w)); [|by apply R_read]. cbv zeta.
  destruct (quota w _); [by apply R_saved|by apply R_read].
Qed.

Lemma rule_startOrderTracking x w :
  wf w → R w → R (after (startOrderTracking x w)).
Proof.
  intros Hwf Hw. rewrite startOrderTracking_cases.
  destruct (stored (slot w)); [|by apply R_read, R_entered].
  destruct (quota w _); [by apply R_started|by apply R_read, R_entered].
Qed.

Lemma rule_fire t w : wf w → R w → t ∈ timers w → R (fire t w).
Proof.
  intros Hwf Hw Hin. destruct (callback t) as [x s|n] eqn:E.
  - rewrite (fire_step t x s) by done. cbv zeta.
    destruct (stored (slot w)); [|by eapply R_stumbled].
    destruct (quota w _); [by apply R_advanced|by eapply R_stumbled].
  - rewrite (fire_close t n) by done. by eapply R_dequeued.
Qed.

Lemma rule_elapse T w : wf w → R w → wf (elapse T w) ∧ R (elapse T w).
Proof.
  intros Hwf Hw.
  apply (elapse_ind (λ v, wf v ∧ R v)); [| |done].
  - intros v t [Hv Hr] Hnext _. split; [by apply wf_fire|].
    apply rule_fire; [done|done|]. by apply next_timer_Some in Hnext as [? _].
  - intros v [Hv Hr] Hlate. split; [by apply wf_parts_idle|].
    by apply R_idle.
Qed.

Lemma rule_perform op w : wf w → R w → R (perform op w).
Proof.
  intros Hwf Hw. destruct op as [x|x st ts|x| |T]; cbn [perform].
  - by apply rule_startOrderTracking.
  - by apply rule_saveOrderStatus.
  - rewrite getOrderStatus_eq. destruct (stored (slot w)); by apply R_read.
  - rewrite checkExistingOrders_eq.
    destruct (stored (slot w)); [|by apply R_read].
    destruct (sort _ _) as [|latestOrder ?]; [by apply R_read|].
    assert (wf (read w) ∧ R (read w)) as Hr by (split; [done|by apply R_read]).
    revert Hr. generalize (read w). intros w' [Hv' Hr'].
    apply (proj2 (A := wf (after (resume (clock w) latestOrder w')))).
    unfold resume.
    repeat (destruct (decide _);
            [first [ split; [by apply wf_startOrderTracking
                            |by apply rule_startOrderTracking]
                   | apply (after_bind (λ v, wf v ∧ R v));
                     [split; [by apply wf_saveOrderStatus
                             |by apply rule_saveOrderStatus]
                     |intros _ v [Hv Hrv];
                      split; [by apply wf_startOrderTracking
                             |by apply rule_startOrderTracking]] ] |]).
    done.
  - by apply rule_elapse.
Qed.

Lemma rule_perform_all ops w :
  wf w → R w → wf (perform_all ops w) ∧ R (perform_all ops w).
Proof.
  revert w. induction ops as [|op ops IH]; intros w Hwf Hw; [done|].
  cbn [perform_all foldl]. apply IH; [by apply wf_perform|].
  by apply rule_perform.
Qed.

End Rules.

(** ** Auto-close timers *)

Lemma tracked_same w w' ev :
  orderStatusTimeouts w' = orderStatusTimeouts w →
  timers w' = timers w →
  nextTimer w' = nextTimer w →
  shown w' = shown w →
  clock w ≤ clock w' →
  trace w' = trace w ++ ev →
  closers_tracked w → closers_tracked w'.
Proof.
  intros Eh Et En Es Hc Etr (HA & HB & HC & HD).
  unfold closers_tracked. rewrite Eh, Et, En, Es, Etr.
  split; [done|]. split; [done|]. split.
  - intros t n Ht Hcb. destruct (HC t n Ht Hcb). split; [done|lia].
  - intros n Hn. destruct (HD n Hn) as [Hf|Hp]; [left|by right].
    apply elem_of_app. by left.
Qed.

Lemma tracked_read w : closers_tracked w → closers_tracked (read w).
Proof. by apply (tracked_same w _ [GetItem]). Qed.

Lemma tracked_saved w d orders :
  closers_tracked w → closers_tracked (saved d orders w).
Proof. by apply (tracked_same w _ [GetItem; SetItem (upsert d orders); Saved d]). Qed.

Lemma tracked_idle w T : closers_tracked w → closers_tracked (idle T w).
Proof.
  destruct w as [c sl q p cur hs ts' nt sh tr].
  apply (tracked_same _ _ []); try done.
  - cbn. lia.
  - cbn. by rewrite app_nil_r.
Qed.

(** A pending auto-close is not cancelled by [clearTimeout] on the
    handles of [orderStatusTimeouts]. *)
Lemma closer_not_cleared w t n :
  closers_tracked w → t ∈ timers w → callback t = CloseNotification n →
  t ∈ filter (λ t', tid t' ∉ orderStatusTimeouts w) (timers w).
Proof.
  intros (_ & HB & _) Ht Hcb. apply list_elem_of_filter. split; [|done].
  intros Hin. specialize (HB t Ht Hin). unfold is_step in HB.
  by rewrite Hcb in HB.
Qed.

Lemma tracked_entered w x :
  wf w → closers_tracked w → closers_tracked (entered x w).
Proof.
  intros Hwf Hw. pose proof Hw as (HA & HB & HC & HD).
  split; [|split; [|split]]; cbn [entered orderStatusTimeouts timers
    nextTimer shown clock trace].
  - by intros h ?%elem_of_nil.
  - by intros t _ ?%elem_of_nil.
  - intros t n [_ Ht]%list_elem_of_filter. by apply HC.
  - intros n Hn. destruct (HD n Hn) as [Hf|(t & Ht & Hcb)].
    + left. apply elem_of_app. by left.
    + right. exists t. split; [|done]. by eapply closer_not_cleared.
Qed.

Lemma tracked_started w x orders :
  wf w → closers_tracked w → closers_tracked (started x orders w).
Proof.
  intros (_ & Htid & _ & _) Hw. pose proof Hw as (HA & HB & HC & HD).
  unfold closers_tracked.
  cbn [started orderStatusTimeouts timers nextTimer shown clock trace].
  unfold closer, handle_after_notice, notice.
  destruct (bool_decide (permission w = Granted)).
  - split; [|split; [|split]].
    + intros h Hh. repeat (apply elem_of_cons in Hh as [->|Hh]; [lia|]).
      by apply elem_of_nil in Hh.
    + intros t [[[_ Ht]%list_elem_of_filter|Ht%list_elem_of_singleton]%elem_of_app
               |Ht]%elem_of_app Hin.
      * specialize (Htid t Ht).
        repeat (apply elem_of_cons in Hin as [Hin|Hin]; [lia|]).
        by apply elem_of_nil in Hin.
      * subst t. cbn [tid] in Hin.
        repeat (apply elem_of_cons in Hin as [Hin|Hin]; [lia|]).
        by apply elem_of_nil in Hin.
      * unfold ladder in Ht.
        repeat (apply elem_of_cons in Ht as [->|Ht]; [done|]).
        by apply elem_of_nil in Ht.
    + intros t n [[[_ Ht]%list_elem_of_filter|Ht%list_elem_of_singleton]%elem_of_app
               |Ht]%elem_of_app Hcb.
      * destruct (HC t n Ht Hcb). split; [lia|done].
      * subst t. cbn [callback due] in *. injection Hcb as <-.
        split; [lia|lia].
      * unfold ladder in Ht.
        repeat (apply elem_of_cons in Ht as [->|Ht]; [done|]).
        by apply elem_of_nil in Ht.
    + intros n Hn. destruct (decide (n < shown w)%nat) as [Hlt|Hge].
      * destruct (HD n Hlt) as [Hf|(t & Ht & Hcb)].
        -- left. rewrite <- (assoc_L (++)). apply elem_of_app. by left.
        -- right. exists t. split; [|done].
           rewrite <- (assoc_L (++)). apply elem_of_app. left.
           by eapply closer_not_cleared.
      * assert (n = shown w) as -> by lia. right. eexists.
        split; [apply elem_of_app; left; apply elem_of_app; right;
                apply list_elem_of_here|done].
  - rewrite !app_nil_r. split; [|split; [|split]].
    + intros h Hh. repeat (apply elem_of_cons in Hh as [->|Hh]; [lia|]).
      by apply elem_of_nil in Hh.
    + intros t [[_ Ht]%list_elem_of_filter|Ht]%elem_of_app Hin.
      * specialize (Htid t Ht).
        repeat (apply elem_of_cons in Hin as [Hin|Hin]; [lia|]).
        by apply elem_of_nil in Hin.
      * unfold ladder in Ht.
        repeat (apply elem_of_cons in Ht as [->|Ht]; [done|]).
        by apply elem_of_nil in Ht.
    + intros t n [[_ Ht]%list_elem_of_filter|Ht]%elem_of_app Hcb.
      * by apply HC.
      * unfold ladder in Ht.
        repeat (apply elem_of_cons in Ht as [->|Ht]; [done|]).
        by apply elem_of_nil in Ht.
    + intros n Hn. destruct (HD n Hn) as [Hf|(t & Ht & Hcb)].
      * left. apply elem_of_app. by left.
      * right. exists t. split; [|done]. apply elem_of_app. left.
        by eapply closer_not_cleared.
Qed.

(** Firing [t] removes no other pending timer. *)
Lemma other_timer_stays w t t' :
  wf w → t ∈ timers w → t' ∈ timers w → t' ≠ t →
  t' ∈ filter (λ u, tid u ≠ tid t) (timers w).
Proof.
  intros (_ & _ & Hnd & _) Ht Ht' Hne. apply list_elem_of_filter.
  split; [|done]. intros E. apply Hne. by eapply tid_inj.
Qed.

Lemma tracked_dequeued w t n :
  wf w → closers_tracked w → t ∈ timers w →
  callback t = CloseNotification n → closers_tracked (dequeued t w).
Proof.
  intros Hwf (HA & HB & HC & HD) Hin Hcb.
  unfold closers_tracked.
  cbn [dequeued orderStatusTimeouts timers nextTimer shown clock trace].
  split; [done|]. split; [|split].
  - intros t' [_ Ht']%list_elem_of_filter. by apply HB.
  - intros t' n' [_ Ht']%list_elem_of_filter Hcb'.
    destruct (HC t' n' Ht' Hcb'). split; [done|lia].
  - intros n' Hn'. destruct (HD n' Hn') as [Hf|(t' & Ht' & Hcb')].
    + left. apply elem_of_app. by left.
    + destruct (decide (tid t' = tid t)) as [E|Hne].
      * assert (t' = t) as ->.
        { destruct Hwf as (_ & _ & Hnd & _). by eapply tid_inj. }
        left. apply elem_of_app. right. rewrite Hcb'.
        apply list_elem_of_here.
      * right. exists t'. split; [|done]. by apply list_elem_of_filter.
Qed.

Lemma tracked_stumbled w t x s e :
  wf w → closers_tracked w → t ∈ timers w →
  callback t = Advance x s → closers_tracked (stumbled t e w).
Proof.
  intros Hwf (HA & HB & HC & HD) Hin Hcb.
  unfold closers_tracked.
  cbn [stumbled orderStatusTimeouts timers nextTimer shown clock trace].
  split; [done|]. split; [|split].
  - intros t' [_ Ht']%list_elem_of_filter. by apply HB.
  - intros t' n' [_ Ht']%list_elem_of_filter Hcb'.
    destruct (HC t' n' Ht' Hcb'). split; [done|lia].
  - intros n' Hn'. destruct (HD n' Hn') as [Hf|(t' & Ht' & Hcb')].
    + left. apply elem_of_app. by left.
    + right. exists t'. split; [|done]. apply other_timer_stays; [done..|].
      intros ->. congruence.
Qed.

Lemma tracked_advanced w t x s orders :
  wf w → closers_tracked w → t ∈ timers w →
  callback t = Advance x s → closers_tracked (advanced t x s orders w).
Proof.
  intros Hwf (HA & HB & HC & HD) Hin Hcb.
  unfold closers_tracked.
  cbn [advanced orderStatusTimeouts timers nextTimer shown clock trace].
  unfold handle_after_notice, notice.
  destruct (bool_decide (permission w = Granted)).
  - split; [|split; [|split]].
    + intros h Hh. specialize (HA h Hh). lia.
    + intros t' [[_ Ht']%list_elem_of_filter|Ht'%list_elem_of_singleton]%elem_of_app
        Hh.
      * by apply HB.
      * subst t'. cbn [tid] in Hh. specialize (HA _ Hh). lia.
    + intros t' n' [[_ Ht']%list_elem_of_filter|Ht'%list_elem_of_singleton]%elem_of_app
        Hcb'.
      * destruct (HC t' n' Ht' Hcb'). split; lia.
      * subst t'. cbn [callback due] in *. injection Hcb' as <-.
        split; lia.
    + intros n' Hn'. destruct (decide (n' < shown w)%nat) as [Hlt|Hge].
      * destruct (HD n' Hlt) as [Hf|(t' & Ht' & Hcb')].
        -- left. rewrite <- (assoc_L (++)). apply elem_of_app. by left.
        -- right. exists t'. split; [|done]. apply elem_of_app. left.
           apply other_timer_stays; [done..|]. intros ->. congruence.
      * assert (n' = shown w) as -> by lia. right. eexists.
        split; [apply elem_of_app; right; apply list_elem_of_here|done].
  - rewrite !app_nil_r. split; [done|]. split; [|split].
    + intros t' [_ Ht']%list_elem_of_filter. by apply HB.
    + intros t' n' [_ Ht']%list_elem_of_filter Hcb'.
      destruct (HC t' n' Ht' Hcb'). split; [done|lia].
    + intros n' Hn'. destruct (HD n' Hn') as [Hf|(t' & Ht' & Hcb')].
      * left. apply elem_of_app. by left.
      * right. exists t'. split; [|done]. apply other_timer_stays; [done..|].
        intros ->. congruence.
Qed.

Lemma tracked_page_load now s q p : closers_tracked (page_load now s q p).
Proof.
  split; [|split; [|split]]; cbn.
  - by intros h ?%elem_of_nil.
  - by intros t ?%elem_of_nil.
  - by intros t n ?%elem_of_nil.
  - intros n Hn. lia.
Qed.

Lemma tracked_reachable ops now s q p :
  wf (perform_all ops (page_load now s q p)) ∧
  closers_tracked (perform_all ops (page_load now s q p)).
Proof.
  apply (rule_perform_all closers_tracked);
    [apply tracked_read|apply tracked_saved|apply tracked_entered
    |apply tracked_started|apply tracked_dequeued|apply tracked_advanced
    |apply tracked_stumbled|intros w T _; apply tracked_idle
    |apply wf_page_load|apply tracked_page_load].
Qed.

Lemma tracked_fire t w :
  wf w → closers_tracked w → t ∈ timers w → closers_tracked (fire t w).
Proof.
  apply (rule_fire closers_tracked);
    [apply tracked_dequeued|apply tracked_advanced|apply tracked_stumbled].
Qed.

Lemma shown_fire t w : (shown w ≤ shown (fire t w))%nat.
Proof.
  destruct (callback t) as [x s|n] eqn:E.
  - rewrite (fire_step t x s) by done. cbv zeta.
    destruct (stored (slot w)); [|done].
    destruct (quota w _); [|done].
    cbn [advanced shown]. destruct (bool_decide _); lia.
  - by rewrite (fire_close t n).
Qed.

(** X16: a restart cancels status transitions only.  In every state
    the page can reach from a fresh load, the auto-close timer of a
    notification is still pending after [startOrderTracking]:
    [clearTimeout] runs over [orderStatusTimeouts], which never holds
    the handle of an auto-close. *)
Theorem restart_keeps_auto_close ops now s q p x t n :
  let w := perform_all ops (page_load now s q p) in
  t ∈ timers w →
  callback t = CloseNotification n →
  t ∈ timers (after (startOrderTracking x w)).
Proof.
  intros w Ht Hcb.
  destruct (tracked_reachable ops now s q p) as [_ Hw]. fold w in Hw.
  pose proof (closer_not_cleared w t n Hw Ht Hcb) as Hkept.
  rewrite startOrderTracking_cases.
  destruct (stored (slot w)); [|done].
  destruct (quota w _); [|done].
  cbn [after started timers]. apply elem_of_app. left.
  apply elem_of_app. by left.
Qed.

Lemma restart_keeps_auto_close_witness :
  let w := perform_all [StartTracking "A7"] sample_world in
  let t := {| tid := 1; due := 1005000; callback := CloseNotification 0 |} in
  t ∈ timers (after (startOrderTracking "B2" w)).
Proof.
  intros w t.
  apply (restart_keeps_auto_close [StartTracking "A7"] 1000000
           (Json [other_order; sample_order]) (λ _, true) Granted "B2" t 0).
  - vm_compute. apply list_elem_of_here.
  - reflexivity.
Defined.

(** X17: every notification is closed 5 s after it was shown, whatever
    happens in between.  From any state the page can reach from a
    fresh load, once the clock has advanced by 5000 ms every
    notification shown so far has had its [close()] run. *)
Theorem notification_closed_within_five_seconds ops now s q p n :
  let w := perform_all ops (page_load now s q p) in
  (n < shown w)%nat →
  Fired (CloseNotification n) ∈ trace (elapse (clock w + 5000) w).
Proof.
  intros w Hn.
  destruct (tracked_reachable ops now s q p) as [Hwf Hw].
  fold w in Hwf, Hw.
  set (T := clock w + 5000).
  set (Q := λ v, wf v ∧ closers_tracked v ∧ (shown w ≤ shown v)%nat ∧
                 ∀ t m, t ∈ timers v → callback t = CloseNotification m →
                        (m < shown w)%nat → due t ≤ T).
  assert (Q (elapse T w)) as (_ & (_ & _ & _ & HD) & Hmono & Hdue).
  { apply (elapse_ind Q).
    - intros v t (Hv & Htr & Hsh & Hd) Hnext _.
      pose proof (next_timer_Some v t Hnext) as [Hin _].
      split; [by apply wf_fire|]. split; [by apply tracked_fire|].
      split; [pose proof (shown_fire t v); lia|].
      intros t' m Ht' Hcb Hm.
      destruct (fire_timers t v) as (extra & E & [->|[_ ->]]);
        rewrite E in Ht'.
      + rewrite app_nil_r in Ht'.
        apply list_elem_of_filter in Ht' as [_ Ht']. by eapply Hd.
      + apply elem_of_app in Ht'
          as [[_ Ht']%list_elem_of_filter|Ht'%list_elem_of_singleton];
          [by eapply Hd|].
        subst t'. cbn [callback] in Hcb. injection Hcb as <-. lia.
    - intros v (Hv & Htr & Hsh & Hd) Hlate.
      split; [by apply wf_parts_idle|]. split; [by apply tracked_idle|].
      destruct v. done.
    - split; [done|]. split; [done|]. split; [done|].
      intros t m Ht Hcb _. destruct Hw as (_ & _ & HC & _).
      destruct (HC t m Ht Hcb). done. }
  destruct (HD n) as [Hf|(t & Ht & Hcb)]; [lia|done|].
  destruct (elapse_settled T w) as [Hlate _].
  specialize (Hlate t Ht). specialize (Hdue t n Ht Hcb Hn). lia.
Qed.

Lemma notification_closed_within_five_seconds_witness :
  let w := perform_all [StartTracking "A7"] sample_world in
  Fired (CloseNotification 0) ∈ trace (elapse (clock w + 5000) w).
Proof.
  intros w.
  apply (notification_closed_within_five_seconds [StartTracking "A7"]
           1000000 (Json [other_order; sample_order]) (λ _, true) Granted 0).
  vm_compute. lia.
Defined.

(** ** Asking for permission *)



(** * The partner registration page *)

(** ** The mobile number *)

Lemma times_range_Some lo hi n s rest :
  PartnerForm.times n (PartnerForm.consume (PartnerForm.Range lo hi)) s
  = Some rest ↔
  ∃ pre, s = pre +:+ rest ∧ String.length pre = n ∧
         Forall (λ c, PartnerForm.in_range lo hi c = true)
                (list_ascii_of_string pre).
Proof.
  revert s. induction n as [|n IH]; intros s; cbn [PartnerForm.times].
  - split.
    + intros [= ->]. exists "". by split; [|split; [|constructor]].
    + intros (pre & -> & Hlen & _). by destruct pre.
  - destruct s as [|c s']; cbn [PartnerForm.consume].
    + split; [done|]. intros (pre & E & Hlen & _). by destruct pre.
    + destruct (PartnerForm.in_range lo hi c) eqn:Ec.
      * rewrite IH. split.
        -- intros (pre & -> & Hlen & Hall). exists (String c pre).
           split; [done|]. split; [by cbn; rewrite Hlen|].
           by constructor.
        -- intros (pre & E & Hlen & Hall). destruct pre as [|c' pre]; [done|].
           injection E as <- ->. injection Hlen as Hlen.
           apply Forall_cons in Hall as [_ Hall]. by exists pre.
      * split; [done|]. intros (pre & E & Hlen & Hall).
        destruct pre as [|c' pre]; [done|]. injection E as <- ->.
        apply Forall_cons in Hall as [Hc _]. congruence.
Qed.

Lemma in_range_digit c :
  PartnerForm.in_range "0"%char "9"%char c = true ↔ (48 ≤ Ascii.nat_of_ascii c ≤ 57)%nat.
Proof.
  unfold PartnerForm.in_range. rewrite andb_true_iff, !Nat.leb_le.
  change (Ascii.nat_of_ascii "0"%char) with 48%nat.
  change (Ascii.nat_of_ascii "9"%char) with 57%nat.
  done.
Qed.

Lemma string_app_nil_r (s : string) : s +:+ "" = s.
Proof.
  induction s as [|c s IH]; [done|].
  change (String c s +:+ "") with (String c (s +:+ "")). by rewrite IH.
Qed.

Lemma test_mobileRegex s :
  PartnerForm.test PartnerForm.mobileRegex s = true ↔ PartnerForm.ten_digits s.
Proof.
  unfold PartnerForm.test, PartnerForm.ten_digits.
  change (PartnerForm.consume PartnerForm.mobileRegex s)
    with (PartnerForm.times 10
            (PartnerForm.consume (PartnerForm.Range "0"%char "9"%char)) s).
  destruct (PartnerForm.times 10 _ s) as [rest|] eqn:E.
  - apply times_range_Some in E as (pre & -> & Hlen & Hall).
    destruct rest as [|c rest].
    + split; [intros _|done].
      rewrite string_app_nil_r. split; [done|]. eapply Forall_impl; [done|].
      intros c. apply in_range_digit.
    + split; [done|]. intros [Hl _]. rewrite length_app in Hl. cbn in Hl. lia.
  - split; [done|]. intros [Hlen Hall].
    assert (PartnerForm.times 10
              (PartnerForm.consume (PartnerForm.Range "0"%char "9"%char)) s = Some "")
      as E'; [|congruence].
    apply times_range_Some. exists s. split; [|split; [done|]].
    + by rewrite string_app_nil_r.
    + eapply Forall_impl; [done|]. intros c. apply in_range_digit.
Qed.

(** X19: [/^[0-9]{10}$/] accepts exactly the strings of ten characters
    that are all digits 0 to 9: nothing shorter or longer, no sign, no
    space, no separator, no other numeral. *)
Theorem mobileRegex_accepts_ten_digits s :
  PartnerForm.test PartnerForm.mobileRegex s = true
  ↔ String.length s = 10%nat ∧
    Forall (λ c, (48 ≤ Ascii.nat_of_ascii c ≤ 57)%nat) (list_ascii_of_string s).
Proof. apply test_mobileRegex. Qed.

Lemma mobileRegex_accepts_ten_digits_witness :
  PartnerForm.test PartnerForm.mobileRegex "9876543210" = true.
Proof.
  apply (mobileRegex_accepts_ten_digits "9876543210").
  split; [reflexivity|]. repeat constructor; vm_compute; discriminate.
Defined.

(** ** The submit listener *)

Lemma falsy_empty s : PartnerForm.falsy s = true ↔ s = "".
Proof. by destruct s. Qed.

(** X20: what the submit listener of the partner form does.  It always
    prevents the default submission and shows exactly one alert.  A
    submission is accepted exactly when name and city are non-empty
    (not trimmed: blanks count) and the mobile number is ten digits;
    only then is the form reset, after the thank-you alert that quotes
    the three values.  An empty field is reported before an invalid
    number, and a rejected submission leaves every field as typed. *)
Theorem partner_form_submit p :
  let name := PartnerForm.partnerName (PartnerForm.fields p) in
  let city := PartnerForm.partnerCity (PartnerForm.fields p) in
  let mobile := PartnerForm.partnerMobile (PartnerForm.fields p) in
  let p' := snd (PartnerForm.submit p) in
  fst (PartnerForm.submit p) = true ∧
  (PartnerForm.acceptable (PartnerForm.fields p) →
   PartnerForm.fields p' = PartnerForm.initial p ∧
   PartnerForm.alerts p'
   = PartnerForm.alerts p ++ [PartnerForm.thanks_message name city mobile]) ∧
  (name = "" ∨ city = "" ∨ mobile = "" →
   PartnerForm.fields p' = PartnerForm.fields p ∧
   PartnerForm.alerts p'
   = PartnerForm.alerts p ++ [PartnerForm.required_message]) ∧
  (name ≠ "" → city ≠ "" → mobile ≠ "" → ¬ PartnerForm.ten_digits mobile →
   PartnerForm.fields p' = PartnerForm.fields p ∧
   PartnerForm.alerts p'
   = PartnerForm.alerts p ++ [PartnerForm.mobile_message]).
Proof.
  intros name city mobile p'. subst p'. unfold PartnerForm.submit.
  fold name city mobile.
  destruct (PartnerForm.falsy name) eqn:En.
  { apply falsy_empty in En. cbn [orb fst snd].
    split; [done|]. split; [by intros (? & _)|]. split; [done|]. done. }
  destruct (PartnerForm.falsy city) eqn:Ec.
  { apply falsy_empty in Ec. cbn [orb fst snd].
    split; [done|]. split; [by intros (_ & ? & _)|]. split; [done|]. done. }
  destruct (PartnerForm.falsy mobile) eqn:Em.
  { apply falsy_empty in Em. cbn [orb fst snd].
    split; [done|]. split; [|split; [done|done]].
    intros (_ & _ & Hlen & _). fold mobile in Hlen. by rewrite Em in Hlen. }
  assert (name ≠ "") as Hn by (intros ?%falsy_empty; congruence).
  assert (city ≠ "") as Hc by (intros ?%falsy_empty; congruence).
  assert (mobile ≠ "") as Hm by (intros ?%falsy_empty; congruence).
  cbn [orb]. destruct (PartnerForm.test PartnerForm.mobileRegex mobile) eqn:Et;
    cbn [negb fst snd].
  - apply test_mobileRegex in Et. split; [done|]. split; [done|].
    split; [by intros [?|[?|?]]|]. by intros _ _ _ ?.
  - assert (¬ PartnerForm.ten_digits mobile) as Hbad.
    { intros ?%test_mobileRegex. congruence. }
    split; [done|]. split; [by intros (_ & _ & ?)|].
    split; [by intros [?|[?|?]]|]. done.
Qed.

Lemma partner_form_submit_witness :
  PartnerForm.fields (snd (PartnerForm.submit PartnerForm.sample_page))
  = PartnerForm.initial PartnerForm.sample_page ∧
  PartnerForm.alerts (snd (PartnerForm.submit PartnerForm.sample_page))
  = [PartnerForm.thanks_message "Asha" "Pune" "9876543210"].
Proof.
  destruct (partner_form_submit PartnerForm.sample_page) as (_ & H & _).
  apply H. split; [discriminate|]. split; [discriminate|].
  split; [reflexivity|]. repeat constructor; vm_compute; discriminate.
Defined.

(** ** The theme switch *)

Lemma elem_of_add x token l : x ∈ Theme.add token l ↔ x = token ∨ x ∈ l.
Proof.
  unfold Theme.add. destruct (decide (token ∈ l)) as [Hin|Hnot].
  - split; [by right|]. by intros [->|?].
  - rewrite elem_of_app, list_elem_of_singleton. tauto.
Qed.

Lemma elem_of_remove x token l : x ∈ Theme.remove token l ↔ x ≠ token ∧ x ∈ l.
Proof. unfold Theme.remove. by rewrite list_elem_of_filter. Qed.

Lemma replace_first_drops token newToken l :
  token ≠ newToken → token ∉ Theme.replace_first token newToken l.
Proof.
  intros Hne. induction l as [|c l IH]; cbn [Theme.replace_first].
  - by intros ?%elem_of_nil.
  - destruct (decide _) as [Hc|Hc].
    + intros [?|[[? _] _]%list_elem_of_filter]%elem_of_cons; done.
    + intros [->|?]%elem_of_cons; [|done]. apply Hc. by left.
Qed.

Lemma replace_drops token newToken l :
  token ≠ newToken → token ∉ Theme.replace token newToken l.
Proof.
  intros Hne. unfold Theme.replace. destruct (decide _); [|done].
  by apply replace_first_drops.
Qed.

Lemma update_toggle_displays theme t t' :
  Theme.update_toggle theme t = Some t' → Theme.displays theme t'.
Proof.
  unfold Theme.update_toggle. destruct (Theme.icon t) as [ic|]; [|done].
  intros [= <-]. unfold Theme.displays.
  destruct (decide (theme = "dark")) as [->|Hne];
    cbn [Theme.classes Theme.label Theme.icon].
  - split; [|split].
    + split; [done|]. intros _. apply elem_of_add. by left.
    + intros text. destruct (Theme.label t); [|done]. by intros [= <-].
    + intros ic' [= <-]. rewrite elem_of_add. intros [?|Hin]; [done|].
      by apply replace_drops in Hin.
  - split; [|split].
    + split; [|done]. intros [? _]%elem_of_remove. done.
    + intros text. destruct (Theme.label t); [|done]. by intros [= <-].
    + intros ic' [= <-]. rewrite elem_of_add. intros [?|Hin]; [done|].
      by apply replace_drops in Hin.
Qed.

Lemma update_from_spec theme i l :
  ∃ l' tm threw,
    Theme.update_from theme i l = (l', tm, threw) ∧
    length l' = length l ∧
    (Theme.RemoveThemeTransition ∉ tm) ∧
    (threw = true ↔ Exists (λ t, Theme.icon t = None) l) ∧
    (threw = false →
     Forall (Theme.displays theme) l' ∧
     tm = Theme.RemoveRotateIcon <$> seq i (length l)).
Proof.
  revert i. induction l as [|t l IH]; intros i; cbn [Theme.update_from].
  - exists [], [], false. split; [done|]. split; [done|].
    split; [by intros ?%elem_of_nil|]. split.
    + split; [done|]. by intros ?%Exists_nil.
    + intros _. split; [constructor|done].
  - destruct (Theme.update_toggle theme t) as [t'|] eqn:E.
    + destruct (IH (S i))
        as (l' & tm & threw & -> & Hlen & Hno & Hthrew & Hok).
      exists (t' :: l'), (Theme.RemoveRotateIcon i :: tm), threw.
      split; [done|]. split; [by cbn; rewrite Hlen|].
      split; [by intros [?|?]%elem_of_cons|]. split.
      * rewrite Hthrew, Exists_cons. split; [by right|].
        intros [Hnone|?]; [|done]. unfold Theme.update_toggle in E.
        by rewrite Hnone in E.
      * intros Hf. destruct (Hok Hf) as [Hall ->]. split; [|done].
        constructor; [by eapply update_toggle_displays|done].
    + exists (t :: l), [], true. split; [done|]. split; [done|].
      split; [by intros ?%elem_of_nil|]. split.
      * split; [|done]. intros _. apply Exists_cons. left.
        unfold Theme.update_toggle in E. by destruct (Theme.icon t).
      * done.
Qed.

(** [updateThemeIcon] touches nothing but the toggles and the timers. *)
Lemma updateThemeIcon_frame theme p :
  let p' := Theme.after (Theme.updateThemeIcon theme p) in
  Theme.data_theme p' = Theme.data_theme p ∧
  Theme.theme_item p' = Theme.theme_item p ∧
  Theme.html_classes p' = Theme.html_classes p ∧
  Theme.storage_full p' = Theme.storage_full p.
Proof.
  unfold Theme.updateThemeIcon.
  destruct (Theme.update_from theme 0 (Theme.toggles p)) as [[l tm] threw].
  by destruct threw.
Qed.

Lemma updateThemeIcon_Done theme p p' :
  Theme.updateThemeIcon theme p = Theme.Done p' →
  Forall (Theme.displays theme) (Theme.toggles p') ∧
  length (Theme.toggles p') = length (Theme.toggles p) ∧
  Theme.timeouts p'
  = Theme.timeouts p
    ++ (Theme.RemoveRotateIcon <$> seq 0 (length (Theme.toggles p))).
Proof.
  unfold Theme.updateThemeIcon.
  destruct (update_from_spec theme 0 (Theme.toggles p))
    as (l & tm & threw & -> & Hlen & _ & _ & Hok).
  destruct threw; [done|]. intros [= <-]. cbn.
  destruct (Hok eq_refl) as [Hall ->]. done.
Qed.

Lemma toggleTheme_written p :
  Theme.storage_full p = false →
  let newTheme :=
    if decide (Theme.data_theme p = Some "dark") then "light" else "dark" in
  Theme.data_theme (Theme.after (Theme.toggleTheme p)) = Some newTheme ∧
  Theme.theme_item (Theme.after (Theme.toggleTheme p)) = Some newTheme ∧
  Theme.storage_full (Theme.after (Theme.toggleTheme p)) = false.
Proof.
  intros Hs newTheme. unfold Theme.toggleTheme. rewrite Hs. fold newTheme.
  match goal with
  | |- context [Theme.updateThemeIcon ?th ?q] =>
      pose proof (updateThemeIcon_frame th q) as (H1 & H2 & _ & H4);
      destruct (Theme.updateThemeIcon th q) as [p3|e p3]
  end; cbn in *; by rewrite H1, H2, H4.
Qed.

Lemma initTheme_attribute q :
  Theme.data_theme (Theme.after (Theme.initTheme q))
  = Some (Theme.savedTheme q).
Proof.
  unfold Theme.initTheme.
  match goal with
  | |- context [Theme.updateThemeIcon ?th ?p] =>
      by pose proof (updateThemeIcon_frame th p) as (-> & _)
  end.
Qed.

(** X21: the theme survives a reload.  After a [toggleTheme] whose
    storage write went through, the chosen theme is 'dark' or 'light',
    and [initTheme] on any later page load that sees the same storage
    sets [data-theme] to it again, whatever state that page's DOM is
    in (and even if an icon is missing and the icon update throws). *)
Theorem theme_survives_reload p q :
  Theme.storage_full p = false →
  Theme.theme_item q = Theme.theme_item (Theme.after (Theme.toggleTheme p)) →
  Theme.data_theme (Theme.after (Theme.initTheme q))
  = Theme.data_theme (Theme.after (Theme.toggleTheme p)) ∧
  (Theme.data_theme (Theme.after (Theme.toggleTheme p)) = Some "dark"
   ∨ Theme.data_theme (Theme.after (Theme.toggleTheme p)) = Some "light").
Proof.
  intros Hs Hq. destruct (toggleTheme_written p Hs) as (Hd & Hi & _).
  rewrite Hi in Hq. rewrite initTheme_attribute, Hd.
  unfold Theme.savedTheme. rewrite Hq.
  destruct (decide _); split; auto.
Qed.

Lemma theme_survives_reload_witness :
  Theme.data_theme
    (Theme.after (Theme.initTheme
                    (Theme.after (Theme.toggleTheme Theme.sample_page))))
  = Theme.data_theme (Theme.after (Theme.toggleTheme Theme.sample_page)).
Proof.
  apply (theme_survives_reload Theme.sample_page
           (Theme.after (Theme.toggleTheme Theme.sample_page))
           eq_refl eq_refl).
Defined.

(** X22: toggling twice restores the theme.  Starting from 'dark' or
    'light' with working storage, two calls of [toggleTheme] leave
    [data-theme] as it was and the stored theme equal to it; from any
    other value (or no attribute) the first call goes to 'dark'. *)
Theorem toggle_twice_restores p :
  Theme.storage_full p = false →
  let p1 := Theme.after (Theme.toggleTheme p) in
  let p2 := Theme.after (Theme.toggleTheme p1) in
  (Theme.data_theme p ≠ Some "dark" → Theme.data_theme p1 = Some "dark") ∧
  (Theme.data_theme p = Some "dark" ∨ Theme.data_theme p = Some "light" →
   Theme.data_theme p2 = Theme.data_theme p ∧
   Theme.theme_item p2 = Theme.data_theme p).
Proof.
  intros Hs p1 p2.
  destruct (toggleTheme_written p Hs) as (Hd1 & Hi1 & Hs1).
  destruct (toggleTheme_written p1 Hs1) as (Hd2 & Hi2 & _).
  fold p1 in Hd1, Hi1. fold p2 in Hd2, Hi2. split.
  - intros Hne. rewrite Hd1. by rewrite decide_False.
  - intros Hp. rewrite Hd2, Hi2, Hd1.
    destruct Hp as [Hp|Hp]; rewrite Hp.
    + rewrite (decide_True (P := Some "dark" = Some "dark")) by done.
      by rewrite decide_False.
    + rewrite (decide_False (P := Some "light" = Some "dark")) by done.
      by rewrite decide_True.
Qed.

Lemma toggle_twice_restores_witness :
  let p1 := Theme.after (Theme.toggleTheme Theme.sample_page) in
  let p2 := Theme.after (Theme.toggleTheme p1) in
  Theme.data_theme p2 = Theme.data_theme Theme.sample_page ∧
  Theme.theme_item p2 = Theme.data_theme Theme.sample_page.
Proof.
  intros p1 p2.
  destruct (toggle_twice_restores Theme.sample_page eq_refl) as [_ H].
  apply H. right. reflexivity.
Defined.

(** X23: after a theme change that did not throw, every toggle shows
    the current theme.  When [toggleTheme] or [initTheme] returns, the
    attribute holds a theme, each toggle carries the class [dark]
    exactly in the dark theme, its label (if it has one) names the
    other mode, its icon has lost the glyph of the other theme, and
    one rotate timer per toggle was registered; no toggle is added or
    lost. *)
Theorem toggles_follow_theme p o p' :
  o = Theme.toggleTheme p ∨ o = Theme.initTheme p →
  o = Theme.Done p' →
  ∃ theme,
    Theme.data_theme p' = Some theme ∧
    Forall (Theme.displays theme) (Theme.toggles p') ∧
    length (Theme.toggles p') = length (Theme.toggles p) ∧
    ∃ last,
      Theme.timeouts p'
      = Theme.timeouts p
        ++ (Theme.RemoveRotateIcon <$> seq 0 (length (Theme.toggles p)))
        ++ last.
Proof.
  intros [-> | ->] Hdone.
  - unfold Theme.toggleTheme in Hdone.
    destruct (Theme.storage_full p); [done|].
    match type of Hdone with
    | context [Theme.updateThemeIcon ?th ?q] =>
        pose proof (updateThemeIcon_frame th q) as (H1 & _);
        pose proof (updateThemeIcon_Done th q) as Hicons;
        destruct (Theme.updateThemeIcon th q) as [p3|e p3]; [|done];
        exists th
    end.
    injection Hdone as <-. destruct (Hicons p3 eq_refl) as (Hall & Hlen & Htm).
    cbn in *. split; [done|]. split; [done|]. split; [done|].
    exists [Theme.RemoveThemeTransition]. rewrite Htm.
    by rewrite <- (assoc_L (++)).
  - unfold Theme.initTheme in Hdone.
    match type of Hdone with
    | context [Theme.updateThemeIcon ?th ?q] =>
        pose proof (updateThemeIcon_frame th q) as (H1 & _);
        pose proof (updateThemeIcon_Done th q) as Hicons;
        exists th
    end.
    rewrite Hdone in H1. destruct (Hicons p' Hdone) as (Hall & Hlen & Htm).
    cbn in *. split; [done|]. split; [done|]. split; [done|].
    exists []. by rewrite app_nil_r.
Qed.

Lemma toggles_follow_theme_witness :
  ∃ theme,
    Theme.data_theme (Theme.after (Theme.toggleTheme Theme.sample_page))
    = Some theme ∧
    Forall (Theme.displays theme)
      (Theme.toggles (Theme.after (Theme.toggleTheme Theme.sample_page))).
Proof.
  destruct (toggles_follow_theme Theme.sample_page
              (Theme.toggleTheme Theme.sample_page)
              (Theme.after (Theme.toggleTheme Theme.sample_page))
              (or_introl eq_refl) eq_refl) as (theme & Hd & Hall & _).
  exists theme. split; [exact Hd|exact Hall].
Defined.

(** X24: a failed storage write leaves the switch half done.  When
    [localStorage.setItem] throws, [toggleTheme] throws with the
    attribute already flipped, but the choice is not stored, the
    toggles still show the old theme, and no timer is registered, so
    the class [theme-transition] stays on the html element; the next
    [initTheme] goes back to what was stored before. *)
Theorem full_storage_breaks_toggle p q :
  Theme.storage_full p = true →
  ∃ p',
    Theme.toggleTheme p = Theme.Threw Theme.QuotaExceededError p' ∧
    Theme.data_theme p' ≠ Theme.data_theme p ∧
    Theme.theme_item p' = Theme.theme_item p ∧
    Theme.toggles p' = Theme.toggles p ∧
    Theme.timeouts p' = Theme.timeouts p ∧
    "theme-transition" ∈ Theme.html_classes p' ∧
    (Theme.theme_item q = Theme.theme_item p' →
     Theme.data_theme (Theme.after (Theme.initTheme q))
     = Some (Theme.savedTheme p)).
Proof.
  intros Hs. unfold Theme.toggleTheme. rewrite Hs. eexists.
  split; [reflexivity|]. cbn. split; [|split; [done|split; [done|split;
    [done|split]]]].
  - destruct (decide _) as [->|Hne]; [done|]. congruence.
  - apply elem_of_add. by left.
  - intros Hq. rewrite initTheme_attribute. unfold Theme.savedTheme.
    by rewrite Hq.
Qed.

Lemma full_storage_breaks_toggle_witness :
  ∃ p',
    Theme.toggleTheme Theme.full_page
    = Theme.Threw Theme.QuotaExceededError p' ∧
    Theme.data_theme p' ≠ Theme.data_theme Theme.full_page ∧
    Theme.theme_item p' = Theme.theme_item Theme.full_page.
Proof.
  destruct (full_storage_breaks_toggle Theme.full_page Theme.full_page
              eq_refl) as (p' & E & Hd & Hi & _).
  exists p'. split; [exact E|]. split; [exact Hd|exact Hi].
Defined.

(** X25: a toggle without an [<i>] makes the icon update throw.  With
    working storage, [toggleTheme] throws a TypeError exactly when some
    toggle has no icon; the theme is switched and stored all the same,
    but the timer that removes [theme-transition] is never
    registered. *)
Theorem missing_icon_breaks_toggle p :
  Theme.storage_full p = false →
  ((∃ p', Theme.toggleTheme p = Theme.Threw Theme.TypeError p')
   ↔ Exists (λ t, Theme.icon t = None) (Theme.toggles p)) ∧
  ∀ p', Theme.toggleTheme p = Theme.Threw Theme.TypeError p' →
        Theme.data_theme p' = Theme.theme_item p' ∧
        Theme.data_theme p' ≠ Theme.data_theme p ∧
        "theme-transition" ∈ Theme.html_classes p' ∧
        Theme.RemoveThemeTransition ∉ drop (length (Theme.timeouts p))
                                           (Theme.timeouts p').
Proof.
  intros Hs. unfold Theme.toggleTheme. rewrite Hs.
  unfold Theme.updateThemeIcon. cbn [Theme.toggles Theme.timeouts
    Theme.data_theme Theme.html_classes Theme.theme_item Theme.storage_full].
  match goal with
  | |- context [Theme.update_from ?th 0 (Theme.toggles p)] =>
      destruct (update_from_spec th 0 (Theme.toggles p))
        as (l & tm & threw & -> & Hlen & Hno & Hthrew & Hok)
  end.
  destruct threw.
  - split.
    + split; [intros _; by apply Hthrew|]. intros _. by eexists.
    + intros p' [= <-]. cbn. split; [done|]. split; [|split].
      * destruct (decide _) as [->|Hne]; [done|]. congruence.
      * apply elem_of_add. by left.
      * by rewrite drop_app_length.
  - split.
    + split; [by intros [? ?]|]. intros Hex. by apply Hthrew in Hex.
    + by intros p' ?.
Qed.

Lemma missing_icon_breaks_toggle_witness :
  ∃ p', Theme.toggleTheme Theme.broken_page = Theme.Threw Theme.TypeError p'.
Proof.
  destruct (missing_icon_breaks_toggle Theme.broken_page eq_refl)
    as [[_ H] _].
  apply H. apply Exists_cons. right. apply Exists_cons. left. reflexivity.
Defined.
